(** * UniformXTabulated2DFunction: a shallow embedding

    The class [Opm::UniformXTabulated2DFunction<Scalar>] stores a jagged grid
    of sample points (one column per x position, each column sampled at its
    own y positions) and evaluates it by bilinear interpolation.

    Modelling choices.
    - [Scalar] is the field of rationals [Q]: arithmetic is exact, every
      definition computes, and equality of scalars is [Qeq] ([==]).
    - A C++ [int] index is a [Z].  All indices the class computes are bounded
      by vector sizes; [static_cast<int>] of a scalar is truncation toward
      zero, which is what the conversion does as long as the truncated value
      is an [int].  A position returned by [xToI] or [yToJ] when
      extrapolating is not bounded by the table, so the statements about
      such queries assume that the conversions [eval] makes are defined
      ([casts_defined]).
    - [std::vector] is [list]; [operator[]], [front] and [back] read with a
      default (the C++ behaviour is undefined out of range), [at] throws
      [std::out_of_range].
    - A member function that can throw or fail an [assert] returns an
      [outcome]; the two mutating members additionally return the table
      they leave behind.
    - The preprocessor symbol [NDEBUG] is a boolean: when it is [false] the
      build is the checked one ([assert] and the [#ifndef NDEBUG] blocks are
      compiled in). *)

From Stdlib Require Import ZArith QArith Qfield Qround List Bool Lia Lqa.
Import ListNotations.

Set Implicit Arguments.

(** ** Scalars *)

Abbreviation Scalar := Q.

(** [a < b] on scalars, as a boolean. *)
Definition Qltb (a b : Scalar) : bool := negb (Qle_bool b a).

(** [static_cast<int>(a)]: truncation toward zero. *)
Definition static_cast_int (a : Scalar) : Z :=
  Z.quot (Qnum a) (Z.pos (Qden a)).

(** The range of a C++ [int] (32 bits). *)
Definition INT_MIN : Z := -2147483648.
Definition INT_MAX : Z := 2147483647.

(** [static_cast<int>(a)] is defined when the truncated value is an [int];
    for any other [a] C++ leaves the conversion undefined, and
    [static_cast_int] does not describe it. *)
Definition int_castable (a : Scalar) : Prop :=
  (INT_MIN <= static_cast_int a <= INT_MAX)%Z.

(** ** Outcomes of a call *)

Inductive exn : Type :=
| NumericalIssue      (* Opm::NumericalIssue *)
| InvalidArgument     (* std::invalid_argument, the construction error *)
| OutOfRange.         (* std::out_of_range, thrown by std::vector::at *)

Inductive outcome (A : Type) : Type :=
| Ok (a : A)
| Throw (e : exn)
| Abort.              (* a failed assert *)

Arguments Ok {A} a.
Arguments Throw {A} e.
Arguments Abort {A}.

Definition bind {A B : Type} (c : outcome A) (k : A -> outcome B) : outcome B :=
  match c with
  | Ok a => k a
  | Throw e => Throw e
  | Abort => Abort
  end.

Declare Scope outcome_scope.
Delimit Scope outcome_scope with outcome.
Notation "x <- c ;; k" := (bind c (fun x => k))
  (at level 61, c at next level, right associativity) : outcome_scope.
Notation "c ;; k" := (bind c (fun _ => k))
  (at level 61, right associativity) : outcome_scope.

Definition fmap {A B : Type} (f : A -> B) (c : outcome A) : outcome B :=
  bind c (fun a => Ok (f a)).

(** ** std::vector *)

Module Vec.
Section Ops.
Variable A : Type.
Variable d : A.

Definition size (v : list A) : Z := Z.of_nat (length v).

Definition empty (v : list A) : bool :=
  match v with [] => true | _ :: _ => false end.

(** [v[i]] *)
Definition get (v : list A) (i : Z) : A := nth (Z.to_nat i) v d.

(** [v.at(i)]; the index is converted to [size_t], so a negative one is
    out of range as well. *)
Definition at_ (v : list A) (i : Z) : outcome A :=
  if (0 <=? i)%Z && (i <? size v)%Z then Ok (get v i) else Throw OutOfRange.

Definition front (v : list A) : A := hd d v.
Definition back (v : list A) : A := last v d.

Definition push_back (v : list A) (a : A) : list A := v ++ [a].

(** [v.insert(v.begin(), a)] *)
Definition insert_begin (v : list A) (a : A) : list A := a :: v.

(** [v.resize(n)] with value-initialised new elements [d]. *)
Definition resize (v : list A) (n : nat) : list A :=
  firstn n v ++ repeat d (n - length v).

(** [v[i] = a] *)
Fixpoint set (v : list A) (i : nat) (a : A) : list A :=
  match v, i with
  | [], _ => []
  | _ :: v', O => a :: v'
  | b :: v', S i' => b :: set v' i' a
  end.
End Ops.
End Vec.

(** ** The table *)

(** [std::tuple<x, y, value>] *)
Definition SamplePoint : Type := (Scalar * Scalar * Scalar)%type.

Definition get0 (p : SamplePoint) : Scalar := fst (fst p).
Definition get1 (p : SamplePoint) : Scalar := snd (fst p).
Definition get2 (p : SamplePoint) : Scalar := snd p.

Definition noSample : SamplePoint := (0, 0, 0).

Record UniformXTabulated2DFunction : Type := mkTable {
  samples_ : list (list SamplePoint);
  xPos_ : list Scalar
}.

Abbreviation Table := UniformXTabulated2DFunction.

(** The default constructor. *)
Definition emptyTable : Table := mkTable [] [].

Definition column (t : Table) (i : Z) : list SamplePoint :=
  Vec.get [] (samples_ t) i.

Definition sample (t : Table) (i j : Z) : SamplePoint :=
  Vec.get noSample (column t i) j.

Definition xMin (t : Table) : Scalar := Vec.front 0 (xPos_ t).
Definition xMax (t : Table) : Scalar := Vec.back 0 (xPos_ t).
Definition xAt (t : Table) (i : Z) : Scalar := Vec.get 0 (xPos_ t) i.
Definition yAt (t : Table) (i j : Z) : Scalar := get1 (sample t i j).
Definition valueAt (t : Table) (i j : Z) : Scalar := get2 (sample t i j).
Definition numX (t : Table) : Z := Vec.size (xPos_ t).

Open Scope outcome_scope.

Definition yMin (t : Table) (i : Z) : outcome Scalar :=
  col <- Vec.at_ [] (samples_ t) i ;; Ok (get1 (Vec.front noSample col)).

Definition yMax (t : Table) (i : Z) : outcome Scalar :=
  col <- Vec.at_ [] (samples_ t) i ;; Ok (get1 (Vec.back noSample col)).

Definition numY (t : Table) (i : Z) : outcome Z :=
  col <- Vec.at_ [] (samples_ t) i ;; Ok (Vec.size col).

(** ** Bisection loops

    Both loops shrink [upperIdx - lowerIdx] at every iteration and are run
    with that much fuel; [xToI_bisect_exit] and [yToJ_bisect_exit] below show
    that they leave through their loop condition. *)

Fixpoint xToI_bisect (fuel : nat) (xPos : list Scalar) (x : Scalar)
    (segmentIdx upperIdx : Z) : Z * Z :=
  match fuel with
  | O => (segmentIdx, upperIdx)
  | S fuel' =>
      if (segmentIdx + 1 <? upperIdx)%Z then
        let pivotIdx := ((segmentIdx + upperIdx) ÷ 2)%Z in
        if Qltb x (Vec.get 0 xPos pivotIdx)
        then xToI_bisect fuel' xPos x segmentIdx pivotIdx
        else xToI_bisect fuel' xPos x pivotIdx upperIdx
      else (segmentIdx, upperIdx)
  end.

Fixpoint yToJ_bisect (fuel : nat) (colSamplePoints : list SamplePoint)
    (y : Scalar) (lowerIdx upperIdx pivotIdx : Z) : Z * Z :=
  match fuel with
  | O => (lowerIdx, upperIdx)
  | S fuel' =>
      if (lowerIdx + 1 <? upperIdx)%Z then
        if Qltb y (get1 (Vec.get noSample colSamplePoints pivotIdx))
        then yToJ_bisect fuel' colSamplePoints y lowerIdx pivotIdx
               ((lowerIdx + pivotIdx) ÷ 2)%Z
        else yToJ_bisect fuel' colSamplePoints y pivotIdx upperIdx
               ((pivotIdx + upperIdx) ÷ 2)%Z
      else (lowerIdx, upperIdx)
  end.

(** [std::max(0, std::min(n - 2, static_cast<int>(a)))] *)
Definition clampIdx (n : Z) (a : Scalar) : Z :=
  Z.max 0 (Z.min (n - 2) (static_cast_int a)).

(** ** Queries *)

Section Build.
(** [true] when the translation unit is compiled with [-DNDEBUG]. *)
Variable NDEBUG : bool.

Definition assert (b : bool) : outcome unit :=
  if NDEBUG then Ok tt else if b then Ok tt else Abort.

(** An assert whose condition is only evaluated in the checked build. *)
Definition assertM (c : outcome bool) : outcome unit :=
  if NDEBUG then Ok tt else b <- c ;; if b then Ok tt else Abort.

Definition iToX (t : Table) (i : Z) : outcome Scalar :=
  assert ((0 <=? i)%Z && (i <? numX t)%Z) ;;
  Vec.at_ 0 (xPos_ t) i.

Definition jToY (t : Table) (i j : Z) : outcome Scalar :=
  assert ((0 <=? i)%Z && (i <? numX t)%Z) ;;
  assert ((0 <=? j)%Z && (j <? Vec.size (column t i))%Z) ;;
  col <- Vec.at_ [] (samples_ t) i ;;
  p <- Vec.at_ noSample col j ;;
  Ok (get1 p).

Definition xToI (t : Table) (x : Scalar) (extrapolate : bool) : outcome Scalar :=
  let xPos := xPos_ t in
  assert (extrapolate || (Qle_bool (xMin t) x && Qle_bool x (xMax t))) ;;
  assert (2 <=? Vec.size xPos)%Z ;;
  segmentIdx <-
    (if Qle_bool x (Vec.get 0 xPos 1) then Ok 0%Z
     else if Qle_bool (Vec.get 0 xPos (Vec.size xPos - 2)) x
     then Ok (Vec.size xPos - 2)%Z
     else
       let upperIdx := (Vec.size xPos - 2)%Z in
       let segmentIdx :=
         fst (xToI_bisect (Z.to_nat (upperIdx - 1)) xPos x 1 upperIdx) in
       assert (Qle_bool (Vec.get 0 xPos segmentIdx) x) ;;
       assert (Qle_bool x (Vec.get 0 xPos (segmentIdx + 1))) ;;
       Ok segmentIdx) ;;
  let x1 := Vec.get 0 xPos segmentIdx in
  let x2 := Vec.get 0 xPos (segmentIdx + 1) in
  Ok (inject_Z segmentIdx + (x - x1) / (x2 - x1)).

Definition yToJ (t : Table) (i : Z) (y : Scalar) (extrapolate : bool)
  : outcome Scalar :=
  assert ((0 <=? i)%Z && (i <? numX t)%Z) ;;
  colSamplePoints <- Vec.at_ [] (samples_ t) i ;;
  assertM (if extrapolate then Ok true
           else lo <- yMin t i ;;
                if Qle_bool lo y
                then hi <- yMax t i ;; Ok (Qle_bool y hi)
                else Ok false) ;;
  let upperIdx := (Vec.size colSamplePoints - 1)%Z in
  let lowerIdx :=
    fst (yToJ_bisect (Z.to_nat upperIdx) colSamplePoints y 0 upperIdx
           ((0 + upperIdx) ÷ 2)%Z) in
  let y1 := get1 (Vec.get noSample colSamplePoints lowerIdx) in
  let y2 := get1 (Vec.get noSample colSamplePoints (lowerIdx + 1)) in
  assert (Qle_bool y1 y || (extrapolate && (lowerIdx =? 0)%Z)) ;;
  assert (Qle_bool y y2
          || (extrapolate && (lowerIdx =? Vec.size colSamplePoints - 2)%Z)) ;;
  Ok (inject_Z lowerIdx + (y - y1) / (y2 - y1)).

Definition applies (t : Table) (x y : Scalar) : outcome bool :=
  if Qltb x (xMin t) || Qltb (xMax t) x then Ok false
  else
    i <- xToI t x false ;;
    col1SamplePoints <- Vec.at_ [] (samples_ t) (static_cast_int i) ;;
    col2SamplePoints <- Vec.at_ [] (samples_ t) (static_cast_int i) ;;
    let alpha := i - inject_Z (static_cast_int i) in
    let yMin := alpha * get1 (Vec.front noSample col1SamplePoints)
                + (1 - alpha) * get1 (Vec.front noSample col2SamplePoints) in
    let yMax := alpha * get1 (Vec.back noSample col1SamplePoints)
                + (1 - alpha) * get1 (Vec.back noSample col2SamplePoints) in
    Ok (Qle_bool yMin y && Qle_bool y yMax).

(** The [#ifndef NDEBUG] block shared by the two [eval] overloads. *)
Definition domainCheck (t : Table) (x y : Scalar) (extrapolate : bool)
  : outcome unit :=
  if NDEBUG then Ok tt
  else if negb extrapolate then
    a <- applies t x y ;;
    if negb a then Throw NumericalIssue else Ok tt
  else Ok tt.

Definition eval (t : Table) (x y : Scalar) (extrapolate : bool)
  : outcome Scalar :=
  domainCheck t x y extrapolate ;;
  alpha <- xToI t x extrapolate ;;
  let i := clampIdx (numX t) alpha in
  let alpha := alpha - inject_Z i in
  beta1 <- yToJ t i y extrapolate ;;
  beta2 <- yToJ t (i + 1) y extrapolate ;;
  nY1 <- numY t i ;;
  let j1 := clampIdx nY1 beta1 in
  nY2 <- numY t (i + 1) ;;
  let j2 := clampIdx nY2 beta2 in
  let beta1 := beta1 - inject_Z j1 in
  let beta2 := beta2 - inject_Z j2 in
  let s1 := valueAt t i j1 * (1 - beta1) + valueAt t i (j1 + 1) * beta1 in
  let s2 := valueAt t (i + 1) j2 * (1 - beta2)
            + valueAt t (i + 1) (j2 + 1) * beta2 in
  Ok (s1 * (1 - alpha) + s2 * alpha).

(** [eval(x, y)]: the scalar overload's default is [extrapolate = true]. *)
Definition eval_default (t : Table) (x y : Scalar) : outcome Scalar :=
  eval t x y true.

End Build.

(** ** Derivative-carrying scalars *)

Module Evaluation.

(** Modelled from the spec: the class [Evaluation] (a value and a vector of
    partial derivatives, with its arithmetic operators) is not part of the
    sources at hand.  The operators below are the ones the template
    overload of [eval] uses; sums and products follow the usual
    derivative rules, and a plain scalar operand is a constant. *)
Record t : Type := mk { value : Scalar; derivatives : list Scalar }.

Fixpoint map2 (f : Scalar -> Scalar -> Scalar) (a b : list Scalar)
  : list Scalar :=
  match a, b with
  | x :: a', y :: b' => f x y :: map2 f a' b'
  | _, _ => []
  end.

(** [Evaluation::createConstant(v)] for [n] independent variables *)
Definition createConstant (n : nat) (v : Scalar) : t := mk v (repeat 0 n).

(** [e -= i] *)
Definition sub_int (e : t) (i : Z) : t :=
  mk (value e - inject_Z i) (derivatives e).

(** [s * e] *)
Definition scale (s : Scalar) (e : t) : t :=
  mk (s * value e) (map (fun d => s * d) (derivatives e)).

(** [s - e] *)
Definition rsub (s : Scalar) (e : t) : t :=
  mk (s - value e) (map Qopp (derivatives e)).

(** [a + b] *)
Definition add (a b : t) : t :=
  mk (value a + value b) (map2 Qplus (derivatives a) (derivatives b)).

(** [a * b] *)
Definition mul (a b : t) : t :=
  mk (value a * value b)
     (map2 (fun da db => da * value b + value a * db)
           (derivatives a) (derivatives b)).

(** The loop [for (varIdx = 0; varIdx < n; ++varIdx)
    e.derivatives[varIdx] = src[varIdx] / denom]. *)
Definition set_derivatives (e : t) (n : nat) (src : list Scalar)
    (denom : Scalar) : t :=
  mk (value e) (map (fun varIdx => nth varIdx src 0 / denom) (seq 0 n)).

(** The derivative with respect to variable [var]. *)
Abbreviation deriv e var := (nth var (derivatives e) 0).

End Evaluation.

Section BuildAD.
Variable NDEBUG : bool.

Definition evalAD (t : Table) (x y : Evaluation.t) (extrapolate : bool)
  : outcome Evaluation.t :=
  let n := length (Evaluation.derivatives x) in
  domainCheck NDEBUG t (Evaluation.value x) (Evaluation.value y) extrapolate ;;
  a <- xToI NDEBUG t (Evaluation.value x) extrapolate ;;
  let alpha := Evaluation.createConstant n a in
  let i := clampIdx (numX t) (Evaluation.value alpha) in
  let alpha := Evaluation.sub_int alpha i in
  b1 <- yToJ NDEBUG t i (Evaluation.value y) extrapolate ;;
  b2 <- yToJ NDEBUG t (i + 1) (Evaluation.value y) extrapolate ;;
  nY1 <- numY t i ;;
  let j1 := clampIdx nY1 b1 in
  nY2 <- numY t (i + 1) ;;
  let j2 := clampIdx nY2 b2 in
  let beta1 := Evaluation.mk (b1 - inject_Z j1) [] in
  let beta2 := Evaluation.mk (b2 - inject_Z j2) [] in
  let alpha :=
    Evaluation.set_derivatives alpha n (Evaluation.derivatives x)
      (xAt t (i + 1) - xAt t i) in
  let beta1 :=
    Evaluation.set_derivatives beta1 n (Evaluation.derivatives y)
      (yAt t i (j1 + 1) - yAt t i j1) in
  let beta2 :=
    Evaluation.set_derivatives beta2 n (Evaluation.derivatives y)
      (yAt t (i + 1) (j2 + 1) - yAt t (i + 1) j2) in
  let s1 :=
    Evaluation.add
      (Evaluation.scale (valueAt t i j1) (Evaluation.rsub 1 beta1))
      (Evaluation.scale (valueAt t i (j1 + 1)) beta1) in
  let s2 :=
    Evaluation.add
      (Evaluation.scale (valueAt t (i + 1) j2) (Evaluation.rsub 1 beta2))
      (Evaluation.scale (valueAt t (i + 1) (j2 + 1)) beta2) in
  Ok (Evaluation.add
        (Evaluation.mul s1 (Evaluation.rsub 1 alpha))
        (Evaluation.mul s2 alpha)).

(** [eval(x, y)] on evaluations: the template overload's default is
    [extrapolate = false]. *)
Definition evalAD_default (t : Table) (x y : Evaluation.t)
  : outcome Evaluation.t :=
  evalAD t x y false.

(** ** Construction *)

(** Both members return the outcome of the call together with the table
    as it is afterwards. *)

Definition appendXPos (t : Table) (nextX : Scalar) : outcome Z * Table :=
  if Vec.empty (xPos_ t) || Qltb (Vec.back 0 (xPos_ t)) nextX then
    let xPos := Vec.push_back (xPos_ t) nextX in
    let samples := Vec.resize [] (samples_ t) (length xPos) in
    (Ok (Vec.size xPos - 1)%Z, mkTable samples xPos)
  else if Qltb nextX (Vec.front 0 (xPos_ t)) then
    (Ok 0%Z,
     mkTable (Vec.insert_begin (samples_ t) []) (Vec.insert_begin (xPos_ t) nextX))
  else (Throw InvalidArgument, t).

Definition appendSamplePoint (t : Table) (i : Z) (y value : Scalar)
  : outcome Z * Table :=
  match assert NDEBUG ((0 <=? i)%Z && (i <? numX t)%Z) ;; iToX NDEBUG t i with
  | Ok x =>
      let col := column t i in
      if Vec.empty col || Qltb (get1 (Vec.back noSample col)) y then
        let col' := Vec.push_back col (x, y, value) in
        (Ok (Vec.size col' - 1)%Z,
         mkTable (Vec.set (samples_ t) (Z.to_nat i) col') (xPos_ t))
      else if Qltb y (get1 (Vec.front noSample col)) then
        (Ok 0%Z,
         mkTable (Vec.set (samples_ t) (Z.to_nat i)
                    (Vec.insert_begin col (x, y, value)))
                 (xPos_ t))
      else (Throw InvalidArgument, t)
  | Throw e => (Throw e, t)
  | Abort => (Abort, t)
  end.

End BuildAD.

(** ** Reachable tables *)

(** The states an object of the class can be in: the default-constructed
    table and whatever successful appends make of it (a failed append leaves
    the table as it was). *)
Inductive reachable : Table -> Prop :=
| reach_empty : reachable emptyTable
| reach_appendXPos t x i t' :
    reachable t -> appendXPos t x = (Ok i, t') -> reachable t'
| reach_appendSamplePoint ndebug t i y v k t' :
    reachable t -> appendSamplePoint ndebug t i y v = (Ok k, t') -> reachable t'.

(** Query-ready: at least two columns, at least two points in each. *)
Definition query_ready (t : Table) : Prop :=
  (2 <= numX t)%Z /\
  forall i, (0 <= i < numX t)%Z -> (2 <= Vec.size (column t i))%Z.

(** Strictly ascending lists of scalars. *)
Definition ascending (l : list Scalar) : Prop :=
  forall i j : nat, (i < j < length l)%nat -> nth i l 0 < nth j l 0.

(** The class invariant. *)
Record invariant (t : Table) : Prop := mkInv {
  inv_size : length (samples_ t) = length (xPos_ t);
  inv_x : ascending (xPos_ t);
  inv_y : forall col, In col (samples_ t) -> ascending (map get1 col)
}.

(** ** Construction sequences *)

(** A call of one of the two mutating members. *)
Inductive op : Type :=
| AppendXPos (x : Scalar)
| AppendSamplePoint (i : Z) (y value : Scalar).

Definition apply_op (ndebug : bool) (o : op) (t : Table) : outcome Z * Table :=
  match o with
  | AppendXPos x => appendXPos t x
  | AppendSamplePoint i y value => appendSamplePoint ndebug t i y value
  end.

(** Run the calls in order; the first one that fails ends the run. *)
Fixpoint build (ndebug : bool) (ops : list op) (t : Table) : outcome Table :=
  match ops with
  | [] => Ok t
  | o :: ops' =>
      match apply_op ndebug o t with
      | (Ok _, t') => build ndebug ops' t'
      | (Throw e, _) => Throw e
      | (Abort, _) => Abort
      end
  end.

(** The running example of the documentation: x = {0, 1}, column 0 with
    (y, value) = (0, 0), (1, 1) and column 1 with (0, 2), (1, 3). *)
Definition unitSquare_ops : list op :=
  [ AppendXPos 0; AppendXPos 1;
    AppendSamplePoint 0 0 0; AppendSamplePoint 0 1 1;
    AppendSamplePoint 1 0 2; AppendSamplePoint 1 1 3 ].

Definition unitSquare : Table :=
  mkTable [ [(0, 0, 0); (0, 1, 1)]; [(1, 0, 2); (1, 1, 3)] ] [0; 1].

(** A table whose two columns span different y ranges: column 0 covers
    [[0, 1]] and column 1 covers [[0, 2]]. *)
Definition skewed_ops : list op :=
  [ AppendXPos 0; AppendXPos 1;
    AppendSamplePoint 0 0 0; AppendSamplePoint 0 1 1;
    AppendSamplePoint 1 0 2; AppendSamplePoint 1 2 3 ].

Definition skewed : Table :=
  mkTable [ [(0, 0, 0); (0, 1, 1)]; [(1, 0, 2); (1, 2, 3)] ] [0; 1].

(** ** Interval positions

    Both mapping routines return an "interval position": the index of an
    interval of a strictly ascending sequence plus the relative position of
    the coordinate in it. *)

Definition interp (l : list Scalar) (s : Z) (x : Scalar) : Scalar :=
  inject_Z s + (x - Vec.get 0 l s) / (Vec.get 0 l (s + 1) - Vec.get 0 l s).

(** [s] is an interval of [l] that holds [x]; the first interval also takes
    what lies below the sequence and the last what lies above. *)
Definition bracket (l : list Scalar) (s : Z) (x : Scalar) : Prop :=
  (0 <= s <= Vec.size l - 2)%Z /\
  (s = 0%Z \/ Vec.get 0 l s <= x) /\
  (s = (Vec.size l - 2)%Z \/ x <= Vec.get 0 l (s + 1)).

(** The interval the if-chain and loop of [xToI] select, and the one the
    loop of [yToJ] selects. *)
Definition xSegment (xPos : list Scalar) (x : Scalar) : Z :=
  if Qle_bool x (Vec.get 0 xPos 1) then 0%Z
  else if Qle_bool (Vec.get 0 xPos (Vec.size xPos - 2)) x
  then (Vec.size xPos - 2)%Z
  else fst (xToI_bisect (Z.to_nat (Vec.size xPos - 2 - 1)) xPos x 1
              (Vec.size xPos - 2)).

Definition ySegment (col : list SamplePoint) (y : Scalar) : Z :=
  fst (yToJ_bisect (Z.to_nat (Vec.size col - 1)) col y 0 (Vec.size col - 1)
         ((0 + (Vec.size col - 1)) ÷ 2)%Z).

(** The interval positions the two routines return when they return. *)
Definition xPosition (t : Table) (x : Scalar) : Scalar :=
  interp (xPos_ t) (xSegment (xPos_ t) x) x.

Definition yPosition (t : Table) (i : Z) (y : Scalar) : Scalar :=
  interp (map get1 (column t i)) (ySegment (column t i) y) y.

(** The domain test as the documentation words it: blend the y bounds of
    the two columns that bracket [x] by the fractional offset of [x]. *)
Definition applies_blended (t : Table) (x y : Scalar) : bool :=
  if Qltb x (xMin t) || Qltb (xMax t) x then false
  else
    let i := static_cast_int (xPosition t x) in
    let alpha := xPosition t x - inject_Z i in
    let lo := (1 - alpha) * yAt t i 0 + alpha * yAt t (i + 1) 0 in
    let hi := (1 - alpha) * yAt t i (Vec.size (column t i) - 1)
              + alpha * yAt t (i + 1) (Vec.size (column t (i + 1)) - 1) in
    Qle_bool lo y && Qle_bool y hi.

(** The cell [eval] interpolates in: the clamped column index and the bracket
    index in a column, with the offsets that remain. *)
Definition cellI (t : Table) (x : Scalar) : Z :=
  clampIdx (numX t) (xPosition t x).

Definition cellAlpha (t : Table) (x : Scalar) : Scalar :=
  xPosition t x - inject_Z (cellI t x).

Definition cellJ (t : Table) (i : Z) (y : Scalar) : Z :=
  clampIdx (Vec.size (column t i)) (yPosition t i y).

Definition cellBeta (t : Table) (i : Z) (y : Scalar) : Scalar :=
  yPosition t i y - inject_Z (cellJ t i y).

(** The bilinear blend of the four corner values. *)
Definition blend (v11 v12 v21 v22 alpha beta1 beta2 : Scalar) : Scalar :=
  (v11 * (1 - beta1) + v12 * beta1) * (1 - alpha)
  + (v21 * (1 - beta2) + v22 * beta2) * alpha.

Definition bilinear (t : Table) (x y : Scalar) : Scalar :=
  let i := cellI t x in
  let j1 := cellJ t i y in
  let j2 := cellJ t (i + 1) y in
  blend (valueAt t i j1) (valueAt t i (j1 + 1))
        (valueAt t (i + 1) j2) (valueAt t (i + 1) (j2 + 1))
        (cellAlpha t x) (cellBeta t i y) (cellBeta t (i + 1) y).

(** The three conversions to [int] that [eval] makes at [(x, y)] are
    defined: the one of the x position and those of the y positions in the
    two columns of the cell. *)
Definition casts_defined (t : Table) (x y : Scalar) : Prop :=
  int_castable (xPosition t x) /\
  int_castable (yPosition t (cellI t x) y) /\
  int_castable (yPosition t (cellI t x + 1) y).

(** The cell of a coordinate, from the stored coordinates alone: [i] is the
    column interval with [xAt(i) <= x < xAt(i+1)], the first interval for an
    [x] below the table and the last one for an [x] at or above [xMax]; and
    likewise [j] in column [i] for [y]. *)
Definition xCell (t : Table) (i : Z) (x : Scalar) : Prop :=
  (0 <= i <= numX t - 2)%Z /\
  (i = 0%Z \/ xAt t i <= x) /\
  (i = (numX t - 2)%Z \/ x < xAt t (i + 1)).

Definition yCell (t : Table) (i j : Z) (y : Scalar) : Prop :=
  (0 <= j <= Vec.size (column t i) - 2)%Z /\
  (j = 0%Z \/ yAt t i j <= y) /\
  (j = (Vec.size (column t i) - 2)%Z \/ y < yAt t i (j + 1)).

(** The position of a coordinate relative to an interval: 0 at its lower
    end, 1 at its upper end. *)
Definition xOffset (t : Table) (i : Z) (x : Scalar) : Scalar :=
  (x - xAt t i) / (xAt t (i + 1) - xAt t i).

Definition yOffset (t : Table) (i j : Z) (y : Scalar) : Scalar :=
  (y - yAt t i j) / (yAt t i (j + 1) - yAt t i j).

(** The preconditions of the mapping routines when not extrapolating. *)
Definition inXRange (t : Table) (x : Scalar) : Prop :=
  xMin t <= x /\ x <= xMax t.

Definition inYRange (t : Table) (i : Z) (y : Scalar) : Prop :=
  yAt t i 0 <= y /\ y <= yAt t i (Vec.size (column t i) - 1).

(** The derivative of [blend] along a direction in which the offsets
    change at the rates [dalpha], [dbeta1] and [dbeta2], the corner values
    being constants (chain rule). *)
Definition dblend (v11 v12 v21 v22 alpha beta1 beta2 dalpha dbeta1 dbeta2 : Scalar)
  : Scalar :=
  ((v21 * (1 - beta2) + v22 * beta2) - (v11 * (1 - beta1) + v12 * beta1)) * dalpha
  + (v12 - v11) * (1 - alpha) * dbeta1
  + (v22 - v21) * alpha * dbeta2.

(** The smallest and largest y stored in a (non-empty) column. *)
Definition firstY (t : Table) (i : Z) : Scalar :=
  get1 (Vec.front noSample (column t i)).

Definition lastY (t : Table) (i : Z) : Scalar :=
  get1 (Vec.back noSample (column t i)).

(** The table with the x positions [xs] and no sample yet, and a table
    with column [i] replaced. *)
Definition emptyColumns (xs : list Scalar) : Table :=
  mkTable (repeat [] (length xs)) xs.

Definition withColumn (t : Table) (i : Z) (col : list SamplePoint) : Table :=
  mkTable (Vec.set (samples_ t) (Z.to_nat i) col) (xPos_ t).

Definition appendXs (xs : list Scalar) : list op := map AppendXPos xs.

Definition appendYs (i : Z) (pts : list (Scalar * Scalar)) : list op :=
  map (fun p => AppendSamplePoint i (fst p) (snd p)) pts.

Definition pointsAt (x : Scalar) (pts : list (Scalar * Scalar)) : list SamplePoint :=
  map (fun p => (x, fst p, snd p)) pts.

(** The y coordinate of the [j]-th point of a column. *)
Abbreviation yOf col j := (get1 (Vec.get noSample col j)).

(** A call that does not end in NumericalIssue. *)
Definition no_issue {A : Type} (c : outcome A) : Prop := c <> Throw NumericalIssue.

(** Linear interpolation along column [i] alone, in the bracket [eval]
    selects for [y]. *)
Definition columnInterp (t : Table) (i : Z) (y : Scalar) : Scalar :=
  let j := cellJ t i y in
  valueAt t i j * (1 - cellBeta t i y) + valueAt t i (j + 1) * cellBeta t i y.

(** Every stored sample carries the x position of its column. *)
Definition x_consistent (t : Table) : Prop :=
  forall (i : nat) (p : SamplePoint),
    In p (nth i (samples_ t) []) -> get0 p = nth i (xPos_ t) 0.

(** * The other classes *)

(** [std::max(a, b)] and [std::min(a, b)] on scalars. *)
Definition std_max (a b : Scalar) : Scalar := if Qltb a b then b else a.
Definition std_min (a b : Scalar) : Scalar := if Qltb b a then b else a.

(** ** EclDefaultMaterial: the three-phase law built from two two-phase laws

    The class is a template over the traits (phase indices), the two
    two-phase laws and the parameter class; these are interfaces here.  The
    members are instantiated at [Evaluation = Scalar], the default template
    argument. *)
Module EclDefaultMaterial.

(** [TraitsT], as far as the class reads it. *)
Record Traits : Type := mkTraits {
  wettingPhaseIdx : Z;
  nonWettingPhaseIdx : Z;
  gasPhaseIdx : Z
}.

(** A two-phase law with the saturation-only API, over its parameter
    class. *)
Record TwoPhaseSatLaw (P : Type) : Type := mkLaw {
  twoPhaseSatPcnw : P -> Scalar -> Scalar;
  twoPhaseSatKrw : P -> Scalar -> Scalar;
  twoPhaseSatKrn : P -> Scalar -> Scalar
}.

(** [EclDefaultMaterialParams], as far as the class reads it. *)
Record Params (GO OW : Type) : Type := mkParams {
  Swl : Scalar;
  inconsistentHysteresisUpdate : bool;
  gasOilParams : GO;
  oilWaterParams : OW
}.

(** A fluid state, as far as the class reads it: [saturation(phaseIdx)]. *)
Definition FluidState : Type := Z -> Scalar.

(** The arguments of one call [params.update(pcSw, krwSw, krnSw)] of a
    hysteresis parameter object. *)
Record UpdateCall : Type := mkUpdate {
  pcSw : Scalar;
  krwSw : Scalar;
  krnSw : Scalar
}.

Section Law.
Variables GO OW : Type.
Variable traits : Traits.
Variable GasOilMaterialLaw : TwoPhaseSatLaw GO.
Variable OilWaterMaterialLaw : TwoPhaseSatLaw OW.

Let waterPhaseIdx := wettingPhaseIdx traits.
Let oilPhaseIdx := nonWettingPhaseIdx traits.

Definition pcgn (params : Params GO OW) (fs : FluidState) : Scalar :=
  let Sw := 1 - fs (gasPhaseIdx traits) in
  twoPhaseSatPcnw GasOilMaterialLaw (gasOilParams params) Sw.

Definition pcnw (params : Params GO OW) (fs : FluidState) : Scalar :=
  let Sw := fs waterPhaseIdx in
  twoPhaseSatPcnw OilWaterMaterialLaw (oilWaterParams params) Sw.

Definition krg (params : Params GO OW) (fluidState : FluidState) : Scalar :=
  let Sw := 1 - fluidState (gasPhaseIdx traits) in
  twoPhaseSatKrn GasOilMaterialLaw (gasOilParams params) Sw.

Definition krw (params : Params GO OW) (fluidState : FluidState) : Scalar :=
  let Sw := fluidState waterPhaseIdx in
  twoPhaseSatKrw OilWaterMaterialLaw (oilWaterParams params) Sw.

(** Scalars being exact rationals, the guard [Sg + Sw - Swco < 1e-20] is
    decided on the exact value of its left-hand side. *)
Definition krn (params : Params GO OW) (fluidState : FluidState) : Scalar :=
  let Swco := Swl params in
  let Sw := std_max Swco (fluidState waterPhaseIdx) in
  let Sg := fluidState (gasPhaseIdx traits) in
  let Sw_ow := Sg + Sw in
  let So_go := 1 - Sw_ow in
  let kro_ow := twoPhaseSatKrn OilWaterMaterialLaw (oilWaterParams params) Sw_ow in
  let kro_go := twoPhaseSatKrw GasOilMaterialLaw (gasOilParams params) So_go in
  if Qltb (Sg + Sw - Swco) (1 # 100000000000000000000) then kro_ow
  else
    let weightOilWater := (Sw - Swco) / (Sg + Sw - Swco) in
    let weightGasOil := 1 - weightOilWater in
    weightOilWater * kro_ow + weightGasOil * kro_go.

(** [updateHysteresis]: the two [update] calls it makes, first the one on
    [oilWaterParams()], then the one on [gasOilParams()]. *)
Definition updateHysteresis (params : Params GO OW) (fluidState : FluidState)
  : UpdateCall * UpdateCall :=
  let Sw := fluidState waterPhaseIdx in
  let So := fluidState oilPhaseIdx in
  let Sg := fluidState (gasPhaseIdx traits) in
  if inconsistentHysteresisUpdate params then
    let Sg := std_min 1 (std_max 0 Sg) in
    (mkUpdate (1 - So) (1 - So) (1 - So),
     mkUpdate (1 - Sg) (1 - Sg) (1 - Sg))
  else
    let Swco := Swl params in
    let Sw := std_min 1 (std_max 0 Sw) in
    let Sg := std_min 1 (std_max 0 Sg) in
    let Sw_ow := Sg + std_max Swco Sw in
    let So_go := 1 + Sw_ow in
    (mkUpdate Sw (1 - Sg) Sw_ow,
     mkUpdate (1 - Sg) So_go (1 - Sg)).

End Law.
End EclDefaultMaterial.

(** ** RegularizedBrooksCoreyParams

    The base class [BrooksCoreyParams] and the law [BrooksCorey] are
    interfaces here: [Base] is the base-class subobject and
    [twoPhaseSatPcnw] the unregularized capillary pressure curve, which
    reads the base-class part of the object. *)
Module RegularizedBrooksCoreyParams.

Record t (Base : Type) : Type := mk {
  base : Base;
  finalized_ : bool;          (* a member of the checked build only *)
  pcnwLowSw_ : Scalar;
  pcnwLow_ : Scalar;
  pcnwSlopeLow_ : Scalar;
  pcnwHigh_ : Scalar;
  pcnwSlopeHigh_ : Scalar
}.

Arguments mk {Base}.

(** The finite-difference step, [1e-7]. *)
Definition eps : Scalar := 1 # 10000000.

Section Curve.
Variable Base : Type.
Variable baseFinalize : Base -> Base.      (* BrooksCoreyParams::finalize *)
Variable twoPhaseSatPcnw : Base -> Scalar -> Scalar.
Variable NDEBUG : bool.

(** The two curve values and the divisor [dPcnw_dSw_] works out. *)
Definition dPcnw_dSw_parts (p : t Base) (Sw : Scalar) : Scalar * Scalar * Scalar :=
  let delta := 0 in
  let '(pc2, delta) :=
    if Qltb (Sw + eps) 1
    then (twoPhaseSatPcnw (base p) (Sw + eps), delta + eps)
    else (twoPhaseSatPcnw (base p) Sw, delta) in
  let '(pc1, delta) :=
    if Qltb 0 (Sw - eps)
    then (twoPhaseSatPcnw (base p) (Sw - eps), delta + eps)
    else (twoPhaseSatPcnw (base p) Sw, delta) in
  (pc2, pc1, delta).

Definition dPcnw_dSw_ (p : t Base) (Sw : Scalar) : Scalar :=
  let '(pc2, pc1, delta) := dPcnw_dSw_parts p Sw in
  (pc2 - pc1) / delta.

(** The default constructor leaves the four dependent members
    uninitialised; [u1] to [u4] stand for whatever they hold. *)
Definition default (b : Base) (u1 u2 u3 u4 : Scalar) : t Base :=
  mk b false (1 # 100) u1 u2 u3 u4.

Definition finalize (p : t Base) : t Base :=
  let p := mk (baseFinalize (base p)) (finalized_ p) (pcnwLowSw_ p)
              (pcnwLow_ p) (pcnwSlopeLow_ p) (pcnwHigh_ p) (pcnwSlopeHigh_ p) in
  let low := twoPhaseSatPcnw (base p) (pcnwLowSw_ p) in
  let slopeLow := dPcnw_dSw_ p (pcnwLowSw_ p) in
  let high := twoPhaseSatPcnw (base p) 1 in
  let slopeHigh := dPcnw_dSw_ p 1 in
  mk (base p) (if NDEBUG then finalized_ p else true) (pcnwLowSw_ p)
     low slopeLow high slopeHigh.

(** The constructor from an entry pressure and a lambda, [b] being the
    base-class subobject built from them. *)
Definition make (b : Base) (u1 u2 u3 u4 : Scalar) : t Base :=
  finalize (mk b false (1 # 100) u1 u2 u3 u4).

Definition assertFinalized_ (p : t Base) : outcome unit :=
  assert NDEBUG (finalized_ p).

Definition pcnwLowSw (p : t Base) : outcome Scalar :=
  assertFinalized_ p ;; Ok (pcnwLowSw_ p).
Definition pcnwLow (p : t Base) : outcome Scalar :=
  assertFinalized_ p ;; Ok (pcnwLow_ p).
Definition pcnwSlopeLow (p : t Base) : outcome Scalar :=
  assertFinalized_ p ;; Ok (pcnwSlopeLow_ p).
Definition pcnwHigh (p : t Base) : outcome Scalar :=
  assertFinalized_ p ;; Ok (pcnwHigh_ p).
Definition pcnwSlopeHigh (p : t Base) : outcome Scalar :=
  assertFinalized_ p ;; Ok (pcnwSlopeHigh_ p).

Definition setPcLowSw (p : t Base) (value : Scalar) : t Base :=
  mk (base p) (finalized_ p) value
     (pcnwLow_ p) (pcnwSlopeLow_ p) (pcnwHigh_ p) (pcnwSlopeHigh_ p).

End Curve.
End RegularizedBrooksCoreyParams.

(** ** EclTwoPhaseMaterialParams *)
Module EclTwoPhaseMaterialParams.

Inductive EclTwoPhaseApproach : Type :=
| EclTwoPhaseGasOil
| EclTwoPhaseOilWater
| EclTwoPhaseGasWater.

(** A [std::shared_ptr] is [None] when null.  [approach_] is not
    initialised by the constructor. *)
Record t (GasOilParams OilWaterParams : Type) : Type := mk {
  finalized_ : bool;          (* a member of the checked build only *)
  approach_ : EclTwoPhaseApproach;
  gasOilParams_ : option GasOilParams;
  oilWaterParams_ : option OilWaterParams
}.

Arguments mk {GasOilParams OilWaterParams}.

Section Members.
Variables GasOilParams OilWaterParams : Type.
Variable NDEBUG : bool.

Abbreviation T := (t GasOilParams OilWaterParams).

(** The default constructor; [u] stands for whatever [approach_] holds. *)
Definition default (u : EclTwoPhaseApproach) : T := mk false u None None.

Definition finalize (p : T) : T :=
  mk (if NDEBUG then finalized_ p else true) (approach_ p)
     (gasOilParams_ p) (oilWaterParams_ p).

Definition setApproach (p : T) (newApproach : EclTwoPhaseApproach) : T :=
  mk (finalized_ p) newApproach (gasOilParams_ p) (oilWaterParams_ p).

Definition approach (p : T) : EclTwoPhaseApproach := approach_ p.

Definition setGasOilParams (p : T) (val : option GasOilParams) : T :=
  mk (finalized_ p) (approach_ p) val (oilWaterParams_ p).

Definition setOilWaterParams (p : T) (val : option OilWaterParams) : T :=
  mk (finalized_ p) (approach_ p) (gasOilParams_ p) val.

(** The accessors return the pointee; [Ok None] stands for the
    dereference of a null pointer, which C++ leaves undefined. *)
Definition gasOilParams (p : T) : outcome (option GasOilParams) :=
  assert NDEBUG (finalized_ p) ;; Ok (gasOilParams_ p).

Definition oilWaterParams (p : T) : outcome (option OilWaterParams) :=
  assert NDEBUG (finalized_ p) ;; Ok (oilWaterParams_ p).

(** The member calls that change the object, and a sequence of them made
    one after the other. *)
Inductive call : Type :=
| Finalize
| SetApproach (newApproach : EclTwoPhaseApproach)
| SetGasOilParams (val : option GasOilParams)
| SetOilWaterParams (val : option OilWaterParams).

Definition perform (p : T) (c : call) : T :=
  match c with
  | Finalize => finalize p
  | SetApproach a => setApproach p a
  | SetGasOilParams val => setGasOilParams p val
  | SetOilWaterParams val => setOilWaterParams p val
  end.

Definition performAll (p : T) (cs : list call) : T := fold_left perform cs p.

(** What a sequence of calls says by itself: whether [finalize()] is among
    them, and the argument of the last call of each setter ([d] if there is
    none). *)
Definition finalizeCalled (cs : list call) : bool :=
  existsb (fun c => match c with Finalize => true | _ => false end) cs.

Definition lastApproach (cs : list call) (d : EclTwoPhaseApproach)
  : EclTwoPhaseApproach :=
  fold_left (fun a c => match c with SetApproach a' => a' | _ => a end) cs d.

Definition lastGasOil (cs : list call) (d : option GasOilParams)
  : option GasOilParams :=
  fold_left (fun g c => match c with SetGasOilParams g' => g' | _ => g end) cs d.

Definition lastOilWater (cs : list call) (d : option OilWaterParams)
  : option OilWaterParams :=
  fold_left (fun o c => match c with SetOilWaterParams o' => o' | _ => o end) cs d.

End Members.

Arguments Finalize {GasOilParams OilWaterParams}.
Arguments SetApproach {GasOilParams OilWaterParams}.
Arguments SetGasOilParams {GasOilParams OilWaterParams}.
Arguments SetOilWaterParams {GasOilParams OilWaterParams}.

End EclTwoPhaseMaterialParams.

(** ** Example instances

    A three-phase setting with phase indices water = 0, oil = 1, gas = 2,
    two-phase laws that are linear in the saturation, and a straight
    capillary pressure curve. *)
Definition exampleTraits : EclDefaultMaterial.Traits :=
  EclDefaultMaterial.mkTraits 0 1 2.

Definition linearLaw : EclDefaultMaterial.TwoPhaseSatLaw unit :=
  EclDefaultMaterial.mkLaw (fun _ S => 1 - S) (fun _ S => S) (fun _ S => 1 - S).

Definition exampleParams (inconsistent : bool) : EclDefaultMaterial.Params unit unit :=
  EclDefaultMaterial.mkParams (1 # 10) inconsistent tt tt.

Definition exampleState : EclDefaultMaterial.FluidState :=
  fun phaseIdx =>
    if (phaseIdx =? 0)%Z then 3 # 10
    else if (phaseIdx =? 1)%Z then 5 # 10
    else 2 # 10.

Definition straightCurve (_ : unit) (Sw : Scalar) : Scalar := 5 - 3 * Sw.

(** * Properties *)

(** ** Scalars and truncation *)

Lemma Qltb_lt (a b : Scalar) : Qltb a b = true <-> a < b.
Proof.
  unfold Qltb. rewrite negb_true_iff. split; intro H.
  - apply Qnot_le_lt. intro Hle. apply Qle_bool_iff in Hle. congruence.
  - destruct (Qle_bool b a) eqn:E; [|reflexivity].
    apply Qle_bool_iff in E. lra.
Qed.

Lemma Qltb_ge (a b : Scalar) : Qltb a b = false <-> b <= a.
Proof.
  unfold Qltb. rewrite negb_false_iff. apply Qle_bool_iff.
Qed.

Lemma Qle_bool_gt (a b : Scalar) : Qle_bool a b = false <-> b < a.
Proof.
  rewrite <- Qltb_lt. unfold Qltb. now rewrite negb_true_iff.
Qed.

Lemma inject_Z_le_iff (k : Z) (a : Scalar) :
  inject_Z k <= a <-> (k * Z.pos (Qden a) <= Qnum a)%Z.
Proof. unfold Qle; simpl. now rewrite Z.mul_1_r. Qed.

Lemma inject_Z_gt_iff (k : Z) (a : Scalar) :
  a < inject_Z k <-> (Qnum a < k * Z.pos (Qden a))%Z.
Proof. unfold Qlt; simpl. now rewrite Z.mul_1_r. Qed.

Lemma static_cast_int_lower (k : Z) (a : Scalar) :
  (0 <= k)%Z -> inject_Z k <= a -> (k <= static_cast_int a)%Z.
Proof.
  intros Hk Ha. apply inject_Z_le_iff in Ha. unfold static_cast_int.
  rewrite Z.quot_div_nonneg by nia.
  apply Z.div_le_lower_bound; lia.
Qed.

Lemma static_cast_int_upper (k : Z) (a : Scalar) :
  (0 <= k)%Z -> a < inject_Z (k + 1) -> (static_cast_int a <= k)%Z.
Proof.
  intros Hk Ha. apply inject_Z_gt_iff in Ha. unfold static_cast_int.
  destruct (Z.le_gt_cases 0 (Qnum a)) as [Hn|Hn].
  - rewrite Z.quot_div_nonneg by lia.
    apply Z.lt_succ_r. apply Z.div_lt_upper_bound; lia.
  - pose proof (Z.quot_opp_l (- Qnum a) (Z.pos (Qden a)) ltac:(lia)) as Ho.
    rewrite Z.opp_involutive in Ho.
    pose proof (Z.quot_pos (- Qnum a) (Z.pos (Qden a)) ltac:(lia) ltac:(lia)).
    lia.
Qed.

Lemma static_cast_int_inject (k : Z) (a : Scalar) :
  a == inject_Z k -> static_cast_int a = k.
Proof.
  intro Ha. unfold Qeq in Ha; simpl in Ha. rewrite Z.mul_1_r in Ha.
  unfold static_cast_int. rewrite Ha. apply Z.quot_mul. lia.
Qed.

Lemma inject_Z_pred (k : Z) : inject_Z (k - 1) == inject_Z k - 1.
Proof. unfold Z.sub. rewrite inject_Z_plus, inject_Z_opp. reflexivity. Qed.

Lemma clampIdx_range (n : Z) (a : Scalar) :
  (2 <= n)%Z -> (0 <= clampIdx n a <= n - 2)%Z.
Proof. unfold clampIdx. lia. Qed.

Lemma clampIdx_inject (n k : Z) (a : Scalar) :
  (2 <= n)%Z -> (0 <= k)%Z -> a == inject_Z k -> clampIdx n a = Z.min (n - 2) k.
Proof.
  intros Hn Hk Ha. unfold clampIdx. rewrite (static_cast_int_inject Ha). lia.
Qed.

Lemma clampIdx_below (n : Z) (a : Scalar) :
  (2 <= n)%Z -> a < 0 -> clampIdx n a = 0%Z.
Proof.
  intros Hn Ha. unfold clampIdx.
  assert (static_cast_int a <= 0)%Z.
  { apply static_cast_int_upper; [lia|].
    apply Qlt_trans with 0; [assumption | reflexivity]. }
  lia.
Qed.

Lemma clampIdx_above (n : Z) (a : Scalar) :
  (2 <= n)%Z -> inject_Z (n - 1) <= a -> clampIdx n a = (n - 2)%Z.
Proof.
  intros Hn Ha. unfold clampIdx.
  assert (n - 1 <= static_cast_int a)%Z.
  { apply static_cast_int_lower; [lia|assumption]. }
  lia.
Qed.

Lemma clampIdx_inside (n k : Z) (a : Scalar) :
  (0 <= k <= n - 2)%Z -> inject_Z k <= a -> a < inject_Z (k + 1) ->
  clampIdx n a = k.
Proof.
  intros Hk Hlo Hhi. unfold clampIdx.
  pose proof (static_cast_int_lower (k := k) ltac:(lia) Hlo).
  pose proof (static_cast_int_upper (k := k) ltac:(lia) Hhi).
  lia.
Qed.

(** ** Interval positions on an ascending sequence *)

Section Fraction.
Variables a b : Scalar.
Hypothesis Hab : a < b.

Lemma frac_le (x x' : Scalar) : x <= x' -> (x - a) / (b - a) <= (x' - a) / (b - a).
Proof.
  intro H. unfold Qdiv. apply Qmult_le_r.
  - apply Qinv_lt_0_compat. lra.
  - lra.
Qed.

Lemma frac_lt (x x' : Scalar) : x < x' -> (x - a) / (b - a) < (x' - a) / (b - a).
Proof.
  intro H. unfold Qdiv. apply Qmult_lt_r.
  - apply Qinv_lt_0_compat. lra.
  - lra.
Qed.

Lemma frac_lo : (a - a) / (b - a) == 0.
Proof. field. lra. Qed.

Lemma frac_hi : (b - a) / (b - a) == 1.
Proof. field. lra. Qed.
End Fraction.

Lemma ascending_get (l : list Scalar) (i j : Z) :
  ascending l -> (0 <= i < j)%Z -> (j < Vec.size l)%Z ->
  Vec.get 0 l i < Vec.get 0 l j.
Proof.
  intros Hasc Hij Hj. unfold Vec.get, Vec.size in *. apply Hasc. lia.
Qed.

Lemma ascending_get_le (l : list Scalar) (i j : Z) :
  ascending l -> (0 <= i <= j)%Z -> (j < Vec.size l)%Z ->
  Vec.get 0 l i <= Vec.get 0 l j.
Proof.
  intros Hasc Hij Hj. destruct (Z.eq_dec i j) as [->|Hne].
  - apply Qle_refl.
  - apply Qlt_le_weak. apply ascending_get; auto; lia.
Qed.

Lemma ascending_get_inv (l : list Scalar) (i j : Z) :
  ascending l -> (0 <= i < Vec.size l)%Z -> (0 <= j < Vec.size l)%Z ->
  Vec.get 0 l i <= Vec.get 0 l j -> (i <= j)%Z.
Proof.
  intros Hasc Hi Hj Hle. destruct (Z.le_gt_cases i j) as [|Hgt]; [assumption|].
  pose proof (@ascending_get l j i Hasc ltac:(lia) ltac:(lia)). lra.
Qed.

Section Interp.
Variable l : list Scalar.
Hypothesis Hasc : ascending l.

Lemma interval_lt (s : Z) :
  (0 <= s <= Vec.size l - 2)%Z -> Vec.get 0 l s < Vec.get 0 l (s + 1).
Proof. intro Hs. apply ascending_get; auto; lia. Qed.

Lemma interp_le (s : Z) (x x' : Scalar) :
  (0 <= s <= Vec.size l - 2)%Z -> x <= x' -> interp l s x <= interp l s x'.
Proof.
  intros Hs Hx. unfold interp.
  pose proof (frac_le (interval_lt Hs) Hx). lra.
Qed.

Lemma interp_lt (s : Z) (x x' : Scalar) :
  (0 <= s <= Vec.size l - 2)%Z -> x < x' -> interp l s x < interp l s x'.
Proof.
  intros Hs Hx. unfold interp.
  pose proof (frac_lt (interval_lt Hs) Hx). lra.
Qed.

Lemma interp_lo (s : Z) :
  (0 <= s <= Vec.size l - 2)%Z -> interp l s (Vec.get 0 l s) == inject_Z s.
Proof.
  intro Hs. unfold interp. rewrite (frac_lo (interval_lt Hs)). ring.
Qed.

Lemma interp_hi (s : Z) :
  (0 <= s <= Vec.size l - 2)%Z ->
  interp l s (Vec.get 0 l (s + 1)) == inject_Z (s + 1).
Proof.
  intro Hs. unfold interp. rewrite (frac_hi (interval_lt Hs)).
  rewrite inject_Z_plus. reflexivity.
Qed.

(** The position of a sample is its index, whichever of the two
    intervals that end in it was chosen. *)
Lemma interp_node (s k : Z) :
  (0 <= k < Vec.size l)%Z -> bracket l s (Vec.get 0 l k) ->
  interp l s (Vec.get 0 l k) == inject_Z k.
Proof.
  intros Hk (Hs & Hlo & Hhi).
  assert (s <= k)%Z as Hsk.
  { destruct Hlo as [->|Hlo]; [lia|].
    apply (ascending_get_inv Hasc); auto; lia. }
  assert (k <= s + 1)%Z as Hks.
  { destruct Hhi as [->|Hhi]; [lia|].
    apply (ascending_get_inv Hasc); auto; lia. }
  assert (k = s \/ k = s + 1)%Z as [->| ->] by lia.
  - now apply interp_lo.
  - now apply interp_hi.
Qed.

(** Interval positions are non-decreasing in the coordinate. *)
Lemma interp_mono (s s' : Z) (x x' : Scalar) :
  bracket l s x -> bracket l s' x' -> x <= x' ->
  interp l s x <= interp l s' x'.
Proof.
  intros (Hs & Hlo & Hhi) (Hs' & Hlo' & Hhi') Hx.
  destruct (Z.lt_trichotomy s s') as [Hlt | [<- | Hgt]].
  - (* x is in an earlier interval than x' *)
    destruct Hhi as [->|Hhi]; [lia|].
    destruct Hlo' as [->|Hlo']; [lia|].
    apply Qle_trans with (inject_Z (s + 1)).
    { rewrite <- (interp_hi Hs). now apply interp_le. }
    apply Qle_trans with (inject_Z s').
    { rewrite <- Zle_Qle. lia. }
    rewrite <- (interp_lo Hs'). now apply interp_le.
  - now apply interp_le.
  - (* only possible when both coordinates are the sample between
       two adjacent intervals *)
    destruct Hlo as [->|Hlo]; [lia|].
    destruct Hhi' as [->|Hhi']; [lia|].
    assert (Vec.get 0 l s <= Vec.get 0 l (s' + 1)) as Hle by lra.
    apply (ascending_get_inv Hasc) in Hle; [|lia|lia].
    assert (s = s' + 1)%Z as -> by lia.
    apply Qle_trans with (inject_Z (s' + 1)).
    { rewrite <- (interp_lo Hs). apply interp_le; [assumption|lra]. }
    rewrite <- (interp_hi Hs'). apply interp_le; [assumption|lra].
Qed.
End Interp.

(** ** The bisection loops *)

Lemma pivot_between (lo up : Z) :
  (0 <= lo)%Z -> (lo + 1 < up)%Z -> (lo < (lo + up) ÷ 2 < up)%Z.
Proof.
  intros Hlo Hup. rewrite Z.quot_div_nonneg by lia.
  pose proof (Z.div_mod (lo + up) 2 ltac:(lia)).
  pose proof (Z.mod_pos_bound (lo + up) 2 ltac:(lia)).
  lia.
Qed.

Lemma xToI_bisect_spec (xPos : list Scalar) (x : Scalar) :
  forall (fuel : nat) (seg up : Z),
    (0 <= seg < up)%Z -> (Z.to_nat (up - seg) <= fuel)%nat ->
    Vec.get 0 xPos seg <= x -> x < Vec.get 0 xPos up ->
    let r := xToI_bisect fuel xPos x seg up in
    (seg <= fst r)%Z /\ (fst r + 1 <= up)%Z /\
    Vec.get 0 xPos (fst r) <= x /\ x < Vec.get 0 xPos (fst r + 1).
Proof.
  induction fuel as [|fuel IH]; intros seg up Hsu Hfuel Hlo Hhi; [lia|].
  cbn [xToI_bisect].
  destruct (seg + 1 <? up)%Z eqn:Hcond.
  - apply Z.ltb_lt in Hcond.
    assert (seg < (seg + up) ÷ 2 < up)%Z as Hp by (apply pivot_between; lia).
    cbv zeta.
    destruct (Qltb x (Vec.get 0 xPos ((seg + up) ÷ 2))) eqn:Hcmp.
    + apply Qltb_lt in Hcmp.
      destruct (IH seg ((seg + up) ÷ 2)%Z) as (H1 & H2 & H3 & H4);
        try assumption; try lia.
      repeat split; try assumption; lia.
    + apply Qltb_ge in Hcmp.
      destruct (IH ((seg + up) ÷ 2)%Z up) as (H1 & H2 & H3 & H4);
        try assumption; try lia.
      repeat split; try assumption; lia.
  - apply Z.ltb_ge in Hcond. cbn [fst snd].
    assert (up = seg + 1)%Z as -> by lia.
    repeat split; try assumption; lia.
Qed.

(** With fuel [upperIdx - segmentIdx] the loop of [xToI] stops because its
    condition fails. *)
Lemma xToI_bisect_exit (xPos : list Scalar) (x : Scalar) :
  forall (fuel : nat) (seg up : Z),
    (0 <= seg)%Z -> (Z.to_nat (up - seg) <= fuel)%nat ->
    let r := xToI_bisect fuel xPos x seg up in
    (fst r + 1 <? snd r)%Z = false.
Proof.
  induction fuel as [|fuel IH]; intros seg up Hseg Hfuel; cbn [xToI_bisect].
  - cbn [fst snd]. apply Z.ltb_ge. lia.
  - destruct (seg + 1 <? up)%Z eqn:Hcond; [|exact Hcond].
    apply Z.ltb_lt in Hcond.
    pose proof (pivot_between Hseg Hcond) as Hp.
    cbv zeta. destruct (Qltb x _); apply IH; lia.
Qed.

Lemma yToJ_bisect_spec (col : list SamplePoint) (y : Scalar) :
  forall (fuel : nat) (lo up : Z),
    (0 <= lo < up)%Z -> (Z.to_nat (up - lo) <= fuel)%nat ->
    let r := yToJ_bisect fuel col y lo up ((lo + up) ÷ 2)%Z in
    (lo <= fst r)%Z /\ (fst r + 1 <= up)%Z /\
    (fst r = lo \/ yOf col (fst r) <= y) /\
    ((fst r + 1)%Z = up \/ y < yOf col (fst r + 1)).
Proof.
  induction fuel as [|fuel IH]; intros lo up Hlu Hfuel; [lia|].
  cbn [yToJ_bisect].
  destruct (lo + 1 <? up)%Z eqn:Hcond.
  - apply Z.ltb_lt in Hcond.
    assert (lo < (lo + up) ÷ 2 < up)%Z as Hp by (apply pivot_between; lia).
    destruct (Qltb y (yOf col ((lo + up) ÷ 2)%Z)) eqn:Hcmp.
    + apply Qltb_lt in Hcmp.
      destruct (IH lo ((lo + up) ÷ 2)%Z) as (H1 & H2 & H3 & H4); try lia.
      repeat split; try assumption; try lia.
      destruct H4 as [H4|H4]; [right; now rewrite H4 | now right].
    + apply Qltb_ge in Hcmp.
      destruct (IH ((lo + up) ÷ 2)%Z up) as (H1 & H2 & H3 & H4); try lia.
      repeat split; try assumption; try lia.
      destruct H3 as [H3|H3]; [right; now rewrite H3 | now right].
  - apply Z.ltb_ge in Hcond. cbn [fst snd].
    repeat split; try lia; left; lia.
Qed.

(** Likewise for the loop of [yToJ]. *)
Lemma yToJ_bisect_exit (col : list SamplePoint) (y : Scalar) :
  forall (fuel : nat) (lo up : Z),
    (0 <= lo)%Z -> (Z.to_nat (up - lo) <= fuel)%nat ->
    let r := yToJ_bisect fuel col y lo up ((lo + up) ÷ 2)%Z in
    (fst r + 1 <? snd r)%Z = false.
Proof.
  induction fuel as [|fuel IH]; intros lo up Hlo Hfuel; cbn [yToJ_bisect].
  - cbn [fst snd]. apply Z.ltb_ge. lia.
  - destruct (lo + 1 <? up)%Z eqn:Hcond; [|exact Hcond].
    apply Z.ltb_lt in Hcond.
    pose proof (pivot_between Hlo Hcond) as Hp.
    destruct (Qltb y _); apply IH; lia.
Qed.

(** ** Vectors *)

Lemma front_get (A : Type) (d : A) (v : list A) : Vec.front d v = Vec.get d v 0.
Proof. destruct v; reflexivity. Qed.

Lemma back_get (A : Type) (d : A) (v : list A) :
  v <> [] -> Vec.back d v = Vec.get d v (Vec.size v - 1).
Proof.
  intro Hne. unfold Vec.back, Vec.get, Vec.size.
  replace (Z.to_nat (Z.of_nat (length v) - 1)) with (length v - 1)%nat by lia.
  induction v as [|a v IH]; [congruence|].
  destruct v as [|b v]; [reflexivity|].
  specialize (IH ltac:(congruence)). cbn [length] in *.
  replace (S (S (length v)) - 1)%nat with (S (length v)) by lia.
  replace (S (length v) - 1)%nat with (length v) in IH by lia.
  exact IH.
Qed.

Lemma size_nonempty (A : Type) (v : list A) : (1 <= Vec.size v)%Z -> v <> [].
Proof. destruct v; [cbn; lia | congruence]. Qed.

Lemma at_ok (A : Type) (d : A) (v : list A) (i : Z) :
  (0 <= i < Vec.size v)%Z -> Vec.at_ d v i = Ok (Vec.get d v i).
Proof.
  intro Hi. unfold Vec.at_.
  destruct (Z.leb_spec 0 i); [|lia]. destruct (Z.ltb_spec i (Vec.size v)); [|lia].
  reflexivity.
Qed.

Lemma get_map_get1 (col : list SamplePoint) (j : Z) :
  Vec.get 0 (map get1 col) j = get1 (Vec.get noSample col j).
Proof. unfold Vec.get. exact (map_nth get1 col noSample (Z.to_nat j)). Qed.

Lemma size_map_get1 (col : list SamplePoint) :
  Vec.size (map get1 col) = Vec.size col.
Proof. unfold Vec.size. now rewrite length_map. Qed.

Lemma assert_pass (ndebug b : bool) : b = true -> assert ndebug b = Ok tt.
Proof. intros ->. now destruct ndebug. Qed.

(** ** The mapping routines return an interval position *)

Lemma xToI_ok (ndebug : bool) (t : Table) (x : Scalar) (extrapolate : bool) :
  ascending (xPos_ t) -> (2 <= numX t)%Z ->
  extrapolate = true \/ (xMin t <= x /\ x <= xMax t) ->
  let s := xSegment (xPos_ t) x in
  xToI ndebug t x extrapolate = Ok (xPosition t x) /\
  bracket (xPos_ t) s x /\
  (x <= xAt t 1 -> s = 0%Z) /\
  (xAt t 1 < x -> xAt t (numX t - 2) <= x -> s = (numX t - 2)%Z) /\
  (xAt t 1 < x -> x < xAt t (numX t - 2) ->
   (1 <= s <= numX t - 3)%Z /\ xAt t s <= x /\ x < xAt t (s + 1)).
Proof.
  intros Hasc Hn Hpre. unfold xToI, xPosition, xSegment, xAt, numX in *.
  set (l := xPos_ t) in *. set (n := Vec.size l) in *.
  rewrite assert_pass.
  2:{ destruct Hpre as [->|[H1 H2]]; [reflexivity|].
      apply Qle_bool_iff in H1, H2. rewrite H1, H2. apply orb_true_r. }
  rewrite assert_pass by (apply Z.leb_le; lia).
  cbn [bind].
  destruct (Qle_bool x (Vec.get 0 l 1)) eqn:E1.
  - apply Qle_bool_iff in E1. cbn [bind].
    split; [reflexivity|]. split; [|repeat split; intros; try lra].
    repeat split; try lia; auto.
  - apply Qle_bool_gt in E1.
    destruct (Qle_bool (Vec.get 0 l (n - 2)) x) eqn:E2.
    + apply Qle_bool_iff in E2. cbn [bind].
      split; [reflexivity|]. split; [|repeat split; intros; try lra].
      repeat split; try lia; auto.
    + apply Qle_bool_gt in E2.
      assert (1 < n - 2)%Z as Hn4.
      { assert (1 <= n - 2)%Z.
        { apply (ascending_get_inv (l := l)); auto; try (fold n; lia). lra. }
        destruct (Z.eq_dec (n - 2) 1) as [Heq|]; [|lia].
        rewrite Heq in E2. lra. }
      destruct (@xToI_bisect_spec l x (Z.to_nat (n - 2 - 1)) 1 (n - 2))
        as (H1 & H2 & H3 & H4); try lia; try lra.
      set (s := fst (xToI_bisect (Z.to_nat (n - 2 - 1)) l x 1 (n - 2))) in *.
      rewrite assert_pass by (now apply Qle_bool_iff).
      rewrite assert_pass by (apply Qle_bool_iff; lra).
      cbn [bind]. split; [reflexivity|]. split.
      * repeat split; try lia; right; lra.
      * repeat split; intros; try lra; lia.
Qed.

Lemma yToJ_ok (ndebug : bool) (t : Table) (i : Z) (y : Scalar) (extrapolate : bool) :
  length (samples_ t) = length (xPos_ t) ->
  (0 <= i < numX t)%Z -> (2 <= Vec.size (column t i))%Z ->
  extrapolate = true \/
    (yOf (column t i) 0 <= y /\ y <= yOf (column t i) (Vec.size (column t i) - 1)) ->
  let s := ySegment (column t i) y in
  yToJ ndebug t i y extrapolate = Ok (yPosition t i y) /\
  bracket (map get1 (column t i)) s y /\
  (s = (Vec.size (column t i) - 2)%Z \/ y < yOf (column t i) (s + 1)).
Proof.
  intros Hlen Hi Hm Hpre. unfold yToJ, yPosition, ySegment.
  assert (0 <= i < Vec.size (samples_ t))%Z as Hi'.
  { unfold numX, Vec.size in *. lia. }
  rewrite assert_pass.
  2:{ apply andb_true_iff. split; [apply Z.leb_le | apply Z.ltb_lt]; lia. }
  cbn [bind]. rewrite (at_ok [] _ Hi'). fold (column t i). cbn [bind].
  set (col := column t i) in *. set (m := Vec.size col) in *.
  assert (col <> []) as Hne by (apply size_nonempty; fold m; lia).
  assert (assertM ndebug
            (if extrapolate then Ok true
             else lo <- yMin t i;;
                  (if Qle_bool lo y then hi <- yMax t i;; Ok (Qle_bool y hi)
                   else Ok false)) = Ok tt) as ->.
  { unfold assertM. destruct ndebug; [reflexivity|].
    destruct Hpre as [->|[H1 H2]]; [reflexivity|].
    destruct extrapolate; [reflexivity|].
    unfold yMin, yMax. rewrite (at_ok [] _ Hi'). fold (column t i). fold col.
    cbn [bind]. rewrite front_get, (back_get _ Hne). fold m.
    apply Qle_bool_iff in H1, H2. now rewrite H1, H2. }
  cbn [bind].
  destruct (@yToJ_bisect_spec col y (Z.to_nat (m - 1)) 0 (m - 1))
    as (H1 & H2 & H3 & H4); try lia.
  set (s := fst (yToJ_bisect (Z.to_nat (m - 1)) col y 0 (m - 1) ((0 + (m - 1)) ÷ 2))) in *.
  assert (s = 0%Z \/ yOf col s <= y) as Hlo.
  { destruct H3 as [H3|H3]; [now left | now right]. }
  assert (s = (m - 2)%Z \/ y < yOf col (s + 1)) as Hhi.
  { destruct H4 as [H4|H4]; [left; lia | now right]. }
  rewrite assert_pass.
  2:{ destruct Hlo as [Hs|Hs].
      - destruct Hpre as [->|[Hy _]].
        + rewrite Hs. apply orb_true_r.
        + rewrite Hs. apply Qle_bool_iff in Hy. rewrite Hy. reflexivity.
      - apply Qle_bool_iff in Hs. rewrite Hs. reflexivity. }
  rewrite assert_pass.
  2:{ destruct Hhi as [Hs|Hs].
      - destruct Hpre as [->|[_ Hy]].
        + rewrite Hs, Z.eqb_refl. apply orb_true_r.
        + rewrite Hs. replace (m - 2 + 1)%Z with (m - 1)%Z by lia.
          apply Qle_bool_iff in Hy. rewrite Hy. reflexivity.
      - assert (Qle_bool y (yOf col (s + 1)) = true) as ->
          by (apply Qle_bool_iff; lra).
        reflexivity. }
  cbn [bind]. split.
  { unfold interp. rewrite !get_map_get1. reflexivity. }
  split; [|exact Hhi].
  unfold bracket. rewrite size_map_get1, !get_map_get1. fold m.
  repeat split; try lia; auto.
  destruct Hhi as [Hs|Hs]; [now left | right; lra].
Qed.

(** ** Ascending sequences under insertion at either end *)

Lemma ascending_nil : ascending [].
Proof. intros i j Hij. cbn in Hij. lia. Qed.

Lemma ascending_cons (x : Scalar) (l : list Scalar) :
  ascending l -> (l = [] \/ x < Vec.front 0 l) -> ascending (x :: l).
Proof.
  intros Hasc Hx i j Hij. cbn [length] in Hij.
  destruct Hx as [->|Hx]; [cbn in Hij; lia|].
  rewrite front_get in Hx. unfold Vec.get in Hx. cbn [Z.to_nat] in Hx.
  destruct j as [|j]; [lia|]. cbn [nth].
  destruct i as [|i].
  - cbn [nth]. destruct j as [|j]; [assumption|].
    apply Qlt_trans with (nth 0 l 0); [assumption|]. apply Hasc. lia.
  - cbn [nth]. apply Hasc. lia.
Qed.

Lemma ascending_snoc (x : Scalar) (l : list Scalar) :
  ascending l -> (l = [] \/ Vec.back 0 l < x) -> ascending (l ++ [x]).
Proof.
  intros Hasc Hx i j Hij. rewrite length_app in Hij. cbn [length] in Hij.
  destruct Hx as [->|Hx]; [cbn in Hij; lia|].
  assert (l <> []) as Hne by (destruct l; [cbn in Hij; lia | congruence]).
  rewrite (back_get _ Hne) in Hx. unfold Vec.get, Vec.size in Hx.
  replace (Z.to_nat (Z.of_nat (length l) - 1)) with (length l - 1)%nat in Hx by lia.
  rewrite (app_nth1 l [x] 0 (n := i)) by lia.
  destruct (Nat.eq_dec j (length l)) as [->|Hj].
  - rewrite nth_middle.
    destruct (Nat.eq_dec i (length l - 1)) as [->|Hi]; [assumption|].
    apply Qlt_trans with (nth (length l - 1) l 0); [|assumption].
    apply Hasc. lia.
  - rewrite (app_nth1 l [x] 0 (n := j)) by lia. apply Hasc. lia.
Qed.

Lemma ascending_app_l (l l' : list Scalar) : ascending (l ++ l') -> ascending l.
Proof.
  intros H i j Hij.
  specialize (H i j). rewrite length_app in H.
  rewrite !app_nth1 in H by lia. apply H. lia.
Qed.

Lemma ascending_tail (x : Scalar) (l : list Scalar) : ascending (x :: l) -> ascending l.
Proof. intros H i j Hij. apply (H (S i) (S j)). cbn [length]. lia. Qed.

Lemma back_map_get1 (col : list SamplePoint) :
  Vec.back 0 (map get1 col) = get1 (Vec.back noSample col).
Proof.
  unfold Vec.back. induction col as [|p col IH]; [reflexivity|].
  destruct col as [|q col]; [reflexivity|]. exact IH.
Qed.

Lemma front_map_get1 (col : list SamplePoint) :
  Vec.front 0 (map get1 col) = get1 (Vec.front noSample col).
Proof. destruct col; reflexivity. Qed.

Lemma nil_dec (A : Type) (v : list A) : {v = []} + {v <> []}.
Proof. destruct v; [now left | right; discriminate]. Qed.

Lemma empty_nil (A : Type) (v : list A) : Vec.empty v = true <-> v = [].
Proof. destruct v; cbn; split; congruence. Qed.

Lemma length_set (A : Type) (v : list A) (i : nat) (a : A) :
  length (Vec.set v i a) = length v.
Proof.
  revert i. induction v as [|b v IH]; intros [|i]; cbn; auto.
Qed.

Lemma In_set (A : Type) (v : list A) (i : nat) (a c : A) :
  In c (Vec.set v i a) -> c = a \/ In c v.
Proof.
  revert i. induction v as [|b v IH]; intros [|i]; cbn; try tauto.
  - intros [H|H]; auto.
  - intros [H|H]; auto. destruct (IH _ H); auto.
Qed.

Lemma nth_set (A : Type) (d : A) (v : list A) (i : nat) (a : A) :
  (i < length v)%nat -> nth i (Vec.set v i a) d = a.
Proof.
  revert i. induction v as [|b v IH]; intros [|i] Hi; cbn in *; try lia; auto.
  apply IH. lia.
Qed.

Lemma nth_set_other (A : Type) (d : A) (v : list A) (i j : nat) (a : A) :
  i <> j -> nth j (Vec.set v i a) d = nth j v d.
Proof.
  revert i j. induction v as [|b v IH]; intros [|i] [|j] Hij; cbn; auto.
  congruence.
Qed.

Lemma resize_grow (A : Type) (d : A) (v : list A) :
  Vec.resize d v (S (length v)) = v ++ [d].
Proof.
  unfold Vec.resize. rewrite firstn_all2 by lia.
  replace (S (length v) - length v)%nat with 1%nat by lia. reflexivity.
Qed.

(** ** The class invariant *)

Lemma invariant_empty : invariant emptyTable.
Proof.
  split; cbn; [reflexivity | apply ascending_nil | tauto].
Qed.

Lemma appendXPos_invariant (t t' : Table) (x : Scalar) (i : Z) :
  invariant t -> appendXPos t x = (Ok i, t') -> invariant t'.
Proof.
  intros [Hlen Hx Hy] Happ. unfold appendXPos in Happ.
  destruct (Vec.empty (xPos_ t) || Qltb (Vec.back 0 (xPos_ t)) x) eqn:E1.
  - injection Happ as _ <-.
    unfold Vec.push_back. rewrite length_app, Nat.add_comm. cbn [length Nat.add].
    rewrite <- Hlen, resize_grow.
    split; cbn [samples_ xPos_].
    + rewrite !length_app. cbn. lia.
    + apply ascending_snoc; [assumption|].
      apply orb_true_iff in E1. destruct E1 as [E1|E1].
      * left. now apply empty_nil.
      * right. now apply Qltb_lt.
    + intros col Hin. apply in_app_or in Hin. destruct Hin as [Hin|[<-|[]]].
      * now apply Hy.
      * apply ascending_nil.
  - destruct (Qltb x (Vec.front 0 (xPos_ t))) eqn:E2; [|discriminate].
    injection Happ as _ <-. unfold Vec.insert_begin.
    split; cbn [samples_ xPos_].
    + cbn. lia.
    + apply ascending_cons; [assumption|]. right. now apply Qltb_lt.
    + intros col [<-|Hin]; [apply ascending_nil | now apply Hy].
Qed.

Lemma column_In (t : Table) (i : Z) :
  (0 <= i < Vec.size (samples_ t))%Z -> In (column t i) (samples_ t).
Proof.
  intro Hi. unfold column, Vec.get, Vec.size in *. apply nth_In. lia.
Qed.

Lemma iToX_inv (ndebug : bool) (t : Table) (i : Z) (x : Scalar) :
  (assert ndebug ((0 <=? i)%Z && (i <? numX t)%Z) ;; iToX ndebug t i) = Ok x ->
  (0 <= i < numX t)%Z /\ x = xAt t i.
Proof.
  unfold iToX, Vec.at_, assert, numX, xAt. intro H.
  destruct ((0 <=? i)%Z && (i <? Vec.size (xPos_ t))%Z) eqn:E.
  - apply andb_true_iff in E. destruct E as [E1 E2].
    apply Z.leb_le in E1. apply Z.ltb_lt in E2.
    destruct ndebug; cbn in H; injection H as <-; split; auto.
  - destruct ndebug; cbn in H; discriminate.
Qed.

Lemma iToX_ok (ndebug : bool) (t : Table) (i : Z) :
  (0 <= i < numX t)%Z ->
  (assert ndebug ((0 <=? i)%Z && (i <? numX t)%Z) ;; iToX ndebug t i)
  = Ok (xAt t i).
Proof.
  intro Hi. unfold iToX.
  rewrite assert_pass
    by (apply andb_true_iff; split; [apply Z.leb_le | apply Z.ltb_lt]; lia).
  cbn [bind]. now apply at_ok.
Qed.

Lemma appendSamplePoint_invariant (ndebug : bool) (t t' : Table) (i k : Z)
    (y v : Scalar) :
  invariant t -> appendSamplePoint ndebug t i y v = (Ok k, t') -> invariant t'.
Proof.
  intros [Hlen Hx Hy] Happ. unfold appendSamplePoint in Happ.
  destruct (assert ndebug _ ;; iToX ndebug t i) as [x| |] eqn:Ex;
    try discriminate.
  assert (0 <= i < Vec.size (samples_ t))%Z as Hi.
  { apply iToX_inv in Ex. unfold numX, Vec.size in *. lia. }
  pose proof (Hy _ (column_In t Hi)) as Hcol.
  set (col := column t i) in *.
  destruct (Vec.empty col || Qltb (get1 (Vec.back noSample col)) y) eqn:E1.
  - injection Happ as _ <-. split; cbn [samples_ xPos_].
    + now rewrite length_set.
    + assumption.
    + intros c Hin. apply In_set in Hin. destruct Hin as [->|Hin]; [|now apply Hy].
      unfold Vec.push_back. rewrite map_app. cbn [map].
      apply ascending_snoc; [assumption|].
      apply orb_true_iff in E1. destruct E1 as [E1|E1].
      * left. apply empty_nil in E1. now rewrite E1.
      * right. rewrite back_map_get1. now apply Qltb_lt.
  - destruct (Qltb y (get1 (Vec.front noSample col))) eqn:E2; [|discriminate].
    injection Happ as _ <-. split; cbn [samples_ xPos_].
    + now rewrite length_set.
    + assumption.
    + intros c Hin. apply In_set in Hin. destruct Hin as [->|Hin]; [|now apply Hy].
      unfold Vec.insert_begin. cbn [map].
      apply ascending_cons; [assumption|]. right.
      rewrite front_map_get1. now apply Qltb_lt.
Qed.

Lemma reachable_invariant (t : Table) : reachable t -> invariant t.
Proof.
  induction 1 as [|t x i t' _ IH Happ|nd t i y v k t' _ IH Happ].
  - apply invariant_empty.
  - eapply appendXPos_invariant; eassumption.
  - eapply appendSamplePoint_invariant; eassumption.
Qed.

Lemma invariant_column (t : Table) (i : Z) :
  invariant t -> (0 <= i < numX t)%Z -> ascending (map get1 (column t i)).
Proof.
  intros [Hlen _ Hy] Hi. apply Hy, column_In.
  unfold numX, Vec.size in *. lia.
Qed.

(** ** Evaluation with extrapolation never fails on a query-ready table *)

Lemma numY_ok (t : Table) (i : Z) :
  length (samples_ t) = length (xPos_ t) -> (0 <= i < numX t)%Z ->
  numY t i = Ok (Vec.size (column t i)).
Proof.
  intros Hlen Hi. unfold numY. rewrite at_ok; [reflexivity|].
  unfold numX, Vec.size in *. lia.
Qed.

Lemma cellI_range (t : Table) (x : Scalar) :
  (2 <= numX t)%Z -> (0 <= cellI t x <= numX t - 2)%Z.
Proof. apply clampIdx_range. Qed.

Lemma domainCheck_extrapolate (ndebug : bool) (t : Table) (x y : Scalar) :
  domainCheck ndebug t x y true = Ok tt.
Proof. unfold domainCheck. now destruct ndebug. Qed.

Lemma eval_ok (ndebug : bool) (t : Table) (x y : Scalar) :
  invariant t -> query_ready t ->
  eval ndebug t x y true = Ok (bilinear t x y).
Proof.
  intros Hinv [Hn Hcols]. unfold eval.
  rewrite domainCheck_extrapolate. cbn [bind].
  destruct (@xToI_ok ndebug t x true (inv_x Hinv) Hn (or_introl eq_refl)) as [-> _].
  cbn [bind]. fold (cellI t x).
  pose proof (cellI_range t x Hn) as Hi.
  assert (0 <= cellI t x < numX t)%Z as Hi1 by lia.
  assert (0 <= cellI t x + 1 < numX t)%Z as Hi2 by lia.
  destruct (@yToJ_ok ndebug t (cellI t x) y true (inv_size Hinv)
              Hi1 (Hcols _ Hi1) (or_introl eq_refl)) as [-> _].
  destruct (@yToJ_ok ndebug t (cellI t x + 1) y true (inv_size Hinv)
              Hi2 (Hcols _ Hi2) (or_introl eq_refl)) as [-> _].
  cbn [bind].
  rewrite !numY_ok by (try apply (inv_size Hinv); lia).
  reflexivity.
Qed.

(** ** Which calls can throw NumericalIssue *)

Lemma no_issue_bind (A B : Type) (c : outcome A) (k : A -> outcome B) :
  no_issue c -> (forall a, no_issue (k a)) -> no_issue (bind c k).
Proof.
  unfold no_issue. intros Hc Hk. destruct c as [a|e|]; cbn; auto; congruence.
Qed.

Lemma no_issue_Ok (A : Type) (a : A) : no_issue (Ok a).
Proof. discriminate. Qed.

Lemma no_issue_Abort (A : Type) : no_issue (@Abort A).
Proof. discriminate. Qed.

Lemma no_issue_assert (ndebug b : bool) : no_issue (assert ndebug b).
Proof. unfold assert. destruct ndebug, b; discriminate. Qed.

Lemma no_issue_at (A : Type) (d : A) (v : list A) (i : Z) : no_issue (Vec.at_ d v i).
Proof. unfold Vec.at_. destruct (_ && _); discriminate. Qed.

Ltac no_issue :=
  repeat first
    [ apply no_issue_Ok
    | apply no_issue_Abort
    | apply no_issue_assert
    | apply no_issue_at
    | apply no_issue_bind; [|intro]
    | match goal with
      | |- no_issue (if ?b then _ else _) => destruct b
      | |- no_issue (let x := _ in _) => cbv zeta
      end ].

Lemma no_issue_xToI (ndebug : bool) (t : Table) (x : Scalar) (e : bool) :
  no_issue (xToI ndebug t x e).
Proof. unfold xToI. no_issue. Qed.

Lemma no_issue_yToJ (ndebug : bool) (t : Table) (i : Z) (y : Scalar) (e : bool) :
  no_issue (yToJ ndebug t i y e).
Proof. unfold yToJ, assertM, yMin, yMax. no_issue. Qed.

Lemma no_issue_applies (ndebug : bool) (t : Table) (x y : Scalar) :
  no_issue (applies ndebug t x y).
Proof.
  unfold applies. destruct (_ || _); [apply no_issue_Ok|].
  apply no_issue_bind; [apply no_issue_xToI|intro]. no_issue.
Qed.

Lemma no_issue_numY (t : Table) (i : Z) : no_issue (numY t i).
Proof. unfold numY. no_issue. Qed.

(** ** Samples are reproduced exactly *)

Lemma interp_eq (l : list Scalar) (s : Z) (x x' : Scalar) :
  x == x' -> interp l s x == interp l s x'.
Proof. intro H. unfold interp. now rewrite H. Qed.

Lemma xPosition_node (ndebug : bool) (t : Table) (k : Z) :
  invariant t -> (2 <= numX t)%Z -> (0 <= k < numX t)%Z ->
  xPosition t (xAt t k) == inject_Z k.
Proof.
  intros Hinv Hn Hk.
  destruct (@xToI_ok ndebug t (xAt t k) true (inv_x Hinv) Hn (or_introl eq_refl))
    as (_ & Hbr & _).
  unfold xPosition. apply interp_node; auto. apply (inv_x Hinv).
Qed.

Lemma yAt_get (t : Table) (i j : Z) :
  yAt t i j = Vec.get 0 (map get1 (column t i)) j.
Proof. unfold yAt, sample. now rewrite get_map_get1. Qed.

Lemma yPosition_node (ndebug : bool) (t : Table) (i j : Z) :
  invariant t -> (0 <= i < numX t)%Z -> (2 <= Vec.size (column t i))%Z ->
  (0 <= j < Vec.size (column t i))%Z ->
  yPosition t i (yAt t i j) == inject_Z j.
Proof.
  intros Hinv Hi Hm Hj.
  destruct (@yToJ_ok ndebug t i (yAt t i j) true (inv_size Hinv) Hi Hm
              (or_introl eq_refl)) as (_ & Hbr & _).
  unfold yPosition. rewrite yAt_get in *. apply interp_node; auto.
  - now apply invariant_column.
  - now rewrite size_map_get1.
Qed.

(** Interpolating along a column at one of its own samples. *)
Lemma column_node (t : Table) (i j : Z) :
  invariant t -> (0 <= i < numX t)%Z -> (2 <= Vec.size (column t i))%Z ->
  (0 <= j < Vec.size (column t i))%Z ->
  let y := yAt t i j in
  let j1 := cellJ t i y in
  valueAt t i j1 * (1 - cellBeta t i y) + valueAt t i (j1 + 1) * cellBeta t i y
  == valueAt t i j.
Proof.
  intros Hinv Hi Hm Hj. cbv zeta.
  pose proof (@yPosition_node true t i j Hinv Hi Hm Hj) as Hpos.
  assert (cellJ t i (yAt t i j) = Z.min (Vec.size (column t i) - 2) j) as Hj1.
  { unfold cellJ. apply clampIdx_inject; auto; lia. }
  unfold cellBeta. rewrite Hj1, Hpos.
  destruct (Z.le_gt_cases j (Vec.size (column t i) - 2)) as [Hle|Hgt].
  - replace (Z.min (Vec.size (column t i) - 2) j) with j by lia. ring.
  - replace (Z.min (Vec.size (column t i) - 2) j) with (j - 1)%Z by lia.
    replace (j - 1 + 1)%Z with j by lia.
    rewrite inject_Z_pred. ring.
Qed.

Lemma bilinear_node (t : Table) (i j : Z) :
  invariant t -> query_ready t ->
  (0 <= i < numX t)%Z -> (0 <= j < Vec.size (column t i))%Z ->
  bilinear t (xAt t i) (yAt t i j) == valueAt t i j.
Proof.
  intros Hinv [Hn Hcols] Hi Hj.
  pose proof (@xPosition_node true t i Hinv Hn Hi) as Hpos.
  assert (cellI t (xAt t i) = Z.min (numX t - 2) i) as HI.
  { unfold cellI. apply clampIdx_inject; auto; lia. }
  unfold bilinear, blend, cellAlpha. rewrite Hpos, HI.
  destruct (Z.le_gt_cases i (numX t - 2)) as [Hle|Hgt].
  - replace (Z.min (numX t - 2) i) with i by lia.
    pose proof (@column_node t i j Hinv Hi (Hcols _ Hi) Hj) as Hcol.
    cbv zeta in Hcol. rewrite Hcol. ring.
  - replace (Z.min (numX t - 2) i) with (i - 1)%Z by lia.
    replace (i - 1 + 1)%Z with i by lia.
    pose proof (@column_node t i j Hinv Hi (Hcols _ Hi) Hj) as Hcol.
    cbv zeta in Hcol. rewrite Hcol.
    rewrite inject_Z_pred. ring.
Qed.

(** ** Offsets outside the table *)

Section Outside.
Variable l : list Scalar.
Hypothesis Hasc : ascending l.

Lemma interp_below (s : Z) (x : Scalar) :
  bracket l s x -> x < Vec.get 0 l 0 -> interp l s x < 0.
Proof.
  intros (Hs & Hlo & _) Hx.
  assert (s = 0%Z) as ->.
  { destruct Hlo as [|Hlo]; [assumption|].
    pose proof (@ascending_get_le l 0 s Hasc ltac:(lia) ltac:(lia)). lra. }
  apply Qlt_le_trans with (interp l 0 (Vec.get 0 l 0)).
  - now apply interp_lt.
  - rewrite (interp_lo Hasc Hs). apply Qle_refl.
Qed.

Lemma interp_above (s : Z) (x : Scalar) :
  bracket l s x -> Vec.get 0 l (Vec.size l - 1) < x ->
  inject_Z (Vec.size l - 1) < interp l s x.
Proof.
  intros (Hs & _ & Hhi) Hx.
  assert (s = (Vec.size l - 2)%Z) as ->.
  { destruct Hhi as [|Hhi]; [assumption|].
    pose proof (@ascending_get_le l (s + 1) (Vec.size l - 1) Hasc
                  ltac:(lia) ltac:(lia)). lra. }
  replace (Vec.size l - 1)%Z with (Vec.size l - 2 + 1)%Z in * by lia.
  apply Qle_lt_trans with (interp l (Vec.size l - 2) (Vec.get 0 l (Vec.size l - 2 + 1))).
  - rewrite (interp_hi Hasc Hs). apply Qle_refl.
  - now apply interp_lt.
Qed.

Lemma interp_within (s : Z) (x : Scalar) :
  bracket l s x -> Vec.get 0 l 0 <= x -> x <= Vec.get 0 l (Vec.size l - 1) ->
  inject_Z s <= interp l s x /\ interp l s x <= inject_Z (s + 1).
Proof.
  intros (Hs & Hlo & Hhi) H0 Hn. split.
  - rewrite <- (interp_lo Hasc Hs). apply interp_le; auto.
    destruct Hlo as [->|]; assumption.
  - rewrite <- (interp_hi Hasc Hs). apply interp_le; auto.
    destruct Hhi as [->|]; [|assumption].
    now replace (Vec.size l - 2 + 1)%Z with (Vec.size l - 1)%Z by lia.
Qed.
End Outside.

Lemma xMin_get (t : Table) : xMin t = xAt t 0.
Proof. apply front_get. Qed.

Lemma xMax_get (t : Table) : (1 <= numX t)%Z -> xMax t = xAt t (numX t - 1).
Proof. intro H. apply back_get. now apply size_nonempty. Qed.

Lemma xSegment_bracket (t : Table) (x : Scalar) :
  invariant t -> (2 <= numX t)%Z -> bracket (xPos_ t) (xSegment (xPos_ t) x) x.
Proof.
  intros Hinv Hn.
  now destruct (@xToI_ok true t x true (inv_x Hinv) Hn (or_introl eq_refl))
    as (_ & H & _).
Qed.

Lemma ySegment_bracket (t : Table) (i : Z) (y : Scalar) :
  invariant t -> (0 <= i < numX t)%Z -> (2 <= Vec.size (column t i))%Z ->
  bracket (map get1 (column t i)) (ySegment (column t i) y) y.
Proof.
  intros Hinv Hi Hm.
  now destruct (@yToJ_ok true t i y true (inv_size Hinv) Hi Hm (or_introl eq_refl))
    as (_ & H & _).
Qed.

Lemma cellAlpha_below (t : Table) (x : Scalar) :
  invariant t -> (2 <= numX t)%Z -> x < xMin t -> cellAlpha t x < 0.
Proof.
  intros Hinv Hn Hx. rewrite xMin_get in Hx.
  pose proof (interp_below (inv_x Hinv) (xSegment_bracket x Hinv Hn) Hx) as Hneg.
  fold (xPosition t x) in Hneg.
  unfold cellAlpha, cellI. rewrite (clampIdx_below Hn Hneg).
  change (inject_Z 0) with 0. lra.
Qed.

Lemma cellAlpha_above (t : Table) (x : Scalar) :
  invariant t -> (2 <= numX t)%Z -> xMax t < x -> 1 < cellAlpha t x.
Proof.
  intros Hinv Hn Hx. rewrite xMax_get in Hx by lia.
  pose proof (interp_above (inv_x Hinv) (xSegment_bracket x Hinv Hn) Hx) as Hbig.
  fold (xPosition t x) in Hbig. fold (numX t) in Hbig.
  unfold cellAlpha, cellI.
  rewrite (clampIdx_above Hn (Qlt_le_weak _ _ Hbig)).
  replace (numX t - 2)%Z with (numX t - 1 - 1)%Z by lia.
  rewrite inject_Z_pred. lra.
Qed.

Lemma cellBeta_below (t : Table) (i : Z) (y : Scalar) :
  invariant t -> (0 <= i < numX t)%Z -> (2 <= Vec.size (column t i))%Z ->
  y < yAt t i 0 -> cellBeta t i y < 0.
Proof.
  intros Hinv Hi Hm Hy. rewrite yAt_get in Hy.
  pose proof (invariant_column Hinv Hi) as Hasc.
  assert (2 <= Vec.size (map get1 (column t i)))%Z as Hm'
    by now rewrite size_map_get1.
  pose proof (interp_below Hasc (ySegment_bracket y Hinv Hi Hm) Hy) as Hneg.
  fold (yPosition t i y) in Hneg.
  unfold cellBeta, cellJ. rewrite (clampIdx_below Hm Hneg).
  change (inject_Z 0) with 0. lra.
Qed.

Lemma cellBeta_above (t : Table) (i : Z) (y : Scalar) :
  invariant t -> (0 <= i < numX t)%Z -> (2 <= Vec.size (column t i))%Z ->
  yAt t i (Vec.size (column t i) - 1) < y -> 1 < cellBeta t i y.
Proof.
  intros Hinv Hi Hm Hy. rewrite yAt_get in Hy.
  pose proof (invariant_column Hinv Hi) as Hasc.
  assert (2 <= Vec.size (map get1 (column t i)))%Z as Hm'
    by now rewrite size_map_get1.
  rewrite <- size_map_get1 in Hy.
  pose proof (interp_above Hasc (ySegment_bracket y Hinv Hi Hm) Hy) as Hbig.
  fold (yPosition t i y) in Hbig. rewrite size_map_get1 in Hbig.
  unfold cellBeta, cellJ.
  rewrite (clampIdx_above Hm (Qlt_le_weak _ _ Hbig)).
  replace (Vec.size (column t i) - 2)%Z
    with (Vec.size (column t i) - 1 - 1)%Z by lia.
  rewrite inject_Z_pred. lra.
Qed.

(** ** [applies] returns on a query-ready table *)

Lemma applies_total (ndebug : bool) (t : Table) (x y : Scalar) :
  invariant t -> (2 <= numX t)%Z ->
  exists b : bool, applies ndebug t x y = Ok b.
Proof.
  intros Hinv Hn. unfold applies.
  destruct (Qltb x (xMin t) || Qltb (xMax t) x) eqn:E; [now exists false|].
  apply orb_false_iff in E. destruct E as [E1 E2].
  apply Qltb_ge in E1, E2.
  destruct (@xToI_ok ndebug t x false (inv_x Hinv) Hn (or_intror (conj E1 E2)))
    as (-> & Hbr & _).
  cbn [bind].
  rewrite xMin_get in E1. rewrite xMax_get in E2 by lia.
  destruct (interp_within (inv_x Hinv) Hbr E1 E2) as [Hlo Hhi].
  fold (xPosition t x) in Hlo, Hhi.
  destruct Hbr as (Hs & _).
  assert (0 <= static_cast_int (xPosition t x) < Vec.size (samples_ t))%Z as Hc.
  { pose proof (inv_size Hinv) as Hlen.
    assert (Vec.size (samples_ t) = numX t) as ->
      by (unfold numX, Vec.size; lia).
    split.
    - apply static_cast_int_lower; [lia|].
      apply Qle_trans with (inject_Z (xSegment (xPos_ t) x)); [|assumption].
      rewrite <- Zle_Qle. lia.
    - assert (static_cast_int (xPosition t x) <= numX t - 1)%Z; [|lia].
      apply static_cast_int_upper; [lia|].
      apply Qle_lt_trans with (inject_Z (xSegment (xPos_ t) x + 1)); [assumption|].
      rewrite <- Zlt_Qlt. fold (numX t) in Hs. lia. }
  rewrite (at_ok [] _ Hc). cbn [bind]. eexists. reflexivity.
Qed.

(** ** Where NumericalIssue comes from *)

Lemma bind_issue (A B : Type) (c : outcome A) (k : A -> outcome B) :
  (forall a, no_issue (k a)) ->
  bind c k = Throw NumericalIssue <-> c = Throw NumericalIssue.
Proof.
  intro Hk. destruct c as [a|e|]; cbn; split; intro H;
    try congruence; try discriminate; exfalso; exact (Hk _ H).
Qed.

Lemma domainCheck_issue (t : Table) (x y : Scalar) (extrapolate : bool) :
  domainCheck false t x y extrapolate = Throw NumericalIssue
  <-> extrapolate = false /\ applies false t x y = Ok false.
Proof.
  unfold domainCheck. cbn [negb].
  destruct extrapolate; cbn [negb].
  - split; [discriminate | intros [? _]; discriminate].
  - pose proof (@no_issue_applies false t x y) as Hni.
    destruct (applies false t x y) as [[|]| |]; cbn; split;
      try discriminate; try tauto; try (intros [_ ?]; discriminate).
    intro H. exfalso. apply Hni. congruence.
Qed.

Lemma eval_issue (ndebug : bool) (t : Table) (x y : Scalar) (extrapolate : bool) :
  eval ndebug t x y extrapolate = Throw NumericalIssue
  <-> domainCheck ndebug t x y extrapolate = Throw NumericalIssue.
Proof.
  unfold eval. apply bind_issue. intros _.
  apply no_issue_bind; [apply no_issue_xToI|intro].
  apply no_issue_bind; [apply no_issue_yToJ|intro].
  apply no_issue_bind; [apply no_issue_yToJ|intro].
  apply no_issue_bind; [apply no_issue_numY|intro].
  apply no_issue_bind; [apply no_issue_numY|intro].
  apply no_issue_Ok.
Qed.

Lemma evalAD_issue (ndebug : bool) (t : Table) (X Y : Evaluation.t)
    (extrapolate : bool) :
  evalAD ndebug t X Y extrapolate = Throw NumericalIssue
  <-> domainCheck ndebug t (Evaluation.value X) (Evaluation.value Y) extrapolate
      = Throw NumericalIssue.
Proof.
  unfold evalAD. apply bind_issue. intros _.
  apply no_issue_bind; [apply no_issue_xToI|intro].
  apply no_issue_bind; [apply no_issue_yToJ|intro].
  apply no_issue_bind; [apply no_issue_yToJ|intro].
  apply no_issue_bind; [apply no_issue_numY|intro].
  apply no_issue_bind; [apply no_issue_numY|intro].
  apply no_issue_Ok.
Qed.

(** The value component of the derivative-propagating overload is the
    scalar overload. *)
Lemma evalAD_value (ndebug : bool) (t : Table) (X Y : Evaluation.t)
    (extrapolate : bool) :
  fmap Evaluation.value (evalAD ndebug t X Y extrapolate)
  = eval ndebug t (Evaluation.value X) (Evaluation.value Y) extrapolate.
Proof.
  unfold evalAD, eval, fmap.
  destruct (domainCheck _ _ _ _ _) as [[]| |]; cbn [bind]; try reflexivity.
  destruct (xToI _ _ _ _) as [a| |]; cbn [bind]; try reflexivity.
  destruct (yToJ _ _ _ _ _) as [b1| |]; cbn [bind]; try reflexivity.
  destruct (yToJ _ _ _ _ _) as [b2| |]; cbn [bind]; try reflexivity.
  destruct (numY _ _) as [n1| |]; cbn [bind]; try reflexivity.
  destruct (numY _ _) as [n2| |]; cbn [bind]; reflexivity.
Qed.

(** ** The running example *)

Lemma apply_op_reachable (ndebug : bool) (o : op) (t t' : Table) (k : Z) :
  reachable t -> apply_op ndebug o t = (Ok k, t') -> reachable t'.
Proof.
  intros Hr Happ. destruct o as [x|i y v]; cbn in Happ.
  - eapply reach_appendXPos; eassumption.
  - eapply reach_appendSamplePoint; eassumption.
Qed.

Lemma build_reachable (ndebug : bool) (ops : list op) :
  forall t T : Table, reachable t -> build ndebug ops t = Ok T -> reachable T.
Proof.
  induction ops as [|o ops IH]; intros t T Hr Hb; cbn in Hb.
  - now injection Hb as <-.
  - destruct (apply_op ndebug o t) as [[k|e|] t'] eqn:E; try discriminate.
    apply (IH t'); [|assumption]. eapply apply_op_reachable; eassumption.
Qed.

Lemma unitSquare_build (ndebug : bool) :
  build ndebug unitSquare_ops emptyTable = Ok unitSquare.
Proof. destruct ndebug; reflexivity. Qed.

Lemma skewed_build (ndebug : bool) :
  build ndebug skewed_ops emptyTable = Ok skewed.
Proof. destruct ndebug; reflexivity. Qed.

Lemma unitSquare_reachable : reachable unitSquare.
Proof.
  apply (@build_reachable false unitSquare_ops emptyTable);
    [apply reach_empty | apply unitSquare_build].
Qed.

Lemma skewed_reachable : reachable skewed.
Proof.
  apply (@build_reachable false skewed_ops emptyTable);
    [apply reach_empty | apply skewed_build].
Qed.

Lemma unitSquare_ready : query_ready unitSquare.
Proof.
  split; [vm_compute; discriminate|].
  intros i Hi. change (numX unitSquare) with 2%Z in Hi.
  assert (i = 0 \/ i = 1)%Z as [-> | ->] by lia; vm_compute; discriminate.
Qed.

(** ** Specification properties *)

(** C1. On a query-ready table, evaluating at the coordinates of a stored
    sample, [eval(xAt(i), yAt(i,j))], returns the stored value
    [valueAt(i,j)] (in exact arithmetic), in either build. *)
Theorem eval_exact_at_samples (ndebug : bool) (t : Table) (i j : Z) :
  reachable t -> query_ready t ->
  (0 <= i < numX t)%Z -> (0 <= j < Vec.size (column t i))%Z ->
  exists v : Scalar,
    eval_default ndebug t (xAt t i) (yAt t i j) = Ok v /\ v == valueAt t i j.
Proof.
  intros Hreach Hready Hi Hj.
  pose proof (reachable_invariant Hreach) as Hinv.
  exists (bilinear t (xAt t i) (yAt t i j)). split.
  - unfold eval_default. now apply eval_ok.
  - now apply bilinear_node.
Qed.

(** The explicit call [eval(x, y, false)] is another matter in the checked
    build: [yToJ] asserts that [y] lies in the range of each of the two
    columns it is called for, and a sample of one column need not lie in
    the range of its neighbour. *)
Example eval_checked_sample_aborts :
  eval false skewed (xAt skewed 1) (yAt skewed 1 1) false = Abort /\
  applies false skewed (xAt skewed 1) (yAt skewed 1 1) = Ok true.
Proof. split; vm_compute; reflexivity. Qed.

Lemma eval_exact_at_samples_witness :
  exists v : Scalar,
    eval_default false unitSquare (xAt unitSquare 1) (yAt unitSquare 1 1) = Ok v
    /\ v == valueAt unitSquare 1 1.
Proof.
  apply (@eval_exact_at_samples false unitSquare 1 1).
  - exact unitSquare_reachable.
  - exact unitSquare_ready.
  - vm_compute. split; congruence.
  - vm_compute. split; congruence.
Defined.

(** C8. On a table with at least two columns (and [x] within
    [[xMin, xMax]] unless extrapolating), [xToI] selects interval 0 when [x]
    is at most the second x-sample, else the last interval [numX - 2] when
    [x] is at least the second-to-last x-sample, else an interval found by
    bisection with [xPos[segmentIdx] <= x <= xPos[segmentIdx + 1]]; it
    returns [segmentIdx + (x - xPos[segmentIdx]) / (xPos[segmentIdx + 1] -
    xPos[segmentIdx])].  Whenever [x] is at least the second-to-last
    x-sample the returned number is the position in the last interval, also
    when the first case applies as well. *)
Theorem xToI_interval (ndebug : bool) (t : Table) (x : Scalar) (extrapolate : bool) :
  reachable t -> (2 <= numX t)%Z ->
  (extrapolate = false -> xMin t <= x /\ x <= xMax t) ->
  exists segmentIdx : Z,
    xToI ndebug t x extrapolate
    = Ok (inject_Z segmentIdx
          + (x - xAt t segmentIdx) / (xAt t (segmentIdx + 1) - xAt t segmentIdx)) /\
    (0 <= segmentIdx <= numX t - 2)%Z /\
    (x <= xAt t 1 -> segmentIdx = 0%Z) /\
    (~ x <= xAt t 1 -> xAt t (numX t - 2) <= x -> segmentIdx = (numX t - 2)%Z) /\
    (~ x <= xAt t 1 -> ~ xAt t (numX t - 2) <= x ->
     (1 <= segmentIdx <= numX t - 3)%Z /\
     xAt t segmentIdx <= x /\ x <= xAt t (segmentIdx + 1)) /\
    (xAt t (numX t - 2) <= x ->
     inject_Z segmentIdx
     + (x - xAt t segmentIdx) / (xAt t (segmentIdx + 1) - xAt t segmentIdx)
     == inject_Z (numX t - 2)
        + (x - xAt t (numX t - 2)) / (xAt t (numX t - 2 + 1) - xAt t (numX t - 2))).
Proof.
  intros Hreach Hn Hpre.
  pose proof (reachable_invariant Hreach) as Hinv.
  pose proof (inv_x Hinv) as Hasc.
  assert (extrapolate = true \/ (xMin t <= x /\ x <= xMax t)) as Hpre'.
  { destruct extrapolate; [now left | right; now apply Hpre]. }
  destruct (@xToI_ok ndebug t x extrapolate Hasc Hn Hpre')
    as (Hval & Hbr & Hc1 & Hc2 & Hc3).
  exists (xSegment (xPos_ t) x).
  split; [exact Hval|]. split; [apply Hbr|].
  split; [exact Hc1|].
  split; [intros H1 H2; apply Hc2; [lra | assumption]|].
  split.
  { intros H1 H2. destruct Hc3 as (H3 & H4 & H5); [lra | lra |].
    repeat split; try lia; try assumption. lra. }
  intro Hlast.
  change (interp (xPos_ t) (xSegment (xPos_ t) x) x
          == interp (xPos_ t) (numX t - 2) x).
  destruct (Qlt_le_dec (xAt t 1) x) as [Hgt|Hle].
  - rewrite (Hc2 Hgt Hlast). reflexivity.
  - rewrite (Hc1 Hle).
    assert (numX t - 2 <= 1)%Z as Hsmall.
    { apply (ascending_get_inv Hasc); unfold numX, xAt in *; try lia. lra. }
    destruct (Z.eq_dec (numX t) 2) as [H2|H2].
    + rewrite H2. reflexivity.
    + assert (numX t - 2 = 1)%Z as Heq by lia. rewrite Heq in *.
      assert (x == xAt t 1) as Hx by (apply Qle_antisym; assumption).
      rewrite (interp_eq _ 0 Hx), (interp_eq _ 1 Hx).
      unfold xAt, numX in *.
      rewrite (@interp_hi _ Hasc 0) by lia.
      rewrite (@interp_lo _ Hasc 1) by lia. reflexivity.
Qed.

Lemma xToI_interval_witness :
  exists segmentIdx : Z,
    xToI false unitSquare (1 # 2) false
    = Ok (inject_Z segmentIdx
          + ((1 # 2) - xAt unitSquare segmentIdx)
            / (xAt unitSquare (segmentIdx + 1) - xAt unitSquare segmentIdx)) /\
    (0 <= segmentIdx <= numX unitSquare - 2)%Z.
Proof.
  destruct (@xToI_interval false unitSquare (1 # 2) false)
    as (s & H1 & H2 & _).
  - exact unitSquare_reachable.
  - vm_compute. discriminate.
  - intros _. vm_compute. split; discriminate.
  - exists s. split; assumption.
Defined.

(** C9. On a query-ready table [xToI] is non-decreasing in [x], and for a
    valid column [i], [yToJ(i, .)] is non-decreasing in [y] (the
    coordinates being in range unless extrapolating). *)
Theorem mapping_monotone (ndebug : bool) (t : Table) (extrapolate : bool)
    (x x' : Scalar) (i : Z) (y y' : Scalar) :
  reachable t -> query_ready t -> (0 <= i < numX t)%Z ->
  (extrapolate = false ->
   inXRange t x /\ inXRange t x' /\ inYRange t i y /\ inYRange t i y') ->
  x <= x' -> y <= y' ->
  (exists a a' : Scalar,
     xToI ndebug t x extrapolate = Ok a /\
     xToI ndebug t x' extrapolate = Ok a' /\ a <= a') /\
  (exists b b' : Scalar,
     yToJ ndebug t i y extrapolate = Ok b /\
     yToJ ndebug t i y' extrapolate = Ok b' /\ b <= b').
Proof.
  intros Hreach [Hn Hcols] Hi Hpre Hx Hy.
  pose proof (reachable_invariant Hreach) as Hinv.
  pose proof (inv_x Hinv) as Hasc.
  assert (forall P : Prop,
            (inXRange t x /\ inXRange t x' /\ inYRange t i y /\ inYRange t i y' -> P) ->
            extrapolate = true \/ P) as Hcase.
  { intros P HP. destruct extrapolate; [now left | right; now apply HP, Hpre]. }
  split.
  - destruct (@xToI_ok ndebug t x extrapolate Hasc Hn) as (Hv & Hbr & _).
    { apply Hcase. intros (H & _). exact H. }
    destruct (@xToI_ok ndebug t x' extrapolate Hasc Hn) as (Hv' & Hbr' & _).
    { apply Hcase. intros (_ & H & _). exact H. }
    exists (xPosition t x), (xPosition t x'). repeat split; auto.
    unfold xPosition. now apply interp_mono.
  - pose proof (Hcols _ Hi) as Hm.
    destruct (@yToJ_ok ndebug t i y extrapolate (inv_size Hinv) Hi Hm)
      as (Hv & Hbr & _).
    { apply Hcase. intros (_ & _ & H & _). exact H. }
    destruct (@yToJ_ok ndebug t i y' extrapolate (inv_size Hinv) Hi Hm)
      as (Hv' & Hbr' & _).
    { apply Hcase. intros (_ & _ & _ & H). exact H. }
    exists (yPosition t i y), (yPosition t i y'). repeat split; auto.
    unfold yPosition. apply interp_mono; auto.
    now apply invariant_column.
Qed.

Lemma mapping_monotone_witness :
  (exists a a' : Scalar,
     xToI false unitSquare (1 # 4) false = Ok a /\
     xToI false unitSquare (3 # 4) false = Ok a' /\ a <= a') /\
  (exists b b' : Scalar,
     yToJ false unitSquare 1 (1 # 3) false = Ok b /\
     yToJ false unitSquare 1 (1 # 2) false = Ok b' /\ b <= b').
Proof.
  apply (@mapping_monotone false unitSquare false (1 # 4) (3 # 4) 1 (1 # 3) (1 # 2)).
  - exact unitSquare_reachable.
  - exact unitSquare_ready.
  - vm_compute. split; congruence.
  - intros _. vm_compute. repeat split; discriminate.
  - vm_compute. discriminate.
  - vm_compute. discriminate.
Defined.

(** ** The clamped cell

    The index [eval] clamps a position to, and the offset it keeps, stated
    from the stored coordinates alone. *)

Section Clamped.
Variable l : list Scalar.
Hypothesis Hasc : ascending l.
Hypothesis Hn : (2 <= Vec.size l)%Z.

Lemma interp_offset (s : Z) (x : Scalar) :
  interp l s x - inject_Z s
  == (x - Vec.get 0 l s) / (Vec.get 0 l (s + 1) - Vec.get 0 l s).
Proof. unfold interp, Qdiv. ring. Qed.

Lemma clamped_cell (s : Z) (x : Scalar) :
  bracket l s x ->
  let c := clampIdx (Vec.size l) (interp l s x) in
  (0 <= c <= Vec.size l - 2)%Z /\
  (c = 0%Z \/ Vec.get 0 l c <= x) /\
  (c = (Vec.size l - 2)%Z \/ x < Vec.get 0 l (c + 1)) /\
  interp l s x - inject_Z c
  == (x - Vec.get 0 l c) / (Vec.get 0 l (c + 1) - Vec.get 0 l c).
Proof.
  intros Hbr c. pose proof Hbr as (Hs & Hblo & Hbhi).
  destruct (Qlt_le_dec x (Vec.get 0 l 0)) as [Hbelow|H0].
  - (* below the sequence *)
    assert (s = 0%Z) as Es.
    { destruct Hblo as [|Hlo]; [assumption|].
      pose proof (@ascending_get_le l 0 s Hasc ltac:(lia) ltac:(lia)). lra. }
    assert (c = 0%Z) as Ec.
    { unfold c. apply clampIdx_below; [assumption|]. now apply interp_below. }
    rewrite Ec. subst s.
    split; [lia|]. split; [now left|]. split.
    + right. apply Qlt_trans with (Vec.get 0 l 0); [assumption|].
      apply ascending_get; auto; lia.
    + apply interp_offset.
  - destruct (Qlt_le_dec x (Vec.get 0 l (Vec.size l - 1))) as [Hin|Habove].
    + (* inside *)
      assert (Vec.get 0 l s <= x) as Hsx by (destruct Hblo as [->|]; assumption).
      destruct (interp_within Hasc Hbr H0 (Qlt_le_weak _ _ Hin)) as [Hlo Hhi].
      destruct (Qlt_le_dec x (Vec.get 0 l (s + 1))) as [Hlt|Hge].
      * assert (c = s) as Ec.
        { unfold c. apply clampIdx_inside; [lia | assumption |].
          rewrite <- (interp_hi Hasc Hs). now apply interp_lt. }
        rewrite Ec.
        split; [lia|]. split; [now right|]. split; [now right|].
        apply interp_offset.
      * assert (s + 1 < Vec.size l - 1)%Z as Hs1.
        { destruct (Z.lt_ge_cases (s + 1) (Vec.size l - 1)) as [|Hc]; [assumption|].
          replace (s + 1)%Z with (Vec.size l - 1)%Z in Hge by lia. lra. }
        assert (x <= Vec.get 0 l (s + 1)) as Hxs.
        { destruct Hbhi as [->|]; [lia | assumption]. }
        assert (x == Vec.get 0 l (s + 1)) as Hx by (apply Qle_antisym; assumption).
        assert (interp l s x == inject_Z (s + 1)) as Hi.
        { rewrite (interp_eq l s Hx). now apply interp_hi. }
        assert (c = (s + 1)%Z) as Ec.
        { unfold c. rewrite (clampIdx_inject (k := (s + 1)%Z) Hn ltac:(lia) Hi). lia. }
        rewrite Ec.
        split; [lia|]. split; [right; lra|]. split.
        -- right. apply Qle_lt_trans with (Vec.get 0 l (s + 1)); [lra|].
           apply ascending_get; auto; lia.
        -- rewrite Hi, Hx. unfold Qdiv. ring.
    + (* at or above the last point *)
      assert (s = (Vec.size l - 2)%Z) as Es.
      { destruct Hbhi as [|Hhi]; [assumption|].
        destruct (Z.eq_dec s (Vec.size l - 2)) as [|Hne]; [assumption|].
        pose proof (@ascending_get l (s + 1) (Vec.size l - 1) Hasc
                      ltac:(lia) ltac:(lia)). lra. }
      assert (c = (Vec.size l - 2)%Z) as Ec.
      { unfold c. apply clampIdx_above; [assumption|].
        replace (Vec.size l - 1)%Z with (s + 1)%Z by lia.
        rewrite <- (interp_hi Hasc Hs). apply interp_le; auto.
        now replace (s + 1)%Z with (Vec.size l - 1)%Z by lia. }
      rewrite Ec. subst s.
      split; [lia|]. split.
      * right. apply Qle_trans with (Vec.get 0 l (Vec.size l - 1)); [|assumption].
        apply ascending_get_le; auto; lia.
      * split; [now left|]. apply interp_offset.
Qed.

(** The three conditions determine the cell. *)
Lemma cell_unique (c c' : Z) (x : Scalar) :
  (0 <= c <= Vec.size l - 2)%Z ->
  (c = 0%Z \/ Vec.get 0 l c <= x) ->
  (c = (Vec.size l - 2)%Z \/ x < Vec.get 0 l (c + 1)) ->
  (0 <= c' <= Vec.size l - 2)%Z ->
  (c' = 0%Z \/ Vec.get 0 l c' <= x) ->
  (c' = (Vec.size l - 2)%Z \/ x < Vec.get 0 l (c' + 1)) ->
  c = c'.
Proof.
  intros Hc Hlo Hhi Hc' Hlo' Hhi'.
  destruct (Z.lt_trichotomy c c') as [Hlt|[Heq|Hgt]]; [|assumption|].
  - destruct Hhi as [|Hhi]; [lia|]. destruct Hlo' as [|Hlo']; [lia|].
    pose proof (@ascending_get_le l (c + 1) c' Hasc ltac:(lia) ltac:(lia)). lra.
  - destruct Hhi' as [|Hhi']; [lia|]. destruct Hlo as [|Hlo]; [lia|].
    pose proof (@ascending_get_le l (c' + 1) c Hasc ltac:(lia) ltac:(lia)). lra.
Qed.
End Clamped.

Lemma cellI_xCell (t : Table) (x : Scalar) :
  invariant t -> (2 <= numX t)%Z ->
  xCell t (cellI t x) x /\ cellAlpha t x == xOffset t (cellI t x) x.
Proof.
  intros Hinv Hn.
  destruct (clamped_cell (inv_x Hinv) Hn (xSegment_bracket x Hinv Hn))
    as (H1 & H2 & H3 & H4).
  split; [split; [exact H1 | split; [exact H2 | exact H3]] | exact H4].
Qed.

Lemma cellJ_yCell (t : Table) (i : Z) (y : Scalar) :
  invariant t -> (0 <= i < numX t)%Z -> (2 <= Vec.size (column t i))%Z ->
  yCell t i (cellJ t i y) y /\ cellBeta t i y == yOffset t i (cellJ t i y) y.
Proof.
  intros Hinv Hi Hm.
  assert (2 <= Vec.size (map get1 (column t i)))%Z as Hm'
    by now rewrite size_map_get1.
  destruct (clamped_cell (invariant_column Hinv Hi) Hm'
              (ySegment_bracket y Hinv Hi Hm)) as (H1 & H2 & H3 & H4).
  rewrite size_map_get1 in H1, H2, H3, H4.
  fold (yPosition t i y) in H1, H2, H3, H4. fold (cellJ t i y) in H1, H2, H3, H4.
  unfold yCell, cellBeta, yOffset. rewrite !yAt_get.
  split; [split; [exact H1 | split; [exact H2 | exact H3]] | exact H4].
Qed.

Lemma xCell_unique (t : Table) (i i' : Z) (x : Scalar) :
  invariant t -> xCell t i x -> xCell t i' x -> i = i'.
Proof.
  intros Hinv (H1 & H2 & H3) (H1' & H2' & H3').
  exact (cell_unique (inv_x Hinv) H1 H2 H3 H1' H2' H3').
Qed.

Lemma blend_comp (v11 v12 v21 v22 a a' b1 b1' b2 b2' : Scalar) :
  a == a' -> b1 == b1' -> b2 == b2' ->
  blend v11 v12 v21 v22 a b1 b2 == blend v11 v12 v21 v22 a' b1' b2'.
Proof. intros Ha Hb1 Hb2. unfold blend. now rewrite Ha, Hb1, Hb2. Qed.

Lemma yCell_unique (t : Table) (i j j' : Z) (y : Scalar) :
  invariant t -> (0 <= i < numX t)%Z -> yCell t i j y -> yCell t i j' y -> j = j'.
Proof.
  intros Hinv Hi (H1 & H2 & H3) (H1' & H2' & H3').
  rewrite !yAt_get in *. rewrite <- size_map_get1 in *.
  exact (cell_unique (invariant_column Hinv Hi) H1 H2 H3 H1' H2' H3').
Qed.

(** C5. In the checked build ([NDEBUG] undefined), on a query-ready table,
    both [eval] overloads raise NumericalIssue exactly when [extrapolate] is
    false and [applies(x, y)] is false.  With [extrapolate = true], and the
    conversions to [int] defined, they return the bilinear blend in the
    clamped cell: the column interval [i] and the intervals [j1], [j2] in
    its two columns are those that hold [x] and [y], or the first or last
    interval when the coordinate lies outside the stored ones; the offsets
    are taken relative to these intervals without clamping, so that they
    are negative below and exceed one above the tabulated range. *)
Theorem numericalIssue_policy (t : Table) (x y : Scalar) (X Y : Evaluation.t)
    (extrapolate : bool) :
  reachable t -> query_ready t ->
  (exists b : bool, applies false t x y = Ok b) /\
  (eval false t x y extrapolate = Throw NumericalIssue
   <-> extrapolate = false /\ applies false t x y = Ok false) /\
  (evalAD false t X Y extrapolate = Throw NumericalIssue
   <-> extrapolate = false /\
       applies false t (Evaluation.value X) (Evaluation.value Y) = Ok false) /\
  (casts_defined t (Evaluation.value X) (Evaluation.value Y) ->
   fmap Evaluation.value (evalAD false t X Y true)
   = eval false t (Evaluation.value X) (Evaluation.value Y) true) /\
  (casts_defined t x y ->
   exists (i j1 j2 : Z) (v : Scalar),
     eval false t x y true = Ok v /\
     xCell t i x /\ yCell t i j1 y /\ yCell t (i + 1) j2 y /\
     v == blend (valueAt t i j1) (valueAt t i (j1 + 1))
                (valueAt t (i + 1) j2) (valueAt t (i + 1) (j2 + 1))
                (xOffset t i x) (yOffset t i j1 y) (yOffset t (i + 1) j2 y) /\
     (x < xMin t -> xOffset t i x < 0) /\
     (xMax t < x -> 1 < xOffset t i x) /\
     (y < yAt t i 0 -> yOffset t i j1 y < 0) /\
     (yAt t i (Vec.size (column t i) - 1) < y -> 1 < yOffset t i j1 y) /\
     (y < yAt t (i + 1) 0 -> yOffset t (i + 1) j2 y < 0) /\
     (yAt t (i + 1) (Vec.size (column t (i + 1)) - 1) < y
      -> 1 < yOffset t (i + 1) j2 y)).
Proof.
  intros Hreach Hready.
  pose proof (reachable_invariant Hreach) as Hinv.
  pose proof Hready as [Hn Hcols].
  split; [now apply applies_total|].
  split; [rewrite eval_issue; apply domainCheck_issue|].
  split; [rewrite evalAD_issue; apply domainCheck_issue|].
  split; [intros _; apply evalAD_value|].
  intros _.
  pose proof (cellI_range t x Hn) as Hi.
  assert (0 <= cellI t x < numX t)%Z as Hi1 by lia.
  assert (0 <= cellI t x + 1 < numX t)%Z as Hi2 by lia.
  destruct (cellI_xCell x Hinv Hn) as [Hxc Hxo].
  destruct (cellJ_yCell y Hinv Hi1 (Hcols _ Hi1)) as [Hyc1 Hyo1].
  destruct (cellJ_yCell y Hinv Hi2 (Hcols _ Hi2)) as [Hyc2 Hyo2].
  exists (cellI t x), (cellJ t (cellI t x) y), (cellJ t (cellI t x + 1) y),
    (bilinear t x y).
  split; [now apply eval_ok|].
  split; [exact Hxc|]. split; [exact Hyc1|]. split; [exact Hyc2|].
  split; [unfold bilinear; now apply blend_comp|].
  rewrite <- Hxo, <- Hyo1, <- Hyo2.
  split; [now apply cellAlpha_below|].
  split; [now apply cellAlpha_above|].
  split; [apply cellBeta_below; auto|].
  split; [apply cellBeta_above; auto|].
  split; [apply cellBeta_below; auto | apply cellBeta_above; auto].
Qed.

Lemma numericalIssue_policy_witness :
  eval false unitSquare 2 (1 # 2) false = Throw NumericalIssue /\
  exists v : Scalar,
    eval false unitSquare 2 (1 # 2) true = Ok v /\ v == 9 # 2.
Proof.
  destruct (@numericalIssue_policy unitSquare 2 (1 # 2)
              (Evaluation.mk 2 [1]) (Evaluation.mk (1 # 2) [0]) false
              unitSquare_reachable unitSquare_ready)
    as (_ & Hiff & _ & _ & H).
  split.
  - apply Hiff. split; [reflexivity | vm_compute; reflexivity].
  - destruct H as (i & j1 & j2 & v & Hv & _).
    + repeat split; vm_compute; discriminate.
    + exists v. split; [exact Hv|].
      revert Hv. vm_compute. intro Hv. injection Hv as <-. reflexivity.
Defined.

(** ** Derivative propagation *)

Lemma xToI_inv (ndebug : bool) (t : Table) (x : Scalar) (e : bool) (a : Scalar) :
  xToI ndebug t x e = Ok a -> a = xPosition t x.
Proof.
  unfold xToI, xPosition, xSegment, interp. intro H.
  destruct (assert ndebug _) as [[]| |]; try discriminate; cbn [bind] in H.
  destruct (assert ndebug _) as [[]| |]; try discriminate; cbn [bind] in H.
  destruct (Qle_bool x _); cbn [bind] in H; [congruence|].
  destruct (Qle_bool _ x); cbn [bind] in H; [congruence|].
  cbv zeta in H.
  destruct (assert ndebug _) as [[]| |]; try discriminate; cbn [bind] in H.
  destruct (assert ndebug _) as [[]| |]; try discriminate; cbn [bind] in H.
  congruence.
Qed.

Lemma at_inv (A : Type) (d : A) (v : list A) (i : Z) (a : A) :
  Vec.at_ d v i = Ok a -> a = Vec.get d v i.
Proof. unfold Vec.at_. destruct (_ && _); congruence. Qed.

Lemma yToJ_inv (ndebug : bool) (t : Table) (i : Z) (y : Scalar) (e : bool)
    (b : Scalar) :
  yToJ ndebug t i y e = Ok b -> b = yPosition t i y.
Proof.
  unfold yToJ, yPosition, ySegment, interp. intro H.
  destruct (assert ndebug _) as [[]| |]; try discriminate; cbn [bind] in H.
  destruct (Vec.at_ [] (samples_ t) i) as [col| |] eqn:Eat;
    try discriminate; cbn [bind] in H.
  apply at_inv in Eat. fold (column t i) in Eat. subst col.
  destruct (assertM ndebug _) as [[]| |]; try discriminate; cbn [bind] in H.
  cbv zeta in H.
  destruct (assert ndebug _) as [[]| |]; try discriminate; cbn [bind] in H.
  destruct (assert ndebug _) as [[]| |]; try discriminate; cbn [bind] in H.
  rewrite !get_map_get1. congruence.
Qed.

Lemma numY_inv (t : Table) (i n : Z) :
  numY t i = Ok n -> n = Vec.size (column t i).
Proof.
  unfold numY. intro H.
  destruct (Vec.at_ [] (samples_ t) i) as [col| |] eqn:Eat;
    try discriminate; cbn [bind] in H.
  apply at_inv in Eat. fold (column t i) in Eat. congruence.
Qed.

Module EvaluationFacts.
Import Evaluation.

Lemma nth_map_Q (f : Scalar -> Scalar) (l : list Scalar) (var : nat) :
  (var < length l)%nat -> nth var (map f l) 0 = f (nth var l 0).
Proof.
  intro H. rewrite (nth_indep _ 0 (f 0)) by now rewrite length_map.
  apply map_nth.
Qed.

Lemma nth_map_seq (f : nat -> Scalar) (n var : nat) :
  (var < n)%nat -> nth var (map f (seq 0 n)) 0 = f var.
Proof.
  intro H. rewrite (nth_indep _ 0 (f 0%nat)) by now rewrite length_map, length_seq.
  rewrite map_nth, seq_nth by assumption. reflexivity.
Qed.

Lemma length_map2 (f : Scalar -> Scalar -> Scalar) (a b : list Scalar) :
  length (map2 f a b) = Nat.min (length a) (length b).
Proof.
  revert b. induction a as [|x a IH]; intros [|y b]; cbn; auto.
Qed.

Lemma nth_map2 (f : Scalar -> Scalar -> Scalar) (a b : list Scalar) (var : nat) :
  (var < length a)%nat -> (var < length b)%nat ->
  nth var (map2 f a b) 0 = f (nth var a 0) (nth var b 0).
Proof.
  revert b var. induction a as [|x a IH]; intros [|y b] [|var] Ha Hb;
    cbn in *; try lia; auto.
  apply IH; lia.
Qed.

Lemma length_set_derivatives (e : t) (n : nat) (src : list Scalar) (d : Scalar) :
  length (derivatives (set_derivatives e n src d)) = n.
Proof. cbn. now rewrite length_map, length_seq. Qed.

Lemma deriv_set_derivatives (e : t) (n : nat) (src : list Scalar) (d : Scalar)
    (var : nat) :
  (var < n)%nat -> deriv (set_derivatives e n src d) var = nth var src 0 / d.
Proof. intro H. cbn. now rewrite nth_map_seq. Qed.

Lemma length_scale (s : Scalar) (e : t) :
  length (derivatives (scale s e)) = length (derivatives e).
Proof. cbn. now rewrite length_map. Qed.

Lemma length_rsub (s : Scalar) (e : t) :
  length (derivatives (rsub s e)) = length (derivatives e).
Proof. cbn. now rewrite length_map. Qed.

Lemma length_add (a b : t) :
  length (derivatives (add a b))
  = Nat.min (length (derivatives a)) (length (derivatives b)).
Proof. cbn. apply length_map2. Qed.

Lemma length_mul (a b : t) :
  length (derivatives (mul a b))
  = Nat.min (length (derivatives a)) (length (derivatives b)).
Proof. cbn. apply length_map2. Qed.

Lemma deriv_scale (s : Scalar) (e : t) (var : nat) :
  (var < length (derivatives e))%nat -> deriv (scale s e) var = s * deriv e var.
Proof. intro H. cbn. now rewrite nth_map_Q. Qed.

Lemma deriv_rsub (s : Scalar) (e : t) (var : nat) :
  (var < length (derivatives e))%nat -> deriv (rsub s e) var = - deriv e var.
Proof. intro H. cbn. now rewrite nth_map_Q. Qed.

Lemma deriv_add (a b : t) (var : nat) :
  (var < length (derivatives a))%nat -> (var < length (derivatives b))%nat ->
  deriv (add a b) var = deriv a var + deriv b var.
Proof. intros Ha Hb. cbn. now rewrite nth_map2. Qed.

Lemma deriv_mul (a b : t) (var : nat) :
  (var < length (derivatives a))%nat -> (var < length (derivatives b))%nat ->
  deriv (mul a b) var = deriv a var * value b + value a * deriv b var.
Proof. intros Ha Hb. cbn. now rewrite nth_map2. Qed.

End EvaluationFacts.

Ltac eval_lengths :=
  repeat first
    [ rewrite EvaluationFacts.length_add
    | rewrite EvaluationFacts.length_mul
    | rewrite EvaluationFacts.length_scale
    | rewrite EvaluationFacts.length_rsub
    | rewrite EvaluationFacts.length_set_derivatives
    | rewrite Nat.min_id ].

(** C2. The derivative-propagating [eval] has the scalar [eval] at
    [(X.value, Y.value)] as its value, with the same [extrapolate] flag (and
    fails exactly as the scalar one does); when it returns, its derivative
    for each variable is the chain-rule derivative of the bilinear blend
    with [dalpha = dX / (x[i+1] - x[i])],
    [dbeta1 = dY / (y[i,j1+1] - y[i,j1])] and
    [dbeta2 = dY / (y[i+1,j2+1] - y[i+1,j2])], the corner values being
    constants; [i], [j1] and [j2] are the clamped indices, the conversions
    to [int] being defined.  On a query-ready table it returns whenever
    extrapolating. *)
Theorem evalAD_chain_rule (ndebug : bool) (t : Table) (X Y : Evaluation.t)
    (extrapolate : bool) :
  reachable t -> query_ready t ->
  length (Evaluation.derivatives X) = length (Evaluation.derivatives Y) ->
  casts_defined t (Evaluation.value X) (Evaluation.value Y) ->
  let x := Evaluation.value X in
  let y := Evaluation.value Y in
  fmap Evaluation.value (evalAD ndebug t X Y extrapolate)
  = eval ndebug t x y extrapolate /\
  (forall v : Scalar, eval ndebug t x y extrapolate = Ok v ->
   exists R : Evaluation.t,
     evalAD ndebug t X Y extrapolate = Ok R /\
     Evaluation.value R = v /\
     length (Evaluation.derivatives R) = length (Evaluation.derivatives X) /\
     forall var : nat, (var < length (Evaluation.derivatives X))%nat ->
       let i := cellI t x in
       let j1 := cellJ t i y in
       let j2 := cellJ t (i + 1) y in
       let dX := nth var (Evaluation.derivatives X) 0 in
       let dY := nth var (Evaluation.derivatives Y) 0 in
       nth var (Evaluation.derivatives R) 0
       == dblend (valueAt t i j1) (valueAt t i (j1 + 1))
                 (valueAt t (i + 1) j2) (valueAt t (i + 1) (j2 + 1))
                 (cellAlpha t x) (cellBeta t i y) (cellBeta t (i + 1) y)
                 (dX / (xAt t (i + 1) - xAt t i))
                 (dY / (yAt t i (j1 + 1) - yAt t i j1))
                 (dY / (yAt t (i + 1) (j2 + 1) - yAt t (i + 1) j2))) /\
  (exists R : Evaluation.t, evalAD ndebug t X Y true = Ok R).
Proof.
  intros Hreach Hready Hlen _ x y.
  pose proof (reachable_invariant Hreach) as Hinv.
  split; [apply evalAD_value|]. split.
  - intros v Hv. unfold eval in Hv. unfold evalAD.
    fold x y. cbn [Evaluation.value Evaluation.createConstant].
    destruct (domainCheck ndebug t x y extrapolate) as [[]| |];
      try discriminate; cbn [bind] in *.
    destruct (xToI ndebug t x extrapolate) as [a| |] eqn:Ea;
      try discriminate; cbn [bind] in *.
    apply xToI_inv in Ea. subst a. fold (cellI t x) in *.
    destruct (yToJ ndebug t (cellI t x) y extrapolate) as [b1| |] eqn:Eb1;
      try discriminate; cbn [bind] in *.
    apply yToJ_inv in Eb1. subst b1.
    destruct (yToJ ndebug t (cellI t x + 1) y extrapolate) as [b2| |] eqn:Eb2;
      try discriminate; cbn [bind] in *.
    apply yToJ_inv in Eb2. subst b2.
    destruct (numY t (cellI t x)) as [n1| |] eqn:En1;
      try discriminate; cbn [bind] in *.
    apply numY_inv in En1. subst n1.
    destruct (numY t (cellI t x + 1)) as [n2| |] eqn:En2;
      try discriminate; cbn [bind] in *.
    apply numY_inv in En2. subst n2.
    fold (cellJ t (cellI t x) y) in *. fold (cellJ t (cellI t x + 1) y) in *.
    injection Hv as Hv.
    eexists. split; [reflexivity|]. split; [exact Hv|]. split.
    + eval_lengths. reflexivity.
    + intros var Hvar. cbv zeta.
      rewrite EvaluationFacts.deriv_add by (eval_lengths; assumption).
      rewrite !EvaluationFacts.deriv_mul by (eval_lengths; assumption).
      rewrite !EvaluationFacts.deriv_add by (eval_lengths; assumption).
      rewrite !EvaluationFacts.deriv_rsub by (eval_lengths; assumption).
      rewrite !EvaluationFacts.deriv_scale by (eval_lengths; assumption).
      rewrite !EvaluationFacts.deriv_rsub by (eval_lengths; assumption).
      rewrite !EvaluationFacts.deriv_set_derivatives by assumption.
      cbn [Evaluation.value Evaluation.add Evaluation.scale Evaluation.rsub
           Evaluation.sub_int Evaluation.set_derivatives Evaluation.mul
           Evaluation.createConstant].
      unfold dblend, cellAlpha, cellBeta, Qdiv. ring.
  - destruct Hready as [Hn Hcols].
    pose proof (evalAD_value ndebug t X Y true) as Hval.
    fold x y in Hval. rewrite eval_ok in Hval by (auto; now split).
    destruct (evalAD ndebug t X Y true) as [R| |]; try discriminate.
    now exists R.
Qed.

Lemma evalAD_chain_rule_witness :
  exists R : Evaluation.t,
    evalAD false unitSquare (Evaluation.mk (1 # 2) [1; 0])
      (Evaluation.mk (1 # 2) [0; 1]) true = Ok R.
Proof.
  apply (@evalAD_chain_rule false unitSquare (Evaluation.mk (1 # 2) [1; 0])
           (Evaluation.mk (1 # 2) [0; 1]) true).
  - exact unitSquare_reachable.
  - exact unitSquare_ready.
  - reflexivity.
  - repeat split; vm_compute; discriminate.
Defined.

(** C10. Called without an [extrapolate] argument, the scalar [eval]
    extrapolates and so can never raise NumericalIssue, while the
    derivative-propagating [eval] does not extrapolate and so, in the checked
    build, raises NumericalIssue for a query [applies] rejects. *)
Theorem default_modes (ndebug : bool) (t : Table) (x y : Scalar)
    (X Y : Evaluation.t) :
  eval_default ndebug t x y = eval ndebug t x y true /\
  eval_default ndebug t x y <> Throw NumericalIssue /\
  evalAD_default ndebug t X Y = evalAD ndebug t X Y false /\
  (applies false t (Evaluation.value X) (Evaluation.value Y) = Ok false ->
   evalAD_default false t X Y = Throw NumericalIssue).
Proof.
  split; [reflexivity|]. split.
  - unfold eval_default. rewrite eval_issue, domainCheck_extrapolate. discriminate.
  - split; [reflexivity|]. intro Happ.
    unfold evalAD_default. apply evalAD_issue, domainCheck_issue. now split.
Qed.

Lemma default_modes_witness :
  evalAD_default false unitSquare (Evaluation.mk 2 [1]) (Evaluation.mk (1 # 2) [0])
  = Throw NumericalIssue.
Proof.
  apply (@default_modes false unitSquare 2 (1 # 2)
           (Evaluation.mk 2 [1]) (Evaluation.mk (1 # 2) [0])).
  vm_compute. reflexivity.
Defined.

(** C4. The table built by [appendXPos(0)], [appendXPos(1)] and the
    samples (0, 0), (1, 1) in column 0 and (0, 2), (1, 3) in column 1
    evaluates to 1.5, the average of its four values, at (0.5, 0.5). *)
Theorem unitSquare_center (ndebug extrapolate : bool) :
  exists (T : Table) (v : Scalar),
    build ndebug unitSquare_ops emptyTable = Ok T /\
    eval ndebug T (1 # 2) (1 # 2) extrapolate = Ok v /\
    v == 3 # 2 /\
    v == (valueAt T 0 0 + valueAt T 0 1 + valueAt T 1 0 + valueAt T 1 1) / 4.
Proof.
  exists unitSquare. rewrite unitSquare_build.
  destruct ndebug, extrapolate; eexists;
    (split; [reflexivity|]); (split; [vm_compute; reflexivity|]);
    split; reflexivity.
Qed.

(** C3. [applies] is false for every [x] outside [[xMin, xMax]]; inside,
    though, it reads both y ranges from the one column [int(xToI(x))] and
    so tests [y] against that column alone.  On the table [skewed] the point
    (0.5, 1.25) lies in the blended range of the two bracketing columns and
    [applies] rejects it. *)
Theorem applies_reads_one_column :
  (forall (ndebug : bool) (t : Table) (x y : Scalar),
     x < xMin t \/ xMax t < x -> applies ndebug t x y = Ok false) /\
  (forall ndebug : bool, applies ndebug skewed (1 # 2) (5 # 4) = Ok false) /\
  applies_blended skewed (1 # 2) (5 # 4) = true.
Proof.
  split; [|split].
  - intros ndebug t x y Hx. unfold applies.
    assert (Qltb x (xMin t) || Qltb (xMax t) x = true) as ->; [|reflexivity].
    apply orb_true_iff. destruct Hx as [Hx|Hx]; [left | right]; now apply Qltb_lt.
  - intros [|]; vm_compute; reflexivity.
  - vm_compute. reflexivity.
Qed.

Lemma applies_reads_one_column_witness :
  applies false unitSquare 2 (1 # 2) = Ok false.
Proof.
  apply (proj1 applies_reads_one_column). right. vm_compute. reflexivity.
Defined.

(** [applies] is not the documented blend test: on [skewed] the blend
    accepts (0.5, 1.25) and [applies] does not. *)
Lemma applies_not_blended :
  ~ (forall (t : Table) (x y : Scalar),
       reachable t -> query_ready t ->
       applies false t x y = Ok (applies_blended t x y)).
Proof.
  intro H.
  assert (query_ready skewed) as Hready.
  { split; [vm_compute; discriminate|].
    intros i Hi. change (numX skewed) with 2%Z in Hi.
    assert (i = 0 \/ i = 1)%Z as [-> | ->] by lia; vm_compute; discriminate. }
  specialize (H skewed (1 # 2) (5 # 4) skewed_reachable Hready).
  vm_compute in H. discriminate.
Qed.

(** ** The append discipline *)

Lemma xMin_le_xMax (t : Table) :
  invariant t -> xPos_ t <> [] -> xMin t <= xMax t.
Proof.
  intros Hinv Hne.
  assert (1 <= numX t)%Z as Hn.
  { unfold numX, Vec.size. destruct (xPos_ t); [congruence | cbn; lia]. }
  rewrite xMin_get, xMax_get by assumption.
  apply ascending_get_le; [apply (inv_x Hinv) | lia | fold (numX t); lia].
Qed.

Lemma column_bounds (col : list SamplePoint) :
  ascending (map get1 col) -> col <> [] ->
  get1 (Vec.front noSample col) <= get1 (Vec.back noSample col).
Proof.
  intros Hasc Hne.
  assert (1 <= Vec.size col)%Z as Hn.
  { unfold Vec.size. destruct col; [congruence | cbn; lia]. }
  rewrite front_get, (back_get _ Hne), <- !get_map_get1.
  apply ascending_get_le; [assumption | lia | rewrite size_map_get1; lia].
Qed.

Lemma appendXPos_back (t : Table) (x : Scalar) :
  length (samples_ t) = length (xPos_ t) ->
  xPos_ t = [] \/ xMax t < x ->
  appendXPos t x
  = (Ok (numX t), mkTable (samples_ t ++ [[]]) (xPos_ t ++ [x])).
Proof.
  intros Hlen Hx. unfold appendXPos.
  assert (Vec.empty (xPos_ t) || Qltb (Vec.back 0 (xPos_ t)) x = true) as ->.
  { apply orb_true_iff. destruct Hx as [Hx|Hx].
    - left. now apply empty_nil.
    - right. now apply Qltb_lt. }
  unfold Vec.push_back. f_equal.
  - f_equal. unfold numX, Vec.size. rewrite length_app. cbn [length]. lia.
  - f_equal. rewrite length_app, Nat.add_comm. cbn [length Nat.add].
    rewrite <- Hlen. apply resize_grow.
Qed.

Lemma appendXPos_front (t : Table) (x : Scalar) :
  invariant t -> xPos_ t <> [] -> x < xMin t ->
  appendXPos t x = (Ok 0%Z, mkTable ([] :: samples_ t) (x :: xPos_ t)).
Proof.
  intros Hinv Hne Hx. unfold appendXPos.
  pose proof (xMin_le_xMax Hinv Hne) as Hle.
  assert (Vec.empty (xPos_ t) || Qltb (Vec.back 0 (xPos_ t)) x = false) as ->.
  { apply orb_false_iff. split.
    - destruct (xPos_ t); [congruence | reflexivity].
    - apply Qltb_ge. unfold xMin, xMax in *. lra. }
  assert (Qltb x (Vec.front 0 (xPos_ t)) = true) as -> by now apply Qltb_lt.
  reflexivity.
Qed.

Lemma appendXPos_reject (t : Table) (x : Scalar) :
  xPos_ t <> [] -> ~ xMax t < x -> ~ x < xMin t ->
  appendXPos t x = (Throw InvalidArgument, t).
Proof.
  intros Hne H1 H2. unfold appendXPos.
  assert (Vec.empty (xPos_ t) || Qltb (Vec.back 0 (xPos_ t)) x = false) as ->.
  { apply orb_false_iff. split.
    - destruct (xPos_ t); [congruence | reflexivity].
    - apply Qltb_ge. unfold xMax in H1. lra. }
  assert (Qltb x (Vec.front 0 (xPos_ t)) = false) as ->.
  { apply Qltb_ge. unfold xMin in H2. lra. }
  reflexivity.
Qed.

Lemma appendSamplePoint_back (ndebug : bool) (t : Table) (i : Z) (y v : Scalar) :
  (0 <= i < numX t)%Z ->
  column t i = [] \/ get1 (Vec.back noSample (column t i)) < y ->
  appendSamplePoint ndebug t i y v
  = (Ok (Vec.size (column t i)),
     mkTable (Vec.set (samples_ t) (Z.to_nat i) (column t i ++ [(xAt t i, y, v)]))
             (xPos_ t)).
Proof.
  intros Hi Hy. unfold appendSamplePoint. rewrite (iToX_ok ndebug t Hi).
  assert (Vec.empty (column t i)
          || Qltb (get1 (Vec.back noSample (column t i))) y = true) as ->.
  { apply orb_true_iff. destruct Hy as [Hy|Hy].
    - left. now apply empty_nil.
    - right. now apply Qltb_lt. }
  unfold Vec.push_back. f_equal. f_equal.
  unfold Vec.size. rewrite length_app. cbn [length]. lia.
Qed.

Lemma appendSamplePoint_front (ndebug : bool) (t : Table) (i : Z) (y v : Scalar) :
  invariant t -> (0 <= i < numX t)%Z ->
  column t i <> [] -> y < get1 (Vec.front noSample (column t i)) ->
  appendSamplePoint ndebug t i y v
  = (Ok 0%Z,
     mkTable (Vec.set (samples_ t) (Z.to_nat i) ((xAt t i, y, v) :: column t i))
             (xPos_ t)).
Proof.
  intros Hinv Hi Hne Hy. unfold appendSamplePoint. rewrite (iToX_ok ndebug t Hi).
  pose proof (column_bounds (invariant_column Hinv Hi) Hne) as Hle.
  assert (Vec.empty (column t i)
          || Qltb (get1 (Vec.back noSample (column t i))) y = false) as ->.
  { apply orb_false_iff. split.
    - destruct (column t i); [congruence | reflexivity].
    - apply Qltb_ge. lra. }
  assert (Qltb y (get1 (Vec.front noSample (column t i))) = true) as ->
    by now apply Qltb_lt.
  reflexivity.
Qed.

Lemma appendSamplePoint_reject (ndebug : bool) (t : Table) (i : Z) (y v : Scalar) :
  (0 <= i < numX t)%Z -> column t i <> [] ->
  ~ get1 (Vec.back noSample (column t i)) < y ->
  ~ y < get1 (Vec.front noSample (column t i)) ->
  appendSamplePoint ndebug t i y v = (Throw InvalidArgument, t).
Proof.
  intros Hi Hne H1 H2. unfold appendSamplePoint. rewrite (iToX_ok ndebug t Hi).
  assert (Vec.empty (column t i)
          || Qltb (get1 (Vec.back noSample (column t i))) y = false) as ->.
  { apply orb_false_iff. split.
    - destruct (column t i); [congruence | reflexivity].
    - apply Qltb_ge. lra. }
  assert (Qltb y (get1 (Vec.front noSample (column t i))) = false) as ->.
  { apply Qltb_ge. lra. }
  reflexivity.
Qed.

(** C6. [appendXPos(x)] succeeds exactly when the x sequence is empty or
    [x] lies above its maximum (a new empty column is appended and its
    index [numX - 1] returned) or below its minimum (a new empty column is
    inserted at index 0); otherwise it throws the construction error
    ([std::invalid_argument]) and the table is as before.
    [appendSamplePoint] follows the same rule on the y sequence of the
    column it names. *)
Theorem append_discipline (ndebug : bool) (t : Table) (x : Scalar) (i : Z)
    (y v : Scalar) :
  reachable t ->
  (xPos_ t = [] \/ xMax t < x ->
   let t' := mkTable (samples_ t ++ [[]]) (xPos_ t ++ [x]) in
   appendXPos t x = (Ok (numX t' - 1)%Z, t')) /\
  (xPos_ t <> [] -> x < xMin t ->
   appendXPos t x = (Ok 0%Z, mkTable ([] :: samples_ t) (x :: xPos_ t))) /\
  (xPos_ t <> [] -> ~ xMax t < x -> ~ x < xMin t ->
   appendXPos t x = (Throw InvalidArgument, t)) /\
  ((exists k t', appendXPos t x = (Ok k, t'))
   <-> xPos_ t = [] \/ xMax t < x \/ x < xMin t) /\
  ((0 <= i < numX t)%Z ->
   let col := column t i in
   let p : SamplePoint := (xAt t i, y, v) in
   (col = [] \/ lastY t i < y ->
    appendSamplePoint ndebug t i y v
    = (Ok (Vec.size (col ++ [p]) - 1)%Z,
       mkTable (Vec.set (samples_ t) (Z.to_nat i) (col ++ [p])) (xPos_ t))) /\
   (col <> [] -> y < firstY t i ->
    appendSamplePoint ndebug t i y v
    = (Ok 0%Z, mkTable (Vec.set (samples_ t) (Z.to_nat i) (p :: col)) (xPos_ t))) /\
   (col <> [] -> ~ lastY t i < y -> ~ y < firstY t i ->
    appendSamplePoint ndebug t i y v = (Throw InvalidArgument, t)) /\
   ((exists k t', appendSamplePoint ndebug t i y v = (Ok k, t'))
    <-> col = [] \/ lastY t i < y \/ y < firstY t i)).
Proof.
  intro Hreach. pose proof (reachable_invariant Hreach) as Hinv.
  assert (xPos_ t = [] \/ xMax t < x ->
          appendXPos t x
          = (Ok (numX t), mkTable (samples_ t ++ [[]]) (xPos_ t ++ [x]))) as HX1
    by (apply appendXPos_back, (inv_size Hinv)).
  split.
  { intros Hx t'. rewrite (HX1 Hx). f_equal. f_equal.
    unfold t', numX, Vec.size. cbn [xPos_]. rewrite length_app. cbn [length]. lia. }
  split; [now apply appendXPos_front|].
  split; [now apply appendXPos_reject|].
  split.
  { split.
    - intros (k & t' & Happ).
      destruct (nil_dec (xPos_ t)) as [|Hne]; [now left|right].
      destruct (Qlt_le_dec (xMax t) x) as [|H1]; [now left|right].
      destruct (Qlt_le_dec x (xMin t)) as [|H2]; [assumption|].
      rewrite appendXPos_reject in Happ; try discriminate; auto; lra.
    - intros [H|[H|H]].
      + eexists _, _. apply HX1. now left.
      + eexists _, _. apply HX1. now right.
      + destruct (nil_dec (xPos_ t)) as [He|Hne].
        * eexists _, _. apply HX1. now left.
        * eexists _, _. now apply appendXPos_front. }
  intros Hi col p. unfold lastY, firstY. fold col.
  assert (col = [] \/ get1 (Vec.back noSample col) < y ->
          appendSamplePoint ndebug t i y v
          = (Ok (Vec.size col),
             mkTable (Vec.set (samples_ t) (Z.to_nat i) (col ++ [p])) (xPos_ t)))
    as HY1 by (now apply appendSamplePoint_back).
  split.
  { intros Hy. rewrite (HY1 Hy). f_equal. f_equal.
    unfold Vec.size. rewrite length_app. cbn [length]. lia. }
  split; [now apply appendSamplePoint_front|].
  split; [now apply appendSamplePoint_reject|].
  split.
  - intros (k & t' & Happ).
    destruct (nil_dec col) as [|Hne]; [now left|right].
    destruct (Qlt_le_dec (get1 (Vec.back noSample col)) y) as [|H1]; [now left|right].
    destruct (Qlt_le_dec y (get1 (Vec.front noSample col))) as [|H2]; [assumption|].
    rewrite appendSamplePoint_reject in Happ; try discriminate; auto; fold col; lra.
  - intros [H|[H|H]].
    + eexists _, _. apply HY1. now left.
    + eexists _, _. apply HY1. now right.
    + destruct (nil_dec col) as [He|Hne].
      * eexists _, _. apply HY1. now left.
      * eexists _, _. now apply appendSamplePoint_front.
Qed.

Lemma append_discipline_witness :
  appendXPos unitSquare (1 # 2) = (Throw InvalidArgument, unitSquare) /\
  appendSamplePoint false unitSquare 1 (1 # 2) 7 = (Throw InvalidArgument, unitSquare).
Proof.
  destruct (@append_discipline false unitSquare (1 # 2) 1 (1 # 2) 7
              unitSquare_reachable) as (_ & _ & HX & _ & HY).
  split.
  - apply HX; vm_compute; congruence.
  - apply HY; vm_compute; try congruence. split; congruence.
Defined.

(** ** Insertion order *)

Lemma ascending_app_back (l r : list Scalar) (x : Scalar) :
  ascending (l ++ x :: r) -> l = [] \/ Vec.back 0 l < x.
Proof.
  intro Hasc. destruct (nil_dec l) as [|Hne]; [now left|right].
  rewrite (back_get _ Hne). unfold Vec.get, Vec.size.
  assert (0 < length l)%nat as Hlen by (destruct l; [congruence | cbn; lia]).
  replace (Z.to_nat (Z.of_nat (length l) - 1)) with (length l - 1)%nat by lia.
  specialize (Hasc (length l - 1)%nat (length l)).
  rewrite app_nth1, nth_middle in Hasc by lia.
  apply Hasc. rewrite length_app. cbn [length]. lia.
Qed.

Lemma ascending_app_front (l r : list Scalar) (x : Scalar) :
  ascending ((l ++ [x]) ++ r) -> r = [] \/ x < Vec.front 0 r.
Proof.
  intro Hasc. destruct r as [|y r]; [now left|right]. cbn.
  specialize (Hasc (length l) (S (length l))).
  rewrite <- app_assoc in Hasc. cbn [app] in Hasc.
  rewrite nth_middle in Hasc.
  replace (l ++ x :: y :: r) with ((l ++ [x]) ++ y :: r) in Hasc
    by (now rewrite <- app_assoc).
  replace (S (length l)) with (length (l ++ [x])) in Hasc
    by (rewrite length_app; cbn; lia).
  rewrite nth_middle in Hasc. apply Hasc.
  rewrite !length_app. cbn [length]. lia.
Qed.

Lemma ascending_app_r (l r : list Scalar) : ascending (l ++ r) -> ascending r.
Proof.
  induction l as [|x l IH]; [trivial|]. intro H. apply IH.
  now apply ascending_tail with x.
Qed.

Lemma emptyColumns_invariant (xs : list Scalar) :
  ascending xs -> invariant (emptyColumns xs).
Proof.
  intro Hasc. split; cbn [samples_ xPos_ emptyColumns].
  - apply repeat_length.
  - assumption.
  - intros col Hin. apply repeat_spec in Hin. subst col. apply ascending_nil.
Qed.

Lemma emptyColumns_snoc (l : list Scalar) (x : Scalar) :
  mkTable (samples_ (emptyColumns l) ++ [[]]) (l ++ [x]) = emptyColumns (l ++ [x]).
Proof.
  unfold emptyColumns. cbn [samples_]. f_equal.
  rewrite length_app. cbn [length]. now rewrite repeat_app.
Qed.

Lemma build_xs_ascending (ndebug : bool) (xs : list Scalar) :
  forall l, ascending (l ++ xs) ->
    build ndebug (appendXs xs) (emptyColumns l) = Ok (emptyColumns (l ++ xs)).
Proof.
  induction xs as [|x xs IH]; intros l Hasc.
  - cbn. now rewrite app_nil_r.
  - cbn [appendXs map build apply_op].
    rewrite appendXPos_back.
    + cbn [xPos_ emptyColumns]. fold (emptyColumns l). rewrite emptyColumns_snoc.
      fold (appendXs xs). rewrite IH by (now rewrite <- app_assoc).
      now rewrite <- app_assoc.
    + cbn. apply repeat_length.
    + eapply ascending_app_back; eassumption.
Qed.

Lemma build_xs_descending (ndebug : bool) (xs : list Scalar) :
  forall l, ascending (xs ++ l) ->
    build ndebug (appendXs (rev xs)) (emptyColumns l) = Ok (emptyColumns (xs ++ l)).
Proof.
  induction xs as [|a xs IH] using rev_ind; intros l Hasc.
  - reflexivity.
  - rewrite rev_app_distr. cbn [rev app appendXs map build apply_op].
    assert (appendXPos (emptyColumns l) a = (Ok 0%Z, emptyColumns (a :: l))) as ->.
    { destruct l as [|y l]; [reflexivity|].
      destruct (@ascending_app_front xs (y :: l) a Hasc) as [|Hlt];
        [discriminate|].
      apply appendXPos_front; auto.
      - apply emptyColumns_invariant. now apply ascending_app_r in Hasc.
      - discriminate. }
    fold (appendXs (rev xs)). rewrite IH by (now rewrite <- app_assoc in Hasc).
    now rewrite <- app_assoc.
Qed.

Lemma set_set (A : Type) (v : list A) (i : nat) (a b : A) :
  Vec.set (Vec.set v i a) i b = Vec.set v i b.
Proof.
  revert i. induction v as [|c v IH]; intros [|i]; cbn; auto. now rewrite IH.
Qed.

Lemma set_same (A : Type) (d : A) (v : list A) (i : nat) :
  Vec.set v i (nth i v d) = v.
Proof.
  revert i. induction v as [|c v IH]; intros [|i]; cbn; auto. now rewrite IH.
Qed.

Section OneColumn.
Variable ndebug : bool.
Variable t : Table.
Variable i : Z.
Hypothesis Hinv : invariant t.
Hypothesis Hi : (0 <= i < numX t)%Z.

Lemma withColumn_column (c : list SamplePoint) : column (withColumn t i c) i = c.
Proof.
  unfold column, withColumn, Vec.get. cbn [samples_]. apply nth_set.
  pose proof (inv_size Hinv). unfold numX, Vec.size in *. lia.
Qed.

Lemma withColumn_twice (c c' : list SamplePoint) :
  withColumn (withColumn t i c) i c' = withColumn t i c'.
Proof. unfold withColumn. cbn [samples_ xPos_]. now rewrite set_set. Qed.

Lemma withColumn_same : withColumn t i (column t i) = t.
Proof.
  unfold withColumn, column, Vec.get. rewrite set_same. now destruct t.
Qed.

Lemma withColumn_invariant (c : list SamplePoint) :
  ascending (map get1 c) -> invariant (withColumn t i c).
Proof.
  intro Hc. destruct Hinv as [Hlen Hx Hy]. split; cbn [withColumn samples_ xPos_].
  - now rewrite length_set.
  - assumption.
  - intros col Hin. apply In_set in Hin. destruct Hin as [->|Hin]; auto.
Qed.

Lemma append_to_column_back (c : list SamplePoint) (y v : Scalar) :
  c = [] \/ get1 (Vec.back noSample c) < y ->
  fst (appendSamplePoint ndebug (withColumn t i c) i y v) = Ok (Vec.size c) /\
  snd (appendSamplePoint ndebug (withColumn t i c) i y v)
  = withColumn t i (c ++ [(xAt t i, y, v)]).
Proof.
  intro Hy. rewrite appendSamplePoint_back.
  - rewrite withColumn_column. cbn [fst snd]. split; [reflexivity|].
    apply withColumn_twice.
  - exact Hi.
  - now rewrite withColumn_column.
Qed.

Lemma append_to_column_front (c : list SamplePoint) (y v : Scalar) :
  ascending (map get1 c) -> c <> [] -> y < get1 (Vec.front noSample c) ->
  appendSamplePoint ndebug (withColumn t i c) i y v
  = (Ok 0%Z, withColumn t i ((xAt t i, y, v) :: c)).
Proof.
  intros Hc Hne Hy. rewrite appendSamplePoint_front.
  - rewrite withColumn_column. f_equal. apply withColumn_twice.
  - now apply withColumn_invariant.
  - exact Hi.
  - now rewrite withColumn_column.
  - now rewrite withColumn_column.
Qed.

Lemma build_ys_ascending (pts : list (Scalar * Scalar)) :
  forall c, ascending (map get1 c ++ map fst pts) ->
    build ndebug (appendYs i pts) (withColumn t i c)
    = Ok (withColumn t i (c ++ pointsAt (xAt t i) pts)).
Proof.
  induction pts as [|p pts IH]; intros c Hasc.
  - cbn. now rewrite app_nil_r.
  - cbn [appendYs map build apply_op pointsAt].
    destruct (@append_to_column_back c (fst p) (snd p)) as [Hfst Hsnd].
    { cbn [map] in Hasc. apply ascending_app_back in Hasc.
      destruct Hasc as [Hnil|Hlt].
      - left. now apply map_eq_nil in Hnil.
      - right. now rewrite <- back_map_get1. }
    destruct (appendSamplePoint ndebug (withColumn t i c) i (fst p) (snd p))
      as [o T]. cbn [fst snd] in *. subst o T.
    fold (appendYs i pts). rewrite IH.
    + fold (pointsAt (xAt t i) pts). now rewrite <- app_assoc.
    + rewrite map_app. cbn [map get1 fst snd]. now rewrite <- app_assoc.
Qed.

Lemma build_ys_descending (pts : list (Scalar * Scalar)) :
  forall c, ascending (map fst pts ++ map get1 c) ->
    build ndebug (appendYs i (rev pts)) (withColumn t i c)
    = Ok (withColumn t i (pointsAt (xAt t i) pts ++ c)).
Proof.
  induction pts as [|p pts IH] using rev_ind; intros c Hasc.
  - reflexivity.
  - rewrite rev_app_distr. cbn [rev app appendYs map build apply_op].
    rewrite map_app in Hasc. cbn [map] in Hasc.
    assert (appendSamplePoint ndebug (withColumn t i c) i (fst p) (snd p)
            = (Ok 0%Z, withColumn t i ((xAt t i, fst p, snd p) :: c))) as ->.
    { destruct c as [|q c].
      - destruct (@append_to_column_back [] (fst p) (snd p)) as [Hfst Hsnd];
          [now left|].
        destruct (appendSamplePoint ndebug (withColumn t i []) i (fst p) (snd p))
          as [o T]. cbn [fst snd] in *. now subst o T.
      - apply append_to_column_front.
        + now apply ascending_app_r in Hasc.
        + discriminate.
        + apply ascending_app_front in Hasc.
          destruct Hasc as [|Hlt]; [discriminate|].
          now rewrite <- front_map_get1. }
    fold (appendYs i (rev pts)). rewrite IH.
    + unfold pointsAt. rewrite map_app. cbn [map]. now rewrite <- app_assoc.
    + cbn [map get1 fst snd]. now rewrite <- app_assoc in Hasc.
Qed.
End OneColumn.

(** C7. After every successful [appendXPos] and [appendSamplePoint] the
    stored x sequence is strictly ascending and so is the y sequence of
    every column.  Appending the same x positions in strictly increasing or
    in strictly decreasing order succeeds both ways and gives the same
    table, with the positions stored in ascending order; likewise for the
    sample points of one column. *)
Theorem insertion_order (ndebug : bool) (t : Table) (o : op) (k : Z)
    (t' : Table) (xs : list Scalar) (i : Z) (pts : list (Scalar * Scalar)) :
  reachable t ->
  (apply_op ndebug o t = (Ok k, t') ->
   ascending (xPos_ t') /\ forall c, ascending (map get1 (column t' c))) /\
  (ascending xs ->
   build ndebug (appendXs xs) emptyTable = Ok (emptyColumns xs) /\
   build ndebug (appendXs (rev xs)) emptyTable = Ok (emptyColumns xs) /\
   xPos_ (emptyColumns xs) = xs) /\
  ((0 <= i < numX t)%Z -> column t i = [] -> ascending (map fst pts) ->
   let T := withColumn t i (pointsAt (xAt t i) pts) in
   build ndebug (appendYs i pts) t = Ok T /\
   build ndebug (appendYs i (rev pts)) t = Ok T /\
   map get1 (column T i) = map fst pts).
Proof.
  intro Hreach. pose proof (reachable_invariant Hreach) as Hinv.
  split; [|split].
  - intro Happ.
    assert (invariant t') as Hinv'.
    { apply reachable_invariant. eapply apply_op_reachable; eassumption. }
    split; [apply (inv_x Hinv')|].
    intro c. unfold column, Vec.get.
    destruct (Nat.lt_ge_cases (Z.to_nat c) (length (samples_ t'))) as [Hlt|Hge].
    + apply (inv_y Hinv'). now apply nth_In.
    + rewrite nth_overflow by assumption. apply ascending_nil.
  - intro Hxs. split; [|split; [|reflexivity]].
    + apply (@build_xs_ascending ndebug xs []). exact Hxs.
    + pose proof (@build_xs_descending ndebug xs []) as H.
      rewrite app_nil_r in H. now apply H.
  - intros Hi Hcol Hpts T.
    pose proof (@build_ys_ascending ndebug t i Hinv Hi pts []) as Hup.
    pose proof (@build_ys_descending ndebug t i Hinv Hi pts []) as Hdown.
    rewrite <- Hcol, (withColumn_same Hinv Hi) in Hup, Hdown.
    rewrite Hcol in Hup, Hdown. cbn [map app] in Hup, Hdown.
    rewrite !app_nil_r in Hdown.
    split; [now apply Hup|]. split; [now apply Hdown|].
    unfold T. rewrite (withColumn_column Hinv Hi).
    unfold pointsAt. rewrite map_map. cbn [get1 fst snd]. reflexivity.
Qed.

Lemma insertion_order_witness :
  build false (appendXs [0; 1; 2]) emptyTable = Ok (emptyColumns [0; 1; 2]) /\
  build false (appendXs [2; 1; 0]) emptyTable = Ok (emptyColumns [0; 1; 2]).
Proof.
  destruct (@insertion_order false emptyTable (AppendXPos 0) 0 emptyTable
              [0; 1; 2] 0 [] reach_empty) as (_ & Hx & _).
  destruct Hx as (Hup & Hdown & _).
  - intros a b Hab. cbn [length] in Hab.
    assert ((a = 0 /\ b = 1) \/ (a = 0 /\ b = 2) \/ (a = 1 /\ b = 2))%nat
      as [[-> ->]|[[-> ->]|[-> ->]]] by lia; reflexivity.
  - split; assumption.
Defined.


(** * Further properties of the table *)

(** ** The y mapping routine *)

(** X1. On a column with at least two points, [yToJ] returns
    [lowerIdx + (y - y[lowerIdx]) / (y[lowerIdx+1] - y[lowerIdx])] for an
    interval [lowerIdx] of the column that holds [y]; below the column it
    is the first interval and at or above its last point the last one. *)
Theorem yToJ_interval (ndebug : bool) (t : Table) (i : Z) (y : Scalar)
    (extrapolate : bool) :
  reachable t -> (0 <= i < numX t)%Z -> (2 <= Vec.size (column t i))%Z ->
  (extrapolate = false -> inYRange t i y) ->
  exists lowerIdx : Z,
    yToJ ndebug t i y extrapolate
    = Ok (inject_Z lowerIdx
          + (y - yAt t i lowerIdx) / (yAt t i (lowerIdx + 1) - yAt t i lowerIdx)) /\
    (0 <= lowerIdx <= Vec.size (column t i) - 2)%Z /\
    (yAt t i 0 <= y -> yAt t i lowerIdx <= y) /\
    (y < yAt t i (Vec.size (column t i) - 1) -> y < yAt t i (lowerIdx + 1)) /\
    (y < yAt t i 0 -> lowerIdx = 0%Z) /\
    (yAt t i (Vec.size (column t i) - 1) <= y ->
     lowerIdx = (Vec.size (column t i) - 2)%Z).
Proof.
  intros Hreach Hi Hm Hpre.
  pose proof (reachable_invariant Hreach) as Hinv.
  pose proof (invariant_column Hinv Hi) as Hasc.
  assert (extrapolate = true \/
          (yOf (column t i) 0 <= y /\
           y <= yOf (column t i) (Vec.size (column t i) - 1))) as Hpre'.
  { destruct extrapolate; [now left | right; now apply Hpre]. }
  destruct (@yToJ_ok ndebug t i y extrapolate (inv_size Hinv) Hi Hm Hpre')
    as (Hval & (Hs & Hlo & _) & Hhi).
  rewrite size_map_get1 in Hs. rewrite get_map_get1 in Hlo.
  set (s := ySegment (column t i) y) in *.
  set (m := Vec.size (column t i)) in *.
  exists s. split.
  { rewrite Hval. unfold yPosition, interp. fold s.
    rewrite !get_map_get1. reflexivity. }
  split; [exact Hs|].
  change (yOf (column t i) s) with (yAt t i s) in Hlo.
  change (yOf (column t i) (s + 1)) with (yAt t i (s + 1)) in Hhi.
  assert (forall a b, (0 <= a <= b)%Z -> (b < m)%Z -> yAt t i a <= yAt t i b)
    as Hmono.
  { intros a b Hab Hb. rewrite !yAt_get.
    apply ascending_get_le; auto. now rewrite size_map_get1. }
  split; [|split; [|split]].
  - intro H0. destruct Hlo as [->|]; assumption.
  - intro Hlast. destruct Hhi as [->|]; [|assumption].
    now replace (m - 2 + 1)%Z with (m - 1)%Z by lia.
  - intro H0. destruct Hlo as [|Hlo]; [assumption|].
    pose proof (Hmono 0%Z s ltac:(lia) ltac:(lia)). lra.
  - intro Hlast. destruct Hhi as [|Hhi]; [assumption|].
    pose proof (Hmono (s + 1)%Z (m - 1)%Z ltac:(lia) ltac:(lia)). lra.
Qed.

Lemma yToJ_interval_witness :
  exists lowerIdx : Z,
    yToJ false skewed 1 (3 # 2) false
    = Ok (inject_Z lowerIdx
          + ((3 # 2) - yAt skewed 1 lowerIdx)
            / (yAt skewed 1 (lowerIdx + 1) - yAt skewed 1 lowerIdx)) /\
    (0 <= lowerIdx <= Vec.size (column skewed 1) - 2)%Z.
Proof.
  destruct (@yToJ_interval false skewed 1 (3 # 2) false) as (s & H1 & H2 & _).
  - exact skewed_reachable.
  - vm_compute. split; congruence.
  - vm_compute. discriminate.
  - intros _. vm_compute. split; discriminate.
  - exists s. split; assumption.
Defined.

(** ** The x coordinate stored with a sample *)

Lemma nth_snoc_nil (A : Type) (v : list (list A)) (i : nat) :
  (length v <= i)%nat -> nth i (v ++ [[]]) [] = [].
Proof.
  intro H. rewrite app_nth2 by assumption.
  destruct (i - length v)%nat as [|[|k]]; reflexivity.
Qed.

Lemma appendXPos_x_consistent (t t' : Table) (x : Scalar) (i : Z) :
  invariant t -> x_consistent t -> appendXPos t x = (Ok i, t') -> x_consistent t'.
Proof.
  intros Hinv Hc Happ. pose proof (inv_size Hinv) as Hlen.
  unfold appendXPos in Happ.
  destruct (Vec.empty (xPos_ t) || Qltb (Vec.back 0 (xPos_ t)) x).
  - injection Happ as _ <-.
    unfold Vec.push_back. rewrite length_app, Nat.add_comm. cbn [length Nat.add].
    rewrite <- Hlen, resize_grow.
    intros k p Hin. cbn [samples_ xPos_] in *.
    destruct (Nat.lt_ge_cases k (length (samples_ t))) as [Hk|Hk].
    + rewrite app_nth1 in Hin by assumption.
      rewrite app_nth1 by lia. now apply Hc.
    + rewrite nth_snoc_nil in Hin by assumption. destruct Hin.
  - destruct (Qltb x (Vec.front 0 (xPos_ t))); [|discriminate].
    injection Happ as _ <-. unfold Vec.insert_begin.
    intros [|k] p Hin; cbn [samples_ xPos_ nth] in *; [destruct Hin|].
    now apply Hc.
Qed.

Lemma appendSamplePoint_x_consistent (ndebug : bool) (t t' : Table) (i k : Z)
    (y v : Scalar) :
  invariant t -> x_consistent t ->
  appendSamplePoint ndebug t i y v = (Ok k, t') -> x_consistent t'.
Proof.
  intros Hinv Hc Happ. pose proof (inv_size Hinv) as Hlen.
  unfold appendSamplePoint in Happ.
  destruct (assert ndebug _ ;; iToX ndebug t i) as [x| |] eqn:Ex;
    try discriminate.
  apply iToX_inv in Ex. destruct Ex as [Hi ->].
  assert (Z.to_nat i < length (samples_ t))%nat as Hi'.
  { unfold numX, Vec.size in Hi. lia. }
  assert (forall col',
            (forall p, In p col' ->
                       p = (xAt t i, y, v) \/ In p (column t i)) ->
            x_consistent (mkTable (Vec.set (samples_ t) (Z.to_nat i) col') (xPos_ t)))
    as Hset.
  { intros col' Hcol' n p Hin. cbn [samples_ xPos_] in *.
    destruct (Nat.eq_dec (Z.to_nat i) n) as [<-|Hne].
    - rewrite nth_set in Hin by assumption.
      destruct (Hcol' _ Hin) as [->|Hold]; [reflexivity|].
      now apply Hc.
    - rewrite nth_set_other in Hin by assumption. now apply Hc. }
  destruct (Vec.empty (column t i) || Qltb _ y).
  - injection Happ as _ <-. apply Hset. intros p Hin.
    unfold Vec.push_back in Hin. apply in_app_or in Hin.
    destruct Hin as [|[<-|[]]]; auto.
  - destruct (Qltb y _); [|discriminate].
    injection Happ as _ <-. apply Hset. intros p [<-|Hin]; auto.
Qed.

Lemma reachable_x_consistent (t : Table) : reachable t -> x_consistent t.
Proof.
  induction 1 as [|t x i t' Hr IH Happ|nd t i y v k t' Hr IH Happ].
  - intros [|i] p Hin; destruct Hin.
  - eapply appendXPos_x_consistent; eauto using reachable_invariant.
  - eapply appendSamplePoint_x_consistent; eauto using reachable_invariant.
Qed.

(** X2. The x coordinate stored in a sample point is the x position of
    the column that holds it, also after columns were inserted in front
    of it. *)
Theorem sample_x_is_column_x (t : Table) (i j : Z) :
  reachable t -> (0 <= i < numX t)%Z -> (0 <= j < Vec.size (column t i))%Z ->
  get0 (sample t i j) = xAt t i.
Proof.
  intros Hreach Hi Hj.
  apply (reachable_x_consistent Hreach (Z.to_nat i)).
  unfold sample, column, Vec.get, Vec.size in *. apply nth_In. lia.
Qed.

Lemma sample_x_is_column_x_witness : get0 (sample skewed 1 1) = xAt skewed 1.
Proof.
  apply sample_x_is_column_x.
  - exact skewed_reachable.
  - vm_compute. split; congruence.
  - vm_compute. split; congruence.
Defined.

(** ** Truncated positions inside the table *)

Lemma static_cast_int_floor (a : Scalar) :
  0 <= a ->
  inject_Z (static_cast_int a) <= a /\ a < inject_Z (static_cast_int a + 1).
Proof.
  intro Ha.
  assert (static_cast_int a = Qfloor a) as ->.
  { unfold static_cast_int, Qfloor. destruct a as [n d]. cbn [Qnum Qden].
    apply Z.quot_div_nonneg; [|lia].
    unfold Qle in Ha. cbn in Ha. lia. }
  split; [apply Qfloor_le | apply Qlt_floor].
Qed.

Lemma offset_in_unit (n : Z) (a : Scalar) :
  (2 <= n)%Z -> 0 <= a -> a <= inject_Z (n - 1) ->
  0 <= a - inject_Z (clampIdx n a) /\ a - inject_Z (clampIdx n a) <= 1.
Proof.
  intros Hn H0 H1. destruct (static_cast_int_floor H0) as [Hlo Hhi].
  assert (0 <= static_cast_int a)%Z as Hc0.
  { apply (@static_cast_int_lower 0 a); [lia | exact H0]. }
  assert (static_cast_int a <= n - 1)%Z as Hc1.
  { rewrite Zle_Qle. lra. }
  unfold clampIdx.
  destruct (Z.le_gt_cases (static_cast_int a) (n - 2)) as [Hle|Hgt].
  - replace (Z.max 0 (Z.min (n - 2) (static_cast_int a)))
      with (static_cast_int a) by lia.
    rewrite inject_Z_plus in Hhi. change (inject_Z 1) with 1 in Hhi. lra.
  - replace (Z.max 0 (Z.min (n - 2) (static_cast_int a))) with (n - 1 - 1)%Z by lia.
    assert (static_cast_int a = n - 1)%Z as Heq by lia. rewrite Heq in Hlo.
    rewrite inject_Z_pred. lra.
Qed.

Section Column.
Variable l : list Scalar.
Hypothesis Hasc : ascending l.

(** The truncated position of an in-range coordinate is the sample at or
    next below it. *)
Lemma truncated_position (s : Z) (x : Scalar) :
  bracket l s x -> Vec.get 0 l 0 <= x -> x <= Vec.get 0 l (Vec.size l - 1) ->
  let c := static_cast_int (interp l s x) in
  (0 <= c <= Vec.size l - 1)%Z /\
  Vec.get 0 l c <= x /\
  ((c < Vec.size l - 1)%Z -> x < Vec.get 0 l (c + 1)).
Proof.
  intros Hbr H0 Hn c.
  destruct (interp_within Hasc Hbr H0 Hn) as [Hlo Hhi].
  pose proof Hbr as (Hs & Hblo & Hbhi).
  assert (Vec.get 0 l s <= x) as Hsx by (destruct Hblo as [->|]; assumption).
  assert (x <= Vec.get 0 l (s + 1)) as Hxs.
  { destruct Hbhi as [->|]; [|assumption].
    now replace (Vec.size l - 2 + 1)%Z with (Vec.size l - 1)%Z by lia. }
  destruct (Qlt_le_dec x (Vec.get 0 l (s + 1))) as [Hlt|Hge].
  - assert (c = s) as ->.
    { unfold c. unfold clampIdx.
      pose proof (@static_cast_int_lower s (interp l s x) ltac:(lia) Hlo).
      assert (interp l s x < inject_Z (s + 1)) as Hup.
      { rewrite <- (interp_hi Hasc Hs). now apply interp_lt. }
      pose proof (@static_cast_int_upper s (interp l s x) ltac:(lia) Hup).
      lia. }
    repeat split; try lia; auto.
  - assert (x == Vec.get 0 l (s + 1)) as Hx by (apply Qle_antisym; assumption).
    assert (c = (s + 1)%Z) as ->.
    { unfold c. apply static_cast_int_inject.
      rewrite (interp_eq l s Hx). now apply interp_hi. }
    repeat split; try lia; auto.
    intro Hc. apply Qle_lt_trans with (Vec.get 0 l (s + 1)); [assumption|].
    apply ascending_get; auto; lia.
Qed.
End Column.

Lemma applies_in_range (ndebug : bool) (t : Table) (x y : Scalar) :
  invariant t -> (2 <= numX t)%Z -> xMin t <= x -> x <= xMax t ->
  let c := static_cast_int (xPosition t x) in
  (0 <= c <= numX t - 1)%Z /\
  xAt t c <= x /\ ((c < numX t - 1)%Z -> x < xAt t (c + 1)) /\
  applies ndebug t x y = Ok (Qle_bool (firstY t c) y && Qle_bool y (lastY t c)).
Proof.
  intros Hinv Hn E1 E2 c. unfold applies.
  assert (Qltb x (xMin t) || Qltb (xMax t) x = false) as ->.
  { apply orb_false_iff. split; now apply Qltb_ge. }
  destruct (@xToI_ok ndebug t x false (inv_x Hinv) Hn (or_intror (conj E1 E2)))
    as (-> & Hbr & _).
  cbn [bind].
  rewrite xMin_get in E1. rewrite xMax_get in E2 by lia.
  destruct (truncated_position (inv_x Hinv) Hbr E1 E2) as (Hc & Hlo & Hhi).
  fold (xPosition t x) in Hc, Hlo, Hhi. fold c in Hc, Hlo, Hhi.
  fold (numX t) in Hc, Hhi.
  split; [exact Hc|]. split; [exact Hlo|]. split; [exact Hhi|].
  assert (0 <= c < Vec.size (samples_ t))%Z as Hc'.
  { pose proof (inv_size Hinv). unfold numX, Vec.size in *. lia. }
  fold c. rewrite (at_ok [] _ Hc'). cbn [bind]. fold (column t c).
  fold (firstY t c) (lastY t c). f_equal. f_equal.
  - apply Qleb_comp; [ring | reflexivity].
  - apply Qleb_comp; [reflexivity | ring].
Qed.

(** X3. For [x] in [[xMin, xMax]], [applies(x, y)] tests [y] against the y
    range of one column only: the column [c] at or next below [x]
    ([xAt(c) <= x < xAt(c+1)], or the last column for [x = xMax]). *)
Theorem applies_one_column (ndebug : bool) (t : Table) (x y : Scalar) :
  reachable t -> query_ready t -> inXRange t x ->
  exists c : Z,
    (0 <= c <= numX t - 1)%Z /\
    xAt t c <= x /\ ((c < numX t - 1)%Z -> x < xAt t (c + 1)) /\
    (applies ndebug t x y = Ok true \/ applies ndebug t x y = Ok false) /\
    (applies ndebug t x y = Ok true
     <-> yAt t c 0 <= y /\ y <= yAt t c (Vec.size (column t c) - 1)).
Proof.
  intros Hreach [Hn Hcols] [E1 E2].
  pose proof (reachable_invariant Hreach) as Hinv.
  destruct (@applies_in_range ndebug t x y Hinv Hn E1 E2) as (Hc & Hlo & Hhi & Happ).
  set (c := static_cast_int (xPosition t x)) in *.
  exists c. split; [exact Hc|]. split; [exact Hlo|]. split; [exact Hhi|].
  assert (column t c <> []) as Hne.
  { apply size_nonempty. pose proof (Hcols c ltac:(lia)). lia. }
  assert (firstY t c = yAt t c 0) as Hf.
  { unfold firstY, yAt, sample. now rewrite front_get. }
  assert (lastY t c = yAt t c (Vec.size (column t c) - 1)) as Hl.
  { unfold lastY, yAt, sample. now rewrite (back_get _ Hne). }
  rewrite Happ, Hf, Hl. split.
  - match goal with |- Ok ?b = _ \/ _ => destruct b end; [now left | now right].
  - split.
    + intro H. injection H as H. apply andb_true_iff in H.
      destruct H as [H1 H2]. split; now apply Qle_bool_iff.
    + intros [H1 H2]. apply Qle_bool_iff in H1, H2. now rewrite H1, H2.
Qed.

Lemma applies_one_column_witness :
  exists c : Z,
    (0 <= c <= numX skewed - 1)%Z /\
    xAt skewed c <= 1 # 2 /\
    ((c < numX skewed - 1)%Z -> 1 # 2 < xAt skewed (c + 1)) /\
    (applies false skewed (1 # 2) (5 # 4) = Ok true
     <-> yAt skewed c 0 <= 5 # 4 /\ 5 # 4 <= yAt skewed c (Vec.size (column skewed c) - 1)).
Proof.
  destruct (@applies_one_column false skewed (1 # 2) (5 # 4))
    as (c & H1 & H2 & H3 & _ & H5).
  - exact skewed_reachable.
  - split; [vm_compute; discriminate|].
    intros i Hi. change (numX skewed) with 2%Z in Hi.
    assert (i = 0 \/ i = 1)%Z as [-> | ->] by lia; vm_compute; discriminate.
  - split; vm_compute; discriminate.
  - exists c. split; [exact H1|]. split; [exact H2|]. split; [exact H3|]. exact H5.
Defined.

(** X4. [applies] accepts the coordinates of every stored sample. *)
Theorem applies_at_samples (ndebug : bool) (t : Table) (i j : Z) :
  reachable t -> query_ready t ->
  (0 <= i < numX t)%Z -> (0 <= j < Vec.size (column t i))%Z ->
  applies ndebug t (xAt t i) (yAt t i j) = Ok true.
Proof.
  intros Hreach [Hn Hcols] Hi Hj.
  pose proof (reachable_invariant Hreach) as Hinv.
  pose proof (inv_x Hinv) as Hasc.
  assert (xMin t <= xAt t i) as E1.
  { rewrite xMin_get. apply ascending_get_le; auto; unfold numX in *; lia. }
  assert (xAt t i <= xMax t) as E2.
  { rewrite xMax_get by lia. apply ascending_get_le; auto; unfold numX in *; lia. }
  destruct (@applies_in_range ndebug t (xAt t i) (yAt t i j) Hinv Hn E1 E2)
    as (_ & _ & _ & ->).
  rewrite (static_cast_int_inject (@xPosition_node true t i Hinv Hn Hi)).
  assert (column t i <> []) as Hne by (apply size_nonempty; lia).
  pose proof (invariant_column Hinv Hi) as Hcol.
  unfold firstY, lastY. rewrite front_get, (back_get _ Hne), <- !get_map_get1.
  rewrite yAt_get.
  assert (Qle_bool (Vec.get 0 (map get1 (column t i)) 0)
            (Vec.get 0 (map get1 (column t i)) j) = true) as ->.
  { apply Qle_bool_iff, ascending_get_le; auto; rewrite ?size_map_get1; lia. }
  assert (Qle_bool (Vec.get 0 (map get1 (column t i)) j)
            (Vec.get 0 (map get1 (column t i)) (Vec.size (column t i) - 1)) = true)
    as ->.
  { apply Qle_bool_iff, ascending_get_le; auto; rewrite ?size_map_get1; lia. }
  reflexivity.
Qed.

Lemma skewed_ready : query_ready skewed.
Proof.
  split; [vm_compute; discriminate|].
  intros i Hi. change (numX skewed) with 2%Z in Hi.
  assert (i = 0 \/ i = 1)%Z as [-> | ->] by lia; vm_compute; discriminate.
Qed.

Lemma applies_at_samples_witness :
  applies false skewed (xAt skewed 1) (yAt skewed 1 1) = Ok true.
Proof.
  apply applies_at_samples.
  - exact skewed_reachable.
  - exact skewed_ready.
  - vm_compute. split; congruence.
  - vm_compute. split; congruence.
Defined.

(** ** The NDEBUG build *)

Lemma xToI_ndebug (t : Table) (x : Scalar) (e : bool) :
  xToI true t x e = Ok (xPosition t x).
Proof.
  unfold xToI, xPosition, xSegment, interp, assert. cbn [bind].
  destruct (Qle_bool x _); [reflexivity|].
  destruct (Qle_bool _ x); reflexivity.
Qed.

Lemma yToJ_ndebug (t : Table) (i : Z) (y : Scalar) (e : bool) :
  (0 <= i < Vec.size (samples_ t))%Z ->
  yToJ true t i y e = Ok (yPosition t i y).
Proof.
  intro Hi. unfold yToJ, yPosition, ySegment, interp, assert, assertM.
  cbn [bind]. rewrite (at_ok [] _ Hi). cbn [bind]. fold (column t i).
  now rewrite !get_map_get1.
Qed.

(** X5. Compiled with [NDEBUG], neither [eval] overload looks at
    [extrapolate] or at the domain: on a query-ready table both return the
    extrapolating bilinear blend for either flag, which is what the checked
    build returns when asked to extrapolate, at every point for which the
    conversions to [int] are defined. *)
Theorem ndebug_ignores_flag (t : Table) (x y : Scalar) (X Y : Evaluation.t)
    (extrapolate : bool) :
  reachable t -> query_ready t ->
  casts_defined t x y ->
  casts_defined t (Evaluation.value X) (Evaluation.value Y) ->
  eval true t x y extrapolate = Ok (bilinear t x y) /\
  fmap Evaluation.value (evalAD true t X Y extrapolate)
  = Ok (bilinear t (Evaluation.value X) (Evaluation.value Y)) /\
  eval true t x y extrapolate = eval false t x y true.
Proof.
  intros Hreach [Hn Hcols] _ _. pose proof (reachable_invariant Hreach) as Hinv.
  assert (forall a b, eval true t a b extrapolate = Ok (bilinear t a b)) as Hev.
  { intros a b. unfold eval, domainCheck. cbn [bind].
    rewrite xToI_ndebug. cbn [bind]. fold (cellI t a).
    pose proof (cellI_range t a Hn) as Hi.
    pose proof (inv_size Hinv) as Hlen.
    rewrite !yToJ_ndebug by (unfold numX, Vec.size in *; lia).
    cbn [bind]. rewrite !numY_ok by (auto; lia). reflexivity. }
  split; [apply Hev|]. split; [rewrite evalAD_value; apply Hev|].
  rewrite Hev. symmetry. apply eval_ok; [assumption | now split].
Qed.

Lemma ndebug_ignores_flag_witness :
  eval true skewed 5 (-3) false = Ok (bilinear skewed 5 (-3)).
Proof.
  apply (@ndebug_ignores_flag skewed 5 (-3) (Evaluation.mk 5 []) (Evaluation.mk (-3) []) false).
  - exact skewed_reachable.
  - exact skewed_ready.
  - repeat split; vm_compute; discriminate.
  - repeat split; vm_compute; discriminate.
Defined.

(** ** Evaluation on a column and inside a cell *)

Lemma xOffset_lo (t : Table) (i : Z) (x : Scalar) :
  x == xAt t i -> xOffset t i x == 0.
Proof. intro Hx. unfold xOffset, Qdiv. rewrite Hx. ring. Qed.

Lemma xOffset_hi (t : Table) (i : Z) (x : Scalar) :
  invariant t -> (0 <= i <= numX t - 2)%Z -> x == xAt t (i + 1) ->
  xOffset t i x == 1.
Proof.
  intros Hinv Hi Hx.
  pose proof (@ascending_get (xPos_ t) i (i + 1) (inv_x Hinv) ltac:(lia)
                ltac:(unfold numX in Hi; lia)) as Hlt.
  fold (xAt t i) (xAt t (i + 1)) in Hlt.
  unfold xOffset. rewrite Hx. field. lra.
Qed.

(** X6. Along x the interpolant is linear between neighbouring columns:
    for [xAt(i) <= x <= xAt(i+1)], [eval(x, y)] is the mean of the linear
    interpolations along column [i] and along column [i+1], weighted by the
    position of [x] between the two column positions.  At a column position
    only that column counts; the value at [xAt(i+1)] is the same whether it
    is read as the upper end of interval [i] or as the lower end of interval
    [i+1], so the interpolant is continuous across column positions. *)
Theorem eval_linear_in_x (ndebug : bool) (t : Table) (i : Z) (x y : Scalar) :
  reachable t -> query_ready t -> (0 <= i <= numX t - 2)%Z ->
  xAt t i <= x -> x <= xAt t (i + 1) ->
  casts_defined t x y ->
  exists v : Scalar,
    eval ndebug t x y true = Ok v /\
    v == columnInterp t i y * (1 - xOffset t i x)
         + columnInterp t (i + 1) y * xOffset t i x /\
    (x == xAt t i -> v == columnInterp t i y) /\
    (x == xAt t (i + 1) -> v == columnInterp t (i + 1) y).
Proof.
  intros Hreach Hready Hi Hlo Hhi _.
  pose proof (reachable_invariant Hreach) as Hinv.
  pose proof Hready as [Hn Hcols].
  exists (bilinear t x y). split; [now apply eval_ok|].
  assert (bilinear t x y
          == columnInterp t i y * (1 - xOffset t i x)
             + columnInterp t (i + 1) y * xOffset t i x) as Hv.
  { destruct (cellI_xCell x Hinv Hn) as [Hxc Hxo].
    assert (forall c, cellI t x = c ->
              bilinear t x y
              == columnInterp t c y * (1 - xOffset t c x)
                 + columnInterp t (c + 1) y * xOffset t c x) as Hcell.
    { intros c Ec. unfold bilinear.
      rewrite (blend_comp _ _ _ _ Hxo (Qeq_refl _) (Qeq_refl _)).
      rewrite Ec. unfold blend, columnInterp. ring. }
    assert (xCell t i x \/ ((i + 1 <= numX t - 2)%Z /\ x == xAt t (i + 1)))
      as [Hc|[Hi1 Hx]].
    { destruct (Qlt_le_dec x (xAt t (i + 1))) as [Hlt|Hge].
      - left. split; [exact Hi|]. split; [now right | now right].
      - destruct (Z.le_gt_cases (i + 1) (numX t - 2)) as [Hle|Hgt].
        + right. split; [exact Hle | now apply Qle_antisym].
        + left. split; [exact Hi|]. split; [now right | left; lia]. }
    - apply Hcell. exact (xCell_unique Hinv Hxc Hc).
    - assert (xCell t (i + 1) x) as Hc.
      { split; [lia|]. split; [right; lra|]. right.
        pose proof (@ascending_get (xPos_ t) (i + 1) (i + 1 + 1) (inv_x Hinv)
                      ltac:(lia) ltac:(unfold numX in Hi1; lia)) as Hlt.
        fold (xAt t (i + 1)) (xAt t (i + 1 + 1)) in Hlt. lra. }
      rewrite (Hcell _ (xCell_unique Hinv Hxc Hc)).
      rewrite (@xOffset_lo t (i + 1) x Hx), (@xOffset_hi t i x Hinv Hi Hx). ring. }
  split; [exact Hv|]. split; intro Hx; rewrite Hv.
  - rewrite (@xOffset_lo t i x Hx). ring.
  - rewrite (@xOffset_hi t i x Hinv Hi Hx). ring.
Qed.

Lemma eval_linear_in_x_witness :
  exists v : Scalar,
    eval false skewed (1 # 4) (3 # 2) true = Ok v /\
    v == columnInterp skewed 0 (3 # 2) * (1 - xOffset skewed 0 (1 # 4))
         + columnInterp skewed 1 (3 # 2) * xOffset skewed 0 (1 # 4).
Proof.
  destruct (@eval_linear_in_x false skewed 0 (1 # 4) (3 # 2)) as (v & Hv & Hlin & _).
  - exact skewed_reachable.
  - exact skewed_ready.
  - vm_compute. split; congruence.
  - vm_compute. discriminate.
  - vm_compute. discriminate.
  - repeat split; vm_compute; discriminate.
  - exists v. split; assumption.
Defined.

Lemma xPosition_range (t : Table) (x : Scalar) :
  invariant t -> (2 <= numX t)%Z -> inXRange t x ->
  0 <= xPosition t x /\ xPosition t x <= inject_Z (numX t - 1).
Proof.
  intros Hinv Hn [E1 E2]. rewrite xMin_get in E1. rewrite xMax_get in E2 by lia.
  pose proof (xSegment_bracket x Hinv Hn) as Hbr.
  destruct (interp_within (inv_x Hinv) Hbr E1 E2) as [Hlo Hhi].
  destruct Hbr as (Hs & _). fold (numX t) in Hs. fold (xPosition t x) in Hlo, Hhi.
  split.
  - apply Qle_trans with (inject_Z (xSegment (xPos_ t) x)); [|assumption].
    change 0 with (inject_Z 0). rewrite <- Zle_Qle. lia.
  - apply Qle_trans with (inject_Z (xSegment (xPos_ t) x + 1)); [assumption|].
    rewrite <- Zle_Qle. lia.
Qed.

Lemma yPosition_range (t : Table) (i : Z) (y : Scalar) :
  invariant t -> (0 <= i < numX t)%Z -> (2 <= Vec.size (column t i))%Z ->
  inYRange t i y ->
  0 <= yPosition t i y /\ yPosition t i y <= inject_Z (Vec.size (column t i) - 1).
Proof.
  intros Hinv Hi Hm [E1 E2]. rewrite yAt_get in E1, E2.
  rewrite <- size_map_get1 in E2.
  pose proof (ySegment_bracket y Hinv Hi Hm) as Hbr.
  destruct (interp_within (invariant_column Hinv Hi) Hbr E1 E2) as [Hlo Hhi].
  destruct Hbr as (Hs & _). rewrite size_map_get1 in Hs.
  fold (yPosition t i y) in Hlo, Hhi.
  split.
  - apply Qle_trans with (inject_Z (ySegment (column t i) y)); [|assumption].
    change 0 with (inject_Z 0). rewrite <- Zle_Qle. lia.
  - apply Qle_trans with (inject_Z (ySegment (column t i) y + 1)); [assumption|].
    rewrite <- Zle_Qle. lia.
Qed.

Lemma cellAlpha_unit (t : Table) (x : Scalar) :
  invariant t -> (2 <= numX t)%Z -> inXRange t x ->
  0 <= cellAlpha t x /\ cellAlpha t x <= 1.
Proof.
  intros Hinv Hn Hx. destruct (xPosition_range Hinv Hn Hx) as [H0 H1].
  unfold cellAlpha, cellI. now apply offset_in_unit.
Qed.

Lemma cellBeta_unit (t : Table) (i : Z) (y : Scalar) :
  invariant t -> (0 <= i < numX t)%Z -> (2 <= Vec.size (column t i))%Z ->
  inYRange t i y ->
  0 <= cellBeta t i y /\ cellBeta t i y <= 1.
Proof.
  intros Hinv Hi Hm Hy. destruct (yPosition_range Hinv Hi Hm Hy) as [H0 H1].
  unfold cellBeta, cellJ. now apply offset_in_unit.
Qed.

(** X7. Inside the tabulated range the fractional offsets are proper
    weights: for [x] in [[xMin, xMax]] the x offset lies in [[0, 1]], and
    for [y] in the range of a column so does the y offset in that column. *)
Theorem offsets_inside (t : Table) (x : Scalar) (i : Z) (y : Scalar) :
  reachable t -> query_ready t -> (0 <= i < numX t)%Z ->
  (inXRange t x -> 0 <= cellAlpha t x /\ cellAlpha t x <= 1) /\
  (inYRange t i y -> 0 <= cellBeta t i y /\ cellBeta t i y <= 1).
Proof.
  intros Hreach [Hn Hcols] Hi. pose proof (reachable_invariant Hreach) as Hinv.
  split.
  - intro Hx. exact (cellAlpha_unit Hinv Hn Hx).
  - intro Hy. exact (cellBeta_unit Hinv Hi (Hcols _ Hi) Hy).
Qed.

Lemma offsets_inside_witness :
  0 <= cellAlpha skewed (1 # 3) /\ cellAlpha skewed (1 # 3) <= 1.
Proof.
  apply (@offsets_inside skewed (1 # 3) 1 (3 # 2)).
  - exact skewed_reachable.
  - exact skewed_ready.
  - vm_compute. split; congruence.
  - split; vm_compute; discriminate.
Defined.

Lemma convex_between (lo hi a b w : Scalar) :
  0 <= w -> w <= 1 -> lo <= a -> a <= hi -> lo <= b -> b <= hi ->
  lo <= a * (1 - w) + b * w /\ a * (1 - w) + b * w <= hi.
Proof.
  intros Hw0 Hw1 Ha0 Ha1 Hb0 Hb1.
  assert (0 <= (a - lo) * (1 - w)) by (apply Qmult_le_0_compat; lra).
  assert (0 <= (b - lo) * w) by (apply Qmult_le_0_compat; lra).
  assert (0 <= (hi - a) * (1 - w)) by (apply Qmult_le_0_compat; lra).
  assert (0 <= (hi - b) * w) by (apply Qmult_le_0_compat; lra).
  split.
  - setoid_replace (a * (1 - w) + b * w)
      with (lo + ((a - lo) * (1 - w) + (b - lo) * w)) by ring. lra.
  - setoid_replace (a * (1 - w) + b * w)
      with (hi - ((hi - a) * (1 - w) + (hi - b) * w)) by ring. lra.
Qed.

(** X8. No overshoot: for [x] in [[xMin, xMax]] and [y] in the y range of
    both columns of the cell, [eval] returns a value between the smallest
    and the largest of the four corner values it blends. *)
Theorem eval_within_corners (ndebug : bool) (t : Table) (x y lo hi : Scalar) :
  reachable t -> query_ready t -> inXRange t x ->
  let i := cellI t x in
  let j1 := cellJ t i y in
  let j2 := cellJ t (i + 1) y in
  inYRange t i y -> inYRange t (i + 1) y ->
  (lo <= valueAt t i j1 /\ valueAt t i j1 <= hi) ->
  (lo <= valueAt t i (j1 + 1) /\ valueAt t i (j1 + 1) <= hi) ->
  (lo <= valueAt t (i + 1) j2 /\ valueAt t (i + 1) j2 <= hi) ->
  (lo <= valueAt t (i + 1) (j2 + 1) /\ valueAt t (i + 1) (j2 + 1) <= hi) ->
  exists v : Scalar, eval ndebug t x y true = Ok v /\ lo <= v /\ v <= hi.
Proof.
  intros Hreach Hready Hx i j1 j2 Hy1 Hy2 [A0 A1] [B0 B1] [C0 C1] [D0 D1].
  pose proof (reachable_invariant Hreach) as Hinv.
  exists (bilinear t x y). split; [now apply eval_ok|].
  pose proof Hready as [Hn Hcols].
  pose proof (cellI_range t x Hn) as Hi. fold i in Hi.
  assert (0 <= i < numX t)%Z as Hi1 by lia.
  assert (0 <= i + 1 < numX t)%Z as Hi2 by lia.
  pose proof (cellAlpha_unit Hinv Hn Hx) as Ha.
  pose proof (cellBeta_unit Hinv Hi1 (Hcols _ Hi1) Hy1) as Hb1.
  pose proof (cellBeta_unit Hinv Hi2 (Hcols _ Hi2) Hy2) as Hb2.
  unfold bilinear, blend. fold i j1 j2.
  destruct Ha as [Ha0 Ha1]. destruct Hb1 as [Hb10 Hb11]. destruct Hb2 as [Hb20 Hb21].
  pose proof (convex_between Hb10 Hb11 A0 A1 B0 B1) as [S10 S11].
  pose proof (convex_between Hb20 Hb21 C0 C1 D0 D1) as [S20 S21].
  exact (convex_between Ha0 Ha1 S10 S11 S20 S21).
Qed.

Lemma eval_within_corners_witness :
  exists v : Scalar,
    eval false skewed (1 # 2) (1 # 2) true = Ok v /\ 0 <= v /\ v <= 3.
Proof.
  apply (@eval_within_corners false skewed (1 # 2) (1 # 2) 0 3).
  - exact skewed_reachable.
  - exact skewed_ready.
  - split; vm_compute; discriminate.
  - split; vm_compute; discriminate.
  - split; vm_compute; discriminate.
  - split; vm_compute; discriminate.
  - split; vm_compute; discriminate.
  - split; vm_compute; discriminate.
  - split; vm_compute; discriminate.
Defined.

(** ** Index accessors *)

Lemma at_out (A : Type) (d : A) (v : list A) (i : Z) :
  ~ (0 <= i < Vec.size v)%Z -> Vec.at_ d v i = Throw OutOfRange.
Proof.
  intro H. unfold Vec.at_.
  destruct (Z.leb_spec 0 i); destruct (Z.ltb_spec i (Vec.size v));
    cbn; try reflexivity. lia.
Qed.

Lemma range_test (i n : Z) :
  ((0 <=? i)%Z && (i <? n)%Z = true <-> (0 <= i < n)%Z).
Proof. rewrite andb_true_iff, Z.leb_le, Z.ltb_lt. tauto. Qed.

Lemma range_test_false (i n : Z) :
  ~ (0 <= i < n)%Z -> (0 <=? i)%Z && (i <? n)%Z = false.
Proof.
  intro H. destruct ((0 <=? i)%Z && (i <? n)%Z) eqn:E; [|reflexivity].
  apply range_test in E. contradiction.
Qed.

(** X9. [iToX] and [jToY] return the stored coordinate for valid indices.
    For an index out of range they fail an [assert] in the checked build
    and throw [std::out_of_range] in the [NDEBUG] build, and [numY] throws
    [std::out_of_range] in either build. *)
Theorem index_accessors (t : Table) (i j : Z) :
  reachable t ->
  ((0 <= i < numX t)%Z ->
   (forall ndebug, iToX ndebug t i = Ok (xAt t i)) /\
   numY t i = Ok (Vec.size (column t i)) /\
   ((0 <= j < Vec.size (column t i))%Z ->
    forall ndebug, jToY ndebug t i j = Ok (yAt t i j)) /\
   (~ (0 <= j < Vec.size (column t i))%Z ->
    jToY false t i j = Abort /\ jToY true t i j = Throw OutOfRange)) /\
  (~ (0 <= i < numX t)%Z ->
   iToX false t i = Abort /\ iToX true t i = Throw OutOfRange /\
   jToY false t i j = Abort /\ jToY true t i j = Throw OutOfRange /\
   numY t i = Throw OutOfRange).
Proof.
  intro Hreach. pose proof (reachable_invariant Hreach) as Hinv.
  pose proof (inv_size Hinv) as Hlen.
  assert (Vec.size (samples_ t) = numX t) as Hsz
    by (unfold numX, Vec.size; lia).
  split.
  - intro Hi.
    assert (0 <= i < Vec.size (samples_ t))%Z as Hi' by lia.
    split; [|split; [|split]].
    + intro ndebug. unfold iToX.
      rewrite assert_pass by (now apply range_test).
      cbn [bind]. now apply at_ok.
    + now apply numY_ok.
    + intros Hj ndebug. unfold jToY.
      rewrite !assert_pass by (now apply range_test).
      cbn [bind]. rewrite (at_ok [] _ Hi'). cbn [bind]. fold (column t i).
      rewrite (at_ok noSample _ Hj). reflexivity.
    + intro Hj. unfold jToY, assert. rewrite (proj2 (range_test i (numX t)) Hi).
      rewrite (range_test_false Hj). cbn [bind]. split; [reflexivity|].
      rewrite (at_ok [] _ Hi'). cbn [bind]. fold (column t i).
      now rewrite (@at_out _ noSample _ _ Hj).
  - intro Hi.
    assert (~ (0 <= i < Vec.size (samples_ t))%Z) as Hi' by lia.
    unfold iToX, jToY, numY, assert. rewrite (range_test_false Hi). cbn [bind].
    rewrite (@at_out _ 0 (xPos_ t) i Hi), (@at_out _ [] _ _ Hi'). cbn [bind].
    repeat split; reflexivity.
Qed.

Lemma index_accessors_witness :
  jToY false skewed 1 1 = Ok (yAt skewed 1 1) /\
  jToY false skewed 1 2 = Abort /\ jToY true skewed 1 2 = Throw OutOfRange.
Proof.
  destruct (@index_accessors skewed 1 1 skewed_reachable) as [H _].
  destruct (@index_accessors skewed 1 2 skewed_reachable) as [H' _].
  destruct H as (_ & _ & Hin & _); [vm_compute; split; congruence|].
  destruct H' as (_ & _ & _ & Hout); [vm_compute; split; congruence|].
  split.
  - apply Hin. vm_compute. split; congruence.
  - apply Hout. vm_compute. intros [_ H]. discriminate.
Defined.

(** ** What an append changes *)

(** X10. A successful [appendXPos(x)] adds exactly one column, empty and
    at the returned index with x position [x]; every earlier column keeps
    its samples and its x position, at its old index if that is below the
    returned one and one higher otherwise. *)
Theorem appendXPos_preserves (t t' : Table) (x : Scalar) (i : Z) :
  reachable t -> appendXPos t x = (Ok i, t') ->
  numX t' = (numX t + 1)%Z /\
  (0 <= i < numX t')%Z /\ xAt t' i = x /\ column t' i = [] /\
  forall k : Z, (0 <= k < numX t)%Z ->
    let k' := if (k <? i)%Z then k else (k + 1)%Z in
    column t' k' = column t k /\ xAt t' k' = xAt t k.
Proof.
  intros Hreach Happ. pose proof (reachable_invariant Hreach) as Hinv.
  pose proof (inv_size Hinv) as Hlen. unfold appendXPos in Happ.
  destruct (Vec.empty (xPos_ t) || Qltb (Vec.back 0 (xPos_ t)) x).
  - injection Happ as <- <-.
    unfold Vec.push_back. rewrite length_app, Nat.add_comm. cbn [length Nat.add].
    rewrite <- Hlen, resize_grow.
    unfold numX, xAt, column, Vec.get, Vec.size. cbn [samples_ xPos_].
    rewrite length_app. cbn [length].
    replace (Z.to_nat (Z.of_nat (length (xPos_ t) + 1) - 1))
      with (length (xPos_ t)) by lia.
    split; [lia|]. split; [lia|]. split; [apply nth_middle|].
    split; [rewrite <- Hlen; apply nth_middle|].
    intros k Hk. cbv zeta.
    destruct (Z.ltb_spec k (Z.of_nat (length (xPos_ t) + 1) - 1)); [|lia].
    rewrite !app_nth1 by lia. split; reflexivity.
  - destruct (Qltb x (Vec.front 0 (xPos_ t))); [|discriminate].
    injection Happ as <- <-. unfold Vec.insert_begin.
    unfold numX, xAt, column, Vec.get, Vec.size. cbn [samples_ xPos_ length].
    split; [lia|]. split; [lia|]. split; [reflexivity|]. split; [reflexivity|].
    intros k Hk. cbv zeta.
    destruct (Z.ltb_spec k 0); [lia|].
    replace (Z.to_nat (k + 1)) with (S (Z.to_nat k)) by lia.
    split; reflexivity.
Qed.

Lemma appendXPos_preserves_witness :
  numX (snd (appendXPos skewed (-1))) = (numX skewed + 1)%Z /\
  column (snd (appendXPos skewed (-1))) 2 = column skewed 1.
Proof.
  destruct (@appendXPos_preserves skewed (snd (appendXPos skewed (-1))) (-1) 0
              skewed_reachable eq_refl) as (H1 & _ & _ & _ & H5).
  split; [exact H1|].
  apply (H5 1%Z). vm_compute. split; congruence.
Defined.

(** X11. A successful [appendSamplePoint(i, y, value)] names a valid column
    and stores the point [(xAt(i), y, value)] at the returned index of that
    column, which grows by one; the points the column already held keep
    their order around it, and the x positions and the other columns are
    unchanged. *)
Theorem appendSamplePoint_lookup (ndebug : bool) (t t' : Table) (i k : Z)
    (y v : Scalar) :
  reachable t -> appendSamplePoint ndebug t i y v = (Ok k, t') ->
  (0 <= i < numX t)%Z /\
  xPos_ t' = xPos_ t /\
  Vec.size (column t' i) = (Vec.size (column t i) + 1)%Z /\
  (0 <= k < Vec.size (column t' i))%Z /\
  sample t' i k = (xAt t i, y, v) /\
  (forall j : Z, (0 <= j < Vec.size (column t i))%Z ->
     sample t' i (if (j <? k)%Z then j else (j + 1)%Z) = sample t i j) /\
  (forall c : Z, (0 <= c)%Z -> c <> i -> column t' c = column t c).
Proof.
  intros Hreach Happ. pose proof (reachable_invariant Hreach) as Hinv.
  pose proof (inv_size Hinv) as Hlen. unfold appendSamplePoint in Happ.
  destruct (assert ndebug _ ;; iToX ndebug t i) as [x| |] eqn:Ex;
    try discriminate.
  apply iToX_inv in Ex. destruct Ex as [Hi ->].
  assert (Z.to_nat i < length (samples_ t))%nat as Hi'.
  { unfold numX, Vec.size in Hi. lia. }
  split; [exact Hi|].
  assert (forall col' c, (0 <= c)%Z -> c <> i ->
            column (mkTable (Vec.set (samples_ t) (Z.to_nat i) col') (xPos_ t)) c
            = column t c) as Hother.
  { intros col' c Hc Hne. unfold column, Vec.get. cbn [samples_].
    apply nth_set_other. lia. }
  assert (forall col',
            column (mkTable (Vec.set (samples_ t) (Z.to_nat i) col') (xPos_ t)) i
            = col') as Hthis.
  { intro col'. unfold column, Vec.get. cbn [samples_]. now apply nth_set. }
  destruct (Vec.empty (column t i) || Qltb _ y).
  - injection Happ as <- <-. cbn [xPos_].
    split; [reflexivity|]. unfold sample. rewrite Hthis.
    unfold Vec.push_back, Vec.size, Vec.get. rewrite length_app. cbn [length].
    replace (Z.to_nat (Z.of_nat (length (column t i) + 1) - 1))
      with (length (column t i)) by lia.
    split; [lia|]. split; [lia|]. split; [apply nth_middle|].
    split; [|apply Hother].
    intros j Hj.
    destruct (Z.ltb_spec j (Z.of_nat (length (column t i) + 1) - 1)); [|lia].
    apply app_nth1. lia.
  - destruct (Qltb y _); [|discriminate].
    injection Happ as <- <-. cbn [xPos_].
    split; [reflexivity|]. unfold sample. rewrite Hthis.
    unfold Vec.insert_begin, Vec.size, Vec.get. cbn [length].
    split; [lia|]. split; [lia|]. split; [reflexivity|].
    split; [|apply Hother].
    intros j Hj. destruct (Z.ltb_spec j 0); [lia|].
    replace (Z.to_nat (j + 1)) with (S (Z.to_nat j)) by lia. reflexivity.
Qed.

Lemma appendSamplePoint_lookup_witness :
  sample (snd (appendSamplePoint false skewed 0 (-1) 7)) 0 0
  = (xAt skewed 0, -1, 7) /\
  sample (snd (appendSamplePoint false skewed 0 (-1) 7)) 0 2 = sample skewed 0 1.
Proof.
  destruct (@appendSamplePoint_lookup false skewed
              (snd (appendSamplePoint false skewed 0 (-1) 7)) 0 0 (-1) 7
              skewed_reachable eq_refl) as (_ & _ & _ & _ & H5 & H6 & _).
  split; [exact H5|].
  apply (H6 1%Z). vm_compute. split; congruence.
Defined.

(** X12. A failed append leaves the table as it was, whatever the reason.
    [appendSamplePoint] for a column index out of range never succeeds: it
    fails an [assert] in the checked build and throws [std::out_of_range]
    (from [iToX]) in the [NDEBUG] build. *)
Theorem failed_append_keeps_table (ndebug : bool) (t : Table) (x : Scalar)
    (i : Z) (y v : Scalar) :
  ((forall k, fst (appendXPos t x) <> Ok k) -> snd (appendXPos t x) = t) /\
  ((forall k, fst (appendSamplePoint ndebug t i y v) <> Ok k) ->
   snd (appendSamplePoint ndebug t i y v) = t) /\
  (~ (0 <= i < numX t)%Z ->
   appendSamplePoint false t i y v = (Abort, t) /\
   appendSamplePoint true t i y v = (Throw OutOfRange, t)).
Proof.
  split; [|split].
  - unfold appendXPos. intro H.
    destruct (_ || _); [exfalso; eapply H; reflexivity|].
    destruct (Qltb x _); [exfalso; eapply H; reflexivity | reflexivity].
  - unfold appendSamplePoint. intro H.
    destruct (assert ndebug _ ;; iToX ndebug t i) as [x0| |]; try reflexivity.
    destruct (_ || _); [exfalso; eapply H; reflexivity|].
    destruct (Qltb y _); [exfalso; eapply H; reflexivity | reflexivity].
  - intro Hi. unfold appendSamplePoint, iToX, assert.
    rewrite (range_test_false Hi). cbn [bind].
    rewrite (@at_out _ 0 (xPos_ t) i Hi). split; reflexivity.
Qed.

Lemma failed_append_keeps_table_witness :
  appendSamplePoint false skewed 2 0 0 = (Abort, skewed) /\
  appendSamplePoint true skewed 2 0 0 = (Throw OutOfRange, skewed).
Proof.
  apply (@failed_append_keeps_table false skewed 0 2 0 0).
  vm_compute. intros [_ H]. discriminate.
Defined.

(** ** The domain of the checked, non-extrapolating call *)

Lemma yToJ_checked_inv (t : Table) (i : Z) (y b : Scalar) :
  length (samples_ t) = length (xPos_ t) ->
  (0 <= i < numX t)%Z -> (2 <= Vec.size (column t i))%Z ->
  yToJ false t i y false = Ok b -> inYRange t i y.
Proof.
  intros Hlen Hi Hm H.
  assert (0 <= i < Vec.size (samples_ t))%Z as Hi'.
  { unfold numX, Vec.size in *. lia. }
  assert (column t i <> []) as Hne by (apply size_nonempty; lia).
  unfold yToJ in H. rewrite assert_pass in H by (now apply range_test).
  cbn [bind] in H. rewrite (at_ok [] _ Hi') in H. cbn [bind] in H.
  unfold assertM, yMin, yMax in H. rewrite (at_ok [] _ Hi') in H.
  cbn [bind] in H. fold (column t i) in H.
  rewrite front_get, (back_get _ Hne) in H.
  unfold inYRange, yAt, sample.
  destruct (Qle_bool (yOf (column t i) 0) y) eqn:E1; cbn [bind] in H;
    [|discriminate].
  destruct (Qle_bool y (yOf (column t i) (Vec.size (column t i) - 1))) eqn:E2;
    cbn [bind] in H; [|discriminate].
  split; now apply Qle_bool_iff.
Qed.

Lemma applies_true_in_range (ndebug : bool) (t : Table) (x y : Scalar) :
  applies ndebug t x y = Ok true -> inXRange t x.
Proof.
  unfold applies. intro H.
  destruct (Qltb x (xMin t) || Qltb (xMax t) x) eqn:E; [discriminate|].
  apply orb_false_iff in E. destruct E as [E1 E2].
  split; now apply Qltb_ge.
Qed.

Lemma xToI_no_throw (ndebug : bool) (t : Table) (x : Scalar) (e : bool)
    (ex : exn) :
  xToI ndebug t x e = Throw ex -> False.
Proof.
  unfold xToI, assert. destruct ndebug; cbn [bind];
    repeat (match goal with
            | |- context [if ?c then _ else _] => destruct c
            end; cbn [bind]); discriminate.
Qed.

Lemma yToJ_no_throw (ndebug : bool) (t : Table) (i : Z) (y : Scalar) (e : bool)
    (ex : exn) :
  (0 <= i < Vec.size (samples_ t))%Z ->
  yToJ ndebug t i y e = Throw ex -> False.
Proof.
  intro Hi. unfold yToJ, assert, assertM, yMin, yMax.
  rewrite (at_ok [] _ Hi).
  destruct ndebug; cbn [bind];
    repeat (match goal with
            | |- context [if ?c then _ else _] => destruct c
            end; cbn [bind]); discriminate.
Qed.

(** X13. In the checked build the non-extrapolating call
    [eval(x, y, false)] returns a value exactly when [x] lies in
    [[xMin, xMax]] and [y] lies in the y range of both columns of the
    cell; the value is then the bilinear blend.  Everywhere else it ends in
    NumericalIssue or in a failed [assert]. *)
Theorem eval_checked_domain (t : Table) (x y : Scalar) :
  reachable t -> query_ready t ->
  let i := cellI t x in
  ((exists v, eval false t x y false = Ok v)
   <-> inXRange t x /\ inYRange t i y /\ inYRange t (i + 1) y) /\
  (forall v, eval false t x y false = Ok v -> v = bilinear t x y) /\
  ((forall v, eval false t x y false <> Ok v) ->
   eval false t x y false = Throw NumericalIssue \/ eval false t x y false = Abort).
Proof.
  intros Hreach Hready i. pose proof (reachable_invariant Hreach) as Hinv.
  pose proof Hready as [Hn Hcols]. pose proof (inv_size Hinv) as Hlen.
  pose proof (cellI_range t x Hn) as Hi. fold i in Hi.
  assert (0 <= i < numX t)%Z as Hi1 by lia.
  assert (0 <= i + 1 < numX t)%Z as Hi2 by lia.
  assert (forall v, eval false t x y false = Ok v ->
            v = bilinear t x y /\
            inXRange t x /\ inYRange t i y /\ inYRange t (i + 1) y) as Hinv_ok.
  { intros v Hv. unfold eval, domainCheck in Hv. cbn [negb] in Hv.
    destruct (applies false t x y) as [[|]| |] eqn:Eapp;
      cbn [bind negb] in Hv; try discriminate.
    apply applies_true_in_range in Eapp.
    destruct (xToI false t x false) as [a| |] eqn:Ea;
      cbn [bind] in Hv; try discriminate.
    apply xToI_inv in Ea. subst a. fold (cellI t x) in Hv. fold i in Hv.
    destruct (yToJ false t i y false) as [b1| |] eqn:Eb1;
      cbn [bind] in Hv; try discriminate.
    destruct (yToJ false t (i + 1) y false) as [b2| |] eqn:Eb2;
      cbn [bind] in Hv; try discriminate.
    pose proof (@yToJ_checked_inv t i y b1 Hlen Hi1 (Hcols _ Hi1) Eb1) as Hy1.
    pose proof (@yToJ_checked_inv t (i + 1) y b2 Hlen Hi2 (Hcols _ Hi2) Eb2) as Hy2.
    apply yToJ_inv in Eb1, Eb2. subst b1 b2.
    rewrite !numY_ok in Hv by assumption. cbn [bind] in Hv.
    injection Hv as <-. repeat split; try apply Eapp; try apply Hy1; apply Hy2. }
  split; [split|split].
  - intros [v Hv]. now apply Hinv_ok in Hv.
  - intros (Hx & Hy1 & Hy2). exists (bilinear t x y).
    destruct Hx as [E1 E2].
    destruct (@applies_in_range false t x y Hinv Hn E1 E2)
      as (Hc & _ & _ & Happ).
    set (c := static_cast_int (xPosition t x)) in *.
    assert (c = i \/ c = (i + 1)%Z) as Hci.
    { unfold i, cellI, clampIdx. fold c. lia. }
    assert (column t c <> []) as Hne.
    { apply size_nonempty. pose proof (Hcols c ltac:(lia)). lia. }
    assert (inYRange t c y) as [Hc1 Hc2] by (destruct Hci as [->| ->]; assumption).
    assert (applies false t x y = Ok true) as Happ'.
    { rewrite Happ. unfold firstY, lastY.
      rewrite front_get, (back_get _ Hne).
      apply Qle_bool_iff in Hc1, Hc2. unfold yAt, sample in Hc1, Hc2.
      now rewrite Hc1, Hc2. }
    unfold eval, domainCheck. cbn [negb]. rewrite Happ'. cbn [bind negb].
    destruct (@xToI_ok false t x false (inv_x Hinv) Hn (or_intror (conj E1 E2)))
      as (-> & _).
    cbn [bind]. fold (cellI t x). fold i.
    destruct (@yToJ_ok false t i y false Hlen Hi1 (Hcols _ Hi1) (or_intror Hy1))
      as (-> & _).
    destruct (@yToJ_ok false t (i + 1) y false Hlen Hi2 (Hcols _ Hi2)
                (or_intror Hy2)) as (-> & _).
    cbn [bind]. rewrite !numY_ok by assumption. reflexivity.
  - intros v Hv. now apply Hinv_ok in Hv.
  - intro Hno. unfold eval, domainCheck in *. cbn [negb] in *.
    destruct (@applies_total false t x y Hinv Hn) as [[|] Happ];
      rewrite Happ in *; cbn [bind negb] in *; [|now left].
    right.
    destruct (xToI false t x false) as [a|e|] eqn:Ea; cbn [bind] in *;
      [|exfalso; eapply xToI_no_throw; exact Ea | reflexivity].
    apply xToI_inv in Ea. subst a.
    change (clampIdx (numX t) (xPosition t x)) with i in Hno |- *.
    assert (0 <= i < Vec.size (samples_ t))%Z as Hs1
      by (unfold numX, Vec.size in *; lia).
    assert (0 <= i + 1 < Vec.size (samples_ t))%Z as Hs2
      by (unfold numX, Vec.size in *; lia).
    destruct (yToJ false t i y false) as [b1|e|] eqn:Eb1; cbn [bind] in *;
      [|exfalso; eapply yToJ_no_throw; [exact Hs1 | exact Eb1] | reflexivity].
    destruct (yToJ false t (i + 1) y false) as [b2|e|] eqn:Eb2; cbn [bind] in *;
      [|exfalso; eapply yToJ_no_throw; [exact Hs2 | exact Eb2] | reflexivity].
    rewrite !numY_ok in Hno by assumption. cbn [bind] in Hno.
    exfalso. eapply Hno. reflexivity.
Qed.

Lemma eval_checked_domain_witness :
  exists v, eval false skewed (1 # 2) (1 # 2) false = Ok v.
Proof.
  apply (proj1 (@eval_checked_domain skewed (1 # 2) (1 # 2)
                  skewed_reachable skewed_ready)).
  repeat split; vm_compute; discriminate.
Defined.

(** * Properties of the other classes *)

Lemma std_max_ge_l (a b : Scalar) : a <= std_max a b.
Proof.
  unfold std_max. destruct (Qltb a b) eqn:E; [|apply Qle_refl].
  apply Qltb_lt in E. lra.
Qed.

Lemma std_max_ge_r (a b : Scalar) : b <= std_max a b.
Proof.
  unfold std_max. destruct (Qltb a b) eqn:E; [apply Qle_refl|].
  now apply Qltb_ge in E.
Qed.

Lemma std_max_left (a b : Scalar) : b <= a -> std_max a b = a.
Proof.
  intro H. unfold std_max. now rewrite (proj2 (Qltb_ge a b) H).
Qed.

Lemma clamp_unit (x : Scalar) :
  0 <= std_min 1 (std_max 0 x) /\ std_min 1 (std_max 0 x) <= 1.
Proof.
  pose proof (std_max_ge_l 0 x) as H0. unfold std_min.
  destruct (Qltb (std_max 0 x) 1) eqn:E.
  - apply Qltb_lt in E. lra.
  - lra.
Qed.

(** ** EclDefaultMaterial *)

Section EclDefault.
Import EclDefaultMaterial.
Variables GO OW : Type.
Variable traits : Traits.
Variable GasOilLaw : TwoPhaseSatLaw GO.
Variable OilWaterLaw : TwoPhaseSatLaw OW.
Variable params : Params GO OW.
Variable fs : FluidState.

Let Swco := Swl params.
Let Sw := std_max Swco (fs (wettingPhaseIdx traits)).
Let Sg := fs (gasPhaseIdx traits).
Let kro_ow := twoPhaseSatKrn OilWaterLaw (oilWaterParams params) (Sg + Sw).
Let kro_go := twoPhaseSatKrw GasOilLaw (gasOilParams params) (1 - (Sg + Sw)).

Lemma krn_cases :
  (Sg + Sw - Swco < 1 # 100000000000000000000 ->
   krn traits GasOilLaw OilWaterLaw params fs = kro_ow) /\
  (1 # 100000000000000000000 <= Sg + Sw - Swco ->
   krn traits GasOilLaw OilWaterLaw params fs
   = (Sw - Swco) / (Sg + Sw - Swco) * kro_ow
     + (1 - (Sw - Swco) / (Sg + Sw - Swco)) * kro_go).
Proof.
  unfold krn. fold Swco. fold Sw. fold Sg. fold kro_ow. fold kro_go. split.
  - intro H. now rewrite (proj2 (Qltb_lt _ _) H).
  - intro H. now rewrite (proj2 (Qltb_ge _ _) H).
Qed.

(** X14. With a non-negative gas saturation the three-phase oil relative
    permeability [krn] lies, in exact arithmetic, between the two two-phase
    values it reads (oil-water at [Sg + Sw], gas-oil at [1 - (Sg + Sw)],
    with [Sw] not below the connate water saturation), whichever branch of
    the guard is taken. *)
Theorem krn_between (lo hi : Scalar) :
  0 <= Sg ->
  lo <= kro_ow -> kro_ow <= hi -> lo <= kro_go -> kro_go <= hi ->
  lo <= krn traits GasOilLaw OilWaterLaw params fs /\
  krn traits GasOilLaw OilWaterLaw params fs <= hi.
Proof.
  intros Hg A0 A1 B0 B1. destruct krn_cases as [Hlow Hhigh].
  destruct (Qlt_le_dec (Sg + Sw - Swco) (1 # 100000000000000000000)) as [H|H].
  - rewrite (Hlow H). split; assumption.
  - rewrite (Hhigh H).
    pose proof (std_max_ge_l Swco (fs (wettingPhaseIdx traits))) as Hmax.
    fold Sw in Hmax.
    assert (0 < Sg + Sw - Swco) as Hd.
    { apply Qlt_le_trans with (1 # 100000000000000000000); [reflexivity | exact H]. }
    set (w := (Sw - Swco) / (Sg + Sw - Swco)).
    assert (0 <= w) as Hw0.
    { apply Qle_shift_div_l; [exact Hd|]. lra. }
    assert (w <= 1) as Hw1.
    { apply Qle_shift_div_r; [exact Hd|]. lra. }
    destruct (convex_between Hw0 Hw1 B0 B1 A0 A1) as [L U].
    split.
    + setoid_replace (w * kro_ow + (1 - w) * kro_go)
        with (kro_go * (1 - w) + kro_ow * w) by ring. exact L.
    + setoid_replace (w * kro_ow + (1 - w) * kro_go)
        with (kro_go * (1 - w) + kro_ow * w) by ring. exact U.
Qed.

(** X15. The two-phase limits of [krn], in exact arithmetic.  Without gas
    ([Sg == 0]) it is the oil-water value.  With water at or below the
    connate saturation it is never a blend: it is the oil-water value when
    the guard against a zero divisor fires ([Sg + Sw - Swco < 1e-20]) and
    the gas-oil value when it does not. *)
Theorem krn_limits :
  (Sg == 0 -> krn traits GasOilLaw OilWaterLaw params fs == kro_ow) /\
  (fs (wettingPhaseIdx traits) <= Swco ->
   (Sg + Sw - Swco < 1 # 100000000000000000000 ->
    krn traits GasOilLaw OilWaterLaw params fs = kro_ow) /\
   (1 # 100000000000000000000 <= Sg + Sw - Swco ->
    krn traits GasOilLaw OilWaterLaw params fs == kro_go)).
Proof.
  destruct krn_cases as [Hlow Hhigh]. split.
  - intro Hg.
    destruct (Qlt_le_dec (Sg + Sw - Swco) (1 # 100000000000000000000)) as [H|H].
    + rewrite (Hlow H). reflexivity.
    + rewrite (Hhigh H).
      assert (0 < Sg + Sw - Swco) as Hd.
      { apply Qlt_le_trans with (1 # 100000000000000000000); [reflexivity | exact H]. }
      assert ((Sw - Swco) / (Sg + Sw - Swco) == 1) as ->.
      { setoid_replace (Sw - Swco) with (Sg + Sw - Swco) by lra.
        field. lra. }
      ring.
  - intro Hw. split; [exact Hlow|]. intro H.
    assert (Sw = Swco) as HSw by (apply std_max_left; exact Hw).
    rewrite (Hhigh H).
    assert (0 < Sg + Sw - Swco) as Hd.
    { apply Qlt_le_trans with (1 # 100000000000000000000); [reflexivity | exact H]. }
    assert ((Sw - Swco) / (Sg + Sw - Swco) == 0) as ->.
    { setoid_replace (Sw - Swco) with 0 by (rewrite HSw; ring).
      field. lra. }
    ring.
Qed.

(** X16. The saturations [updateHysteresis] hands to the two hysteresis
    parameter objects.  In the consistent mode the clamped [Sw] and
    [1 - Sg] lie in [[0, 1]], but the [krw] saturation of the gas-oil
    object is [1 + Sw_ow] (where [krn] uses [1 - Sw_ow]) and so is at least
    1 for a non-negative connate water saturation.  In the inconsistent
    mode each object gets one saturation three times: [1 - So] unclamped
    and [1 - Sg] clamped into [[0, 1]]. *)
Theorem updateHysteresis_calls :
  let ow := fst (updateHysteresis traits params fs) in
  let go := snd (updateHysteresis traits params fs) in
  (inconsistentHysteresisUpdate params = false ->
   (0 <= pcSw ow /\ pcSw ow <= 1) /\
   (0 <= pcSw go /\ pcSw go <= 1) /\
   krwSw ow = pcSw go /\ krnSw go = pcSw go /\
   Swco <= krnSw ow /\
   krwSw go = 1 + krnSw ow /\
   (0 <= Swco -> 1 <= krwSw go)) /\
  (inconsistentHysteresisUpdate params = true ->
   pcSw ow = 1 - fs (nonWettingPhaseIdx traits) /\
   krwSw ow = pcSw ow /\ krnSw ow = pcSw ow /\
   krwSw go = pcSw go /\ krnSw go = pcSw go /\
   0 <= pcSw go /\ pcSw go <= 1).
Proof.
  cbv zeta. unfold updateHysteresis. fold Swco. split; intros ->; cbn.
  - pose proof (clamp_unit (fs (wettingPhaseIdx traits))) as [W0 W1].
    pose proof (clamp_unit (fs (gasPhaseIdx traits))) as [G0 G1].
    pose proof (std_max_ge_l Swco
                  (std_min 1 (std_max 0 (fs (wettingPhaseIdx traits))))) as M.
    repeat split; try reflexivity; try lra.
  - pose proof (clamp_unit (fs (gasPhaseIdx traits))) as [G0 G1].
    repeat split; try reflexivity; lra.
Qed.

End EclDefault.

Lemma krn_between_witness :
  0 <= EclDefaultMaterial.krn exampleTraits linearLaw linearLaw
         (exampleParams false) exampleState /\
  EclDefaultMaterial.krn exampleTraits linearLaw linearLaw
    (exampleParams false) exampleState <= 1.
Proof.
  apply (@krn_between unit unit exampleTraits linearLaw linearLaw
           (exampleParams false) exampleState 0 1);
    vm_compute; discriminate.
Defined.

Lemma krn_limits_witness :
  EclDefaultMaterial.krn exampleTraits linearLaw linearLaw
    (exampleParams false) (fun phaseIdx => if (phaseIdx =? 2)%Z then 0 else 3 # 10)
  == 1 - (0 + (3 # 10)) /\
  EclDefaultMaterial.krn exampleTraits linearLaw linearLaw
    (exampleParams false) (fun phaseIdx => if (phaseIdx =? 2)%Z then 2 # 10 else 1 # 20)
  == 1 - ((2 # 10) + (1 # 10)).
Proof.
  split.
  - apply (proj1 (@krn_limits unit unit exampleTraits linearLaw linearLaw
                    (exampleParams false)
                    (fun phaseIdx => if (phaseIdx =? 2)%Z then 0 else 3 # 10))).
    reflexivity.
  - apply (proj2 (@krn_limits unit unit exampleTraits linearLaw linearLaw
                    (exampleParams false)
                    (fun phaseIdx => if (phaseIdx =? 2)%Z then 2 # 10 else 1 # 20))).
    + vm_compute. discriminate.
    + vm_compute. discriminate.
Defined.

Lemma updateHysteresis_calls_witness :
  1 <= EclDefaultMaterial.krwSw
         (snd (EclDefaultMaterial.updateHysteresis exampleTraits
                 (exampleParams false) exampleState)).
Proof.
  destruct (@updateHysteresis_calls unit unit exampleTraits
              (exampleParams false) exampleState) as [H _].
  destruct (H eq_refl) as (_ & _ & _ & _ & _ & _ & H7).
  apply H7. vm_compute. discriminate.
Defined.

(** ** RegularizedBrooksCoreyParams *)

Section Regularized.
Import RegularizedBrooksCoreyParams.
Variable Base : Type.
Variable baseFinalize : Base -> Base.
Variable pc : Base -> Scalar -> Scalar.

Lemma dPcnw_dSw_central (p : t Base) (Sw : Scalar) :
  eps < Sw -> Sw < 1 - eps ->
  dPcnw_dSw_ pc p Sw
  = (pc (base p) (Sw + eps) - pc (base p) (Sw - eps)) / (0 + eps + eps).
Proof.
  intros H0 H1. unfold dPcnw_dSw_, dPcnw_dSw_parts.
  assert (Qltb (Sw + eps) 1 = true) as -> by (apply Qltb_lt; lra).
  assert (Qltb 0 (Sw - eps) = true) as -> by (apply Qltb_lt; lra).
  reflexivity.
Qed.

Lemma dPcnw_dSw_backward (p : t Base) (Sw : Scalar) :
  1 - eps <= Sw ->
  dPcnw_dSw_ pc p Sw
  = (pc (base p) Sw - pc (base p) (Sw - eps)) / (0 + eps).
Proof.
  intro H. unfold dPcnw_dSw_, dPcnw_dSw_parts.
  assert (Qltb (Sw + eps) 1 = false) as -> by (apply Qltb_ge; lra).
  assert (Qltb 0 (Sw - eps) = true) as ->.
  { apply Qltb_lt. unfold eps in *. lra. }
  reflexivity.
Qed.

Lemma dPcnw_dSw_forward (p : t Base) (Sw : Scalar) :
  Sw <= eps ->
  dPcnw_dSw_ pc p Sw
  = (pc (base p) (Sw + eps) - pc (base p) Sw) / (0 + eps).
Proof.
  intro H. unfold dPcnw_dSw_, dPcnw_dSw_parts.
  assert (Qltb (Sw + eps) 1 = true) as ->.
  { apply Qltb_lt. unfold eps in *. lra. }
  assert (Qltb 0 (Sw - eps) = false) as -> by (apply Qltb_ge; lra).
  reflexivity.
Qed.

(** X17. [dPcnw_dSw_] never divides by zero: its divisor is [2 eps] for
    [eps < Sw < 1 - eps], where it is the central difference of the curve,
    and [eps] otherwise, where it is the one-sided difference that stays
    inside [(0, 1)]. *)
Theorem dPcnw_dSw_stencil (p : t Base) (Sw : Scalar) :
  0 < snd (dPcnw_dSw_parts pc p Sw) /\
  (eps < Sw -> Sw < 1 - eps ->
   dPcnw_dSw_ pc p Sw
   = (pc (base p) (Sw + eps) - pc (base p) (Sw - eps)) / (0 + eps + eps)) /\
  (1 - eps <= Sw ->
   dPcnw_dSw_ pc p Sw
   = (pc (base p) Sw - pc (base p) (Sw - eps)) / (0 + eps)) /\
  (Sw <= eps ->
   dPcnw_dSw_ pc p Sw
   = (pc (base p) (Sw + eps) - pc (base p) Sw) / (0 + eps)).
Proof.
  split; [|split; [apply dPcnw_dSw_central
                  | split; [apply dPcnw_dSw_backward | apply dPcnw_dSw_forward]]].
  unfold dPcnw_dSw_parts.
  destruct (Qltb (Sw + eps) 1) eqn:E1; destruct (Qltb 0 (Sw - eps)) eqn:E2;
    cbn [snd]; try reflexivity.
  apply Qltb_ge in E1, E2. unfold eps in *. lra.
Qed.

(** X18. For a curve that is a straight line, [pc(S) == a0 + a1 S], the
    finite difference [dPcnw_dSw_] is the slope [a1] at every saturation,
    in the central and in both one-sided cases. *)
Theorem dPcnw_dSw_straight (p : t Base) (a0 a1 Sw : Scalar) :
  (forall S, pc (base p) S == a0 + a1 * S) ->
  dPcnw_dSw_ pc p Sw == a1.
Proof.
  intro Hpc.
  destruct (Qlt_le_dec eps Sw) as [H0|H0].
  - destruct (Qlt_le_dec Sw (1 - eps)) as [H1|H1].
    + rewrite (dPcnw_dSw_central p H0 H1), !Hpc. unfold eps. field.
    + rewrite (dPcnw_dSw_backward p H1), !Hpc. unfold eps. field.
  - rewrite (dPcnw_dSw_forward p H0), !Hpc. unfold eps. field.
Qed.

(** X19. A default-constructed object is not finalized: in the checked
    build its accessors fail their [assert].  After [finalize()] they
    return, in either build, the curve value at the threshold saturation,
    the curve value at 1, and as high slope the backward difference
    [(pc(1) - pc(1 - eps)) / eps]; the two-argument constructor finalizes
    the object itself. *)
Theorem finalize_values (ndebug : bool) (p : t Base) (b : Base)
    (u1 u2 u3 u4 : Scalar) :
  pcnwLow false (default b u1 u2 u3 u4) = Abort /\
  pcnwSlopeHigh false (default b u1 u2 u3 u4) = Abort /\
  (let q := finalize baseFinalize pc ndebug p in
   let b' := baseFinalize (base p) in
   pcnwLowSw ndebug q = Ok (pcnwLowSw_ p) /\
   pcnwLow ndebug q = Ok (pc b' (pcnwLowSw_ p)) /\
   pcnwHigh ndebug q = Ok (pc b' 1) /\
   pcnwSlopeHigh ndebug q = Ok ((pc b' 1 - pc b' (1 - eps)) / (0 + eps))) /\
  pcnwHigh ndebug (make baseFinalize pc ndebug b u1 u2 u3 u4)
  = Ok (pc (baseFinalize b) 1).
Proof.
  split; [reflexivity|]. split; [reflexivity|]. split.
  - cbv zeta.
    unfold pcnwLowSw, pcnwLow, pcnwHigh, pcnwSlopeHigh, assertFinalized_, finalize.
    cbn [finalized_ pcnwLowSw_ pcnwLow_ pcnwHigh_ pcnwSlopeHigh_ base].
    rewrite dPcnw_dSw_backward by (unfold eps; lra).
    cbn [base]. destruct ndebug; cbn; repeat split; reflexivity.
  - unfold make, pcnwHigh, assertFinalized_, finalize.
    cbn [finalized_ pcnwHigh_ base]. destruct ndebug; reflexivity.
Qed.

(** X20. [setPcLowSw] only stores the new threshold: the object stays
    finalized, and [pcnwLow()] keeps returning the curve value at the old
    threshold until [finalize()] is called again. *)
Theorem setPcLowSw_stale (ndebug : bool) (p : t Base) (value : Scalar) :
  let q := finalize baseFinalize pc ndebug p in
  let r := setPcLowSw q value in
  pcnwLowSw ndebug r = Ok value /\
  pcnwLow ndebug r = pcnwLow ndebug q /\
  pcnwLow ndebug r = Ok (pc (baseFinalize (base p)) (pcnwLowSw_ p)) /\
  pcnwLow ndebug (finalize baseFinalize pc ndebug r)
  = Ok (pc (baseFinalize (baseFinalize (base p))) value).
Proof.
  cbv zeta.
  unfold pcnwLowSw, pcnwLow, assertFinalized_, setPcLowSw, finalize.
  cbn [finalized_ pcnwLowSw_ pcnwLow_ base].
  destruct ndebug; cbn; repeat split; reflexivity.
Qed.

End Regularized.

Lemma dPcnw_dSw_stencil_witness :
  RegularizedBrooksCoreyParams.dPcnw_dSw_ straightCurve
    (RegularizedBrooksCoreyParams.default tt 0 0 0 0) 1
  = (straightCurve tt 1
     - straightCurve tt (1 - RegularizedBrooksCoreyParams.eps))
    / (0 + RegularizedBrooksCoreyParams.eps).
Proof.
  destruct (@dPcnw_dSw_stencil unit straightCurve
              (RegularizedBrooksCoreyParams.default tt 0 0 0 0) 1)
    as (_ & _ & Hback & _).
  apply Hback. unfold RegularizedBrooksCoreyParams.eps. lra.
Defined.

Lemma dPcnw_dSw_straight_witness :
  RegularizedBrooksCoreyParams.dPcnw_dSw_ straightCurve
    (RegularizedBrooksCoreyParams.default tt 0 0 0 0) (1 # 2) == -3.
Proof.
  apply (@dPcnw_dSw_straight unit straightCurve
           (RegularizedBrooksCoreyParams.default tt 0 0 0 0) 5 (-3)).
  intro S. unfold straightCurve. ring.
Defined.

(** ** EclTwoPhaseMaterialParams *)

Section TwoPhaseParams.
Import EclTwoPhaseMaterialParams.
Variables GO OW : Type.

Lemma performAll_state (ndebug : bool) (cs : list (call GO OW)) (p : t GO OW) :
  finalized_ (performAll ndebug p cs)
  = (if ndebug then finalized_ p else finalized_ p || finalizeCalled cs) /\
  approach_ (performAll ndebug p cs) = lastApproach cs (approach_ p) /\
  gasOilParams_ (performAll ndebug p cs) = lastGasOil cs (gasOilParams_ p) /\
  oilWaterParams_ (performAll ndebug p cs) = lastOilWater cs (oilWaterParams_ p).
Proof.
  revert p. induction cs as [|c cs IH]; intro p.
  - cbn. destruct ndebug; [|rewrite orb_false_r]; repeat split; reflexivity.
  - unfold performAll, lastApproach, lastGasOil, lastOilWater in *.
    cbn [fold_left finalizeCalled existsb].
    destruct (IH (perform ndebug p c)) as (HF & HA & HG & HO).
    rewrite HF, HA, HG, HO. fold (finalizeCalled cs).
    destruct c; cbn [perform finalize setApproach setGasOilParams setOilWaterParams
                     finalized_ approach_ gasOilParams_ oilWaterParams_];
      destruct ndebug; repeat split; try reflexivity.
    now rewrite orb_true_r.
Qed.

(** X21. After any sequence of [finalize()] and setter calls on a
    default-constructed object: in the checked build the two parameter
    accessors fail their [assert] unless [finalize()] is among the calls,
    wherever in the sequence it stands; in either build an accessor that
    returns yields what the last call of its setter stored (a null pointer
    if there was none, which [finalize()] does not check); [approach()]
    returns what the last [setApproach] stored, without any check. *)
Theorem twoPhaseParams_accessors (ndebug : bool) (u : EclTwoPhaseApproach)
    (cs : list (call GO OW)) :
  let p := performAll ndebug (EclTwoPhaseMaterialParams.default GO OW u) cs in
  gasOilParams ndebug p
  = (if ndebug || finalizeCalled cs then Ok (lastGasOil cs None) else Abort) /\
  oilWaterParams ndebug p
  = (if ndebug || finalizeCalled cs then Ok (lastOilWater cs None) else Abort) /\
  approach p = lastApproach cs u.
Proof.
  cbv zeta.
  destruct (performAll_state ndebug cs (EclTwoPhaseMaterialParams.default GO OW u))
    as (HF & HA & HG & HO).
  unfold gasOilParams, oilWaterParams, approach, assert.
  rewrite HF, HA, HG, HO. cbn [finalized_ approach_ gasOilParams_ oilWaterParams_
                               EclTwoPhaseMaterialParams.default orb].
  destruct ndebug; cbn [orb]; [repeat split; reflexivity|].
  destruct (finalizeCalled cs); repeat split; reflexivity.
Qed.

End TwoPhaseParams.
